(** * UV unwrapping pipeline: topology, seams, islands, LSCM, packing

    A shallow embedding of the C++ sources of the unwrapper
    ([topology.cpp], [seam_detection.cpp], [unwrap.cpp], [lscm.cpp],
    [packing.cpp]) together with the properties its specification states.

    Integer indices ([int] loop counters, vertex, face and edge indices)
    are [nat]; integers that carry the sentinel [-1] (incident faces,
    island ids) are [Z].  Floating-point code is written once over an
    interface [Scalar] of the operations the sources use.  The
    properties hold for every instance, or are stated at [binary32]
    (IEEE 754 single precision, the C++ [float], executable); the real
    numbers are a second instance, used for the elimination of the
    pinned unknowns, a step that does not round. *)

From Stdlib Require Import List ZArith Lia Bool Arith PeanoNat.
From Stdlib Require Import Permutation Sorted Relations.
From Stdlib Require Import Reals Lra.
From Stdlib Require Import Floats.SpecFloat.
Import ListNotations.

Set Implicit Arguments.

(* ================================================================== *)
(** ** Scalars *)

(** The arithmetic the sources perform on [float] and [double] values. *)
Class Scalar (T : Type) := {
  s_zero : T;
  s_one : T;
  s_add : T -> T -> T;
  s_sub : T -> T -> T;
  s_mul : T -> T -> T;
  s_div : T -> T -> T;
  s_neg : T -> T;
  s_ltb : T -> T -> bool;
  s_eqb : T -> T -> bool;
  (** [FLT_MAX] of <float.h> *)
  FLT_MAX : T;
  (** the literal [1e-6f] *)
  eps6 : T
}.

Declare Scope scalar_scope.
Delimit Scope scalar_scope with sc.
Infix "+" := s_add : scalar_scope.
Infix "-" := s_sub : scalar_scope.
Infix "*" := s_mul : scalar_scope.
Infix "/" := s_div : scalar_scope.
Infix "<?" := s_ltb : scalar_scope.
Infix "=?" := s_eqb : scalar_scope.

(** IEEE 754 binary32: 24 bits of precision, exponent of infinity 128. *)
Definition binary32 : Type := spec_float.

Definition b32_of_Z (m e : Z) : binary32 := binary_normalize 24 128 m e false.

#[export] Instance Scalar_binary32 : Scalar binary32 := {
  s_zero := S754_zero false;
  s_one := b32_of_Z 1 0;
  s_add := SFadd 24 128;
  s_sub := SFsub 24 128;
  s_mul := SFmul 24 128;
  s_div := SFdiv 24 128;
  s_neg := SFopp;
  s_ltb := SFltb;
  s_eqb := SFeqb;
  FLT_MAX := S754_finite false 16777215 104;
  eps6 := S754_finite false 8796093 (-43)
}.

Definition Rltb (a b : R) : bool := if Rlt_dec a b then true else false.
Definition Reqb (a b : R) : bool := if Req_dec_T a b then true else false.

(** Exact arithmetic: the same constants, read as real numbers. *)
#[export] Instance Scalar_R : Scalar R := {
  s_zero := 0%R;
  s_one := 1%R;
  s_add := Rplus;
  s_sub := Rminus;
  s_mul := Rmult;
  s_div := Rdiv;
  s_neg := Ropp;
  s_ltb := Rltb;
  s_eqb := Reqb;
  FLT_MAX := (16777215 * 2 ^ 104)%R;
  eps6 := (8796093 / 2 ^ 43)%R
}.

Section FloatHelpers.
Context {T : Type} {ST : Scalar T}.
Local Open Scope scalar_scope.

(** Modelled from the spec: [min_float] and [max_float] of math_utils.h
    (the vector-math collaborator, not among the sources) are the minimum
    and maximum used for "the bounding box of all (u,v)". *)
Definition min_float (a b : T) : T := if a <? b then a else b.
Definition max_float (a b : T) : T := if a <? b then b else a.

(* ---------------------------------------------------------------- *)
(** ** lscm.cpp: normalize_uvs_to_unit_square *)

(** One pass of the bounding-box loop (lines 100-108). *)
Definition bbox_step (acc : T * T * T * T) (p : T * T) : T * T * T * T :=
  let '(min_u, max_u, min_v, max_v) := acc in
  let (u, v) := p in
  (min_float min_u u, max_float max_u u, min_float min_v v, max_float max_v v).

Definition bbox_init : T * T * T * T :=
  (FLT_MAX, s_neg FLT_MAX, FLT_MAX, s_neg FLT_MAX).

(** [uvs] is the array of [num_verts] pairs; a null or empty array is
    returned as it is. *)
Definition normalize_uvs_to_unit_square (uvs : list (T * T)) : list (T * T) :=
  match uvs with
  | [] => uvs
  | _ :: _ =>
    let '(min_u, max_u, min_v, max_v) := fold_left bbox_step uvs bbox_init in
    let u_range := max_u - min_u in
    let v_range := max_v - min_v in
    let u_range := if u_range <? eps6 then s_one else u_range in
    let v_range := if v_range <? eps6 then s_one else v_range in
    let scale := s_one / max_float u_range v_range in
    map (fun p => ((fst p - min_u) * scale, (snd p - min_v) * scale)) uvs
  end.

End FloatHelpers.

(* ================================================================== *)
(** ** Containers *)

(** [l[i] = x] on an array; an index out of range (undefined behaviour in
    the sources) leaves the array as it is. *)
Fixpoint upd {A : Type} (l : list A) (i : nat) (x : A) : list A :=
  match l, i with
  | [], _ => []
  | _ :: t, O => x :: t
  | h :: t, S i' => h :: upd t i' x
  end.

(** [v[i].push_back(x)] on a vector of vectors. *)
Definition push_back {A : Type} (v : list (list A)) (i : nat) (x : A) : list (list A) :=
  upd v i (nth i v [] ++ [x]).

(** [std::set<int>]: a strictly increasing list; iteration is ascending. *)
Fixpoint set_insert (x : nat) (s : list nat) : list nat :=
  match s with
  | [] => [x]
  | y :: t =>
    if x <? y then x :: s
    else if x =? y then s
    else y :: set_insert x t
  end.

Definition set_mem (x : nat) (s : list nat) : bool := existsb (Nat.eqb x) s.

Definition set_of_list (l : list nat) : list nat :=
  fold_left (fun s x => set_insert x s) l [].

(* ================================================================== *)
(** ** Data model *)

(** [Mesh]: vertex positions, triangles (three vertex indices each) and
    the optional per-vertex UV array ([None] is the null pointer).
    [num_vertices] and [num_triangles] are the lengths of the arrays. *)
Record Mesh (T : Type) := {
  vertices : list (T * T * T);
  triangles : list (nat * nat * nat);
  uvs : option (list (T * T))
}.

Definition num_vertices {T} (m : Mesh T) : nat := length (vertices m).
Definition num_triangles {T} (m : Mesh T) : nat := length (triangles m).

(** The three corners [triangles[f*3 + j]], [j = 0,1,2], of face [f]. *)
Definition tri_verts (t : nat * nat * nat) : list nat :=
  let '(a, b, c) := t in [a; b; c].

Definition face_verts {T} (m : Mesh T) (f : nat) : list nat :=
  tri_verts (nth f (triangles m) (0, 0, 0)).

(** [TopologyInfo]: entry [e] of [edges] is the pair
    [edges[2e], edges[2e+1]] of endpoints, entry [e] of [edge_faces] the
    pair [edge_faces[2e], edge_faces[2e+1]] of incident faces, [-1] for
    none. *)
Record TopologyInfo := {
  num_edges : nat;
  edges : list (nat * nat);
  edge_faces : list (Z * Z)
}.

Definition edge_at (topo : TopologyInfo) (e : nat) : nat * nat :=
  nth e (edges topo) (0, 0).
Definition faces_at (topo : TopologyInfo) (e : nat) : Z * Z :=
  nth e (edge_faces topo) ((-1)%Z, (-1)%Z).

(* ================================================================== *)
(** ** topology.cpp *)

(** [struct Edge]: the constructor stores the smaller vertex first. *)
Definition Edge : Type := (nat * nat)%type.

Definition mk_Edge (a b : nat) : Edge := if a <? b then (a, b) else (b, a).

(** [Edge::operator<]. *)
Definition Edge_lt (x y : Edge) : bool :=
  if negb (fst x =? fst y) then fst x <? fst y else snd x <? snd y.

Definition Edge_eqb (x y : Edge) : bool :=
  (fst x =? fst y) && (snd x =? snd y).

Record EdgeInfo := { face0 : Z; face1 : Z }.

(** [std::map<Edge, V>]: an association list kept in key order. *)
Definition edge_map (V : Type) : Type := list (Edge * V).

Fixpoint map_find {V : Type} (e : Edge) (m : edge_map V) : option V :=
  match m with
  | [] => None
  | (k, i) :: t => if Edge_eqb e k then Some i else map_find e t
  end.

(** [m[e] = info]. *)
Fixpoint map_set {V : Type} (e : Edge) (info : V) (m : edge_map V) : edge_map V :=
  match m with
  | [] => [(e, info)]
  | (k, i) :: t =>
    if Edge_lt e k then (e, info) :: m
    else if Edge_eqb e k then (k, info) :: t
    else (k, i) :: map_set e info t
  end.

(** The body of the inner loop: one edge [(a, b)] of face [f]. *)
Definition add_edge (f : nat) (m : edge_map EdgeInfo) (ab : nat * nat) : edge_map EdgeInfo :=
  let e := mk_Edge (fst ab) (snd ab) in
  match map_find e m with
  | None => map_set e {| face0 := Z.of_nat f; face1 := -1 |} m
  | Some info => map_set e {| face0 := face0 info; face1 := Z.of_nat f |} m
  end.

(** The edges [(vs[i], vs[(i+1)%3])], [i = 0,1,2]. *)
Definition tri_edges (t : nat * nat * nat) : list (nat * nat) :=
  let '(v0, v1, v2) := t in [(v0, v1); (v1, v2); (v2, v0)].

Definition add_face (m : edge_map EdgeInfo) (ft : nat * (nat * nat * nat)) : edge_map EdgeInfo :=
  fold_left (add_edge (fst ft)) (tri_edges (snd ft)) m.

Definition build_edge_map {T} (mesh : Mesh T) : edge_map EdgeInfo :=
  fold_left add_face (combine (seq 0 (num_triangles mesh)) (triangles mesh)) [].

(** [build_topology]: [None] is the null pointer, for the argument and
    for the result. *)
Definition build_topology {T} (mesh : option (Mesh T)) : option TopologyInfo :=
  match mesh with
  | None => None
  | Some mesh =>
    let edge_map := build_edge_map mesh in
    Some {| num_edges := length edge_map;
            edges := map fst edge_map;
            edge_faces := map (fun kv => (face0 (snd kv), face1 (snd kv))) edge_map |}
  end.

(* ================================================================== *)
(** ** unwrap.cpp: extract_islands *)

(** Lines 70-80: the adjacency contributed by edge [e]. *)
Definition adj_step (topo : TopologyInfo) (seam_set : list nat)
    (adj : list (list nat)) (e : nat) : list (list nat) :=
  if set_mem e seam_set then adj
  else
    let (f0, f1) := faces_at topo e in
    if negb (f0 =? -1)%Z && negb (f1 =? -1)%Z then
      push_back (push_back adj (Z.to_nat f0) (Z.to_nat f1)) (Z.to_nat f1) (Z.to_nat f0)
    else adj.

Definition build_adj (F : nat) (topo : TopologyInfo) (seam_set : list nat) : list (list nat) :=
  fold_left (adj_step topo seam_set) (seq 0 (num_edges topo)) (repeat [] F).

(** Lines 98-101: neighbour [v] of the face taken from the queue. *)
Definition visit (cur : Z) (st : list Z * list nat) (v : nat) : list Z * list nat :=
  let (ids, q) := st in
  if (nth v ids 0 =? -1)%Z then (upd ids v cur, q ++ [v]) else st.

(** Lines 94-103: the loop [while (head < q.size())]; [fuel] bounds the
    number of iterations. *)
Fixpoint bfs_loop (fuel : nat) (adj : list (list nat)) (cur : Z)
    (ids : list Z) (q : list nat) (head : nat) : list Z * list nat * nat :=
  match fuel with
  | O => (ids, q, head)
  | S fuel' =>
    if head <? length q then
      let u := nth head q 0 in
      let (ids', q') := fold_left (visit cur) (nth u adj []) (ids, q) in
      bfs_loop fuel' adj cur ids' q' (S head)
    else (ids, q, head)
  end.

(** Lines 85-105: one iteration of the loop over [start_face].  Every
    face enters the queue at most once, so [F] iterations of the inner
    loop are enough (lemma [bfs_loop_runs_out]). *)
Definition island_step (F : nat) (adj : list (list nat))
    (st : list Z * Z) (start_face : nat) : list Z * Z :=
  let (ids, current_island_id) := st in
  if negb (nth start_face ids 0 =? -1)%Z then st
  else
    let '(ids', _, _) :=
      bfs_loop F adj current_island_id
               (upd ids start_face current_island_id) [start_face] 0 in
    (ids', (current_island_id + 1)%Z).

(** The result is the array [face_island_ids] and [*num_islands_out]. *)
Definition extract_islands {T} (mesh : Mesh T) (topo : TopologyInfo)
    (seam_edges : list nat) : list Z * Z :=
  let F := num_triangles mesh in
  let seam_set := set_of_list seam_edges in
  let adj := build_adj F topo seam_set in
  fold_left (island_step F adj) (seq 0 F) (repeat (-1)%Z F, 0%Z).

(** Every recorded incident face is a face of the mesh. *)
Definition faces_in_range (F : nat) (topo : TopologyInfo) : Prop :=
  forall e, e < num_edges topo ->
    let (f0, f1) := faces_at topo e in
    ((f0 = -1 \/ 0 <= f0 < Z.of_nat F) /\ (f1 = -1 \/ 0 <= f1 < Z.of_nat F))%Z.

(** Faces [f] and [g] lie on the two sides of an interior edge that is
    not a seam. *)
Definition face_adjacent (topo : TopologyInfo) (seam_edges : list nat) (f g : nat) : Prop :=
  exists e, e < num_edges topo /\ ~ In e seam_edges /\
    let (f0, f1) := faces_at topo e in
    (f0 <> -1 /\ f1 <> -1 /\
     ((Z.of_nat f = f0 /\ Z.of_nat g = f1) \/ (Z.of_nat f = f1 /\ Z.of_nat g = f0)))%Z.

(** A path of interior, non-seam edges. *)
Definition connected (topo : TopologyInfo) (seam_edges : list nat) : nat -> nat -> Prop :=
  clos_refl_trans nat (face_adjacent topo seam_edges).

(* ================================================================== *)
(** ** seam_detection.cpp: detect_seams *)

(** Lines 117-128: the dual graph.  [dual_adj[f]] lists the neighbours of
    face [f], [dual_edge_indices[f]] the edge shared with each. *)
Definition dual_step (topo : TopologyInfo)
    (st : list (list nat) * list (list nat)) (e : nat)
    : list (list nat) * list (list nat) :=
  let (dual_adj, dual_edge_indices) := st in
  let (f0, f1) := faces_at topo e in
  if negb (f0 =? -1)%Z && negb (f1 =? -1)%Z then
    (push_back (push_back dual_adj (Z.to_nat f0) (Z.to_nat f1)) (Z.to_nat f1) (Z.to_nat f0),
     push_back (push_back dual_edge_indices (Z.to_nat f0) e) (Z.to_nat f1) e)
  else st.

Definition build_dual (F : nat) (topo : TopologyInfo) : list (list nat) * list (list nat) :=
  fold_left (dual_step topo) (seq 0 (num_edges topo)) (repeat [] F, repeat [] F).

(** The state of the traversal: [visited], the queue [q], [tree_edges]. *)
Definition bfs_state : Type := (list bool * list nat * list nat)%type.

(** Lines 153-162: neighbour [v] of [u], reached over [edge_idx]. *)
Definition tree_visit (st : bfs_state) (ve : nat * nat) : bfs_state :=
  let '(visited, q, tree_edges) := st in
  let (v, edge_idx) := ve in
  if negb (nth v visited true) then
    (upd visited v true, q ++ [v], set_insert edge_idx tree_edges)
  else st.

(** Lines 149-163: the loop [while (!q.empty())]; [fuel] bounds the
    number of iterations. *)
Fixpoint tree_bfs (fuel : nat) (dual_adj dual_edge_indices : list (list nat))
    (st : bfs_state) : bfs_state :=
  match fuel with
  | O => st
  | S fuel' =>
    let '(visited, q, tree_edges) := st in
    match q with
    | [] => st
    | u :: q' =>
      tree_bfs fuel' dual_adj dual_edge_indices
        (fold_left tree_visit
           (combine (nth u dual_adj []) (nth u dual_edge_indices []))
           (visited, q', tree_edges))
    end
  end.

(** Lines 143-164: one iteration of the loop over [start_node].  A face
    is pushed when it is first visited, so [F] iterations of the inner
    loop empty the queue (lemma [spanning_forest_queue_empty]). *)
Definition tree_start (F : nat) (dual_adj dual_edge_indices : list (list nat))
    (st : bfs_state) (start_node : nat) : bfs_state :=
  let '(visited, q, tree_edges) := st in
  if nth start_node visited true then st
  else tree_bfs F dual_adj dual_edge_indices
         (upd visited start_node true, q ++ [start_node], tree_edges).

Definition spanning_forest (F : nat) (topo : TopologyInfo) : bfs_state :=
  let (dual_adj, dual_edge_indices) := build_dual F topo in
  fold_left (tree_start F dual_adj dual_edge_indices) (seq 0 F)
            (repeat false F, [], []).

Definition tree_edges_of (F : nat) (topo : TopologyInfo) : list nat :=
  snd (spanning_forest F topo).

(** Lines 174-181. *)
Definition is_boundary (topo : TopologyInfo) (e : nat) : bool :=
  (snd (faces_at topo e) =? -1)%Z.

Definition num_boundary_edges (topo : TopologyInfo) : nat :=
  length (filter (is_boundary topo) (seq 0 (num_edges topo))).

Definition is_closed_mesh (topo : TopologyInfo) : bool :=
  num_boundary_edges topo =? 0.

(** Lines 211-216: the number of edges with endpoint [v], and the
    priority of edge [e]. *)
Definition degree (topo : TopologyInfo) (v : nat) : nat :=
  length (filter (fun e2 => (fst (edge_at topo e2) =? v) || (snd (edge_at topo e2) =? v))
                 (seq 0 (num_edges topo))).

Definition priority (topo : TopologyInfo) (e : nat) : nat :=
  degree topo (fst (edge_at topo e)) + degree topo (snd (edge_at topo e)).

(** The vector [non_tree_edges] of pairs (edge, priority) before it is
    sorted: lines 204-219 for a closed mesh, lines 258-272 for an open
    one. *)
Definition non_tree_edges (F : nat) (topo : TopologyInfo) : list (nat * nat) :=
  let tree_edges := tree_edges_of F topo in
  let keep e :=
    if is_closed_mesh topo then negb (set_mem e tree_edges)
    else negb (is_boundary topo e) && negb (set_mem e tree_edges) in
  map (fun e => (e, priority topo e)) (filter keep (seq 0 (num_edges topo))).

(** Lines 234-246 and 280-281: [c] is [non_tree_edges.size()]. *)
Definition target_seams (closed : bool) (F c : nat) : nat :=
  if closed then
    if F <=? 20 then c
    else if F <=? 70 then Nat.min (Nat.max 1 (c / 3)) 2
    else Nat.min (Nat.max 1 (c / 14)) 5
  else Nat.min (Nat.max 1 (c / 3)) 2.

(** [std::sort] is a parameter: any function that returns its argument
    rearranged in ascending order of the comparator
    [a.second < b.second]. *)
Definition sorts_by_priority (sort : list (nat * nat) -> list (nat * nat)) : Prop :=
  forall l, Permutation (sort l) l /\
            StronglySorted (fun a b => snd a <= snd b) (sort l).

(** Lines 248-250 and 283-285, then 309-315: the chosen edges go through
    the [std::set] [seam_candidates] into the result array. *)
Definition select_seams (sort : list (nat * nat) -> list (nat * nat))
    (F : nat) (topo : TopologyInfo) : list nat :=
  let sorted := sort (non_tree_edges F topo) in
  let c := length sorted in
  let target := target_seams (is_closed_mesh topo) F c in
  set_of_list (map fst (firstn (Nat.min target c) sorted)).

(** [None] is the null pointer, for [mesh], [topo] and the result;
    [num_seams_out] tells whether that pointer is not null (line 107).
    The result is the array of [*num_seams_out] seam edges.
    [angle_threshold] is not used. *)
Definition detect_seams {T} (sort : list (nat * nat) -> list (nat * nat))
    (mesh : option (Mesh T)) (topo : option TopologyInfo)
    (angle_threshold : T) (num_seams_out : bool) : option (list nat) :=
  match mesh, topo, num_seams_out with
  | Some mesh, Some topo, true => Some (select_seams sort (num_triangles mesh) topo)
  | _, _, _ => None
  end.

(** An insertion sort, one function that sorts by priority. *)
Fixpoint insert_by_priority (a : nat * nat) (l : list (nat * nat)) : list (nat * nat) :=
  match l with
  | [] => [a]
  | b :: t => if snd a <=? snd b then a :: l else b :: insert_by_priority a t
  end.

Definition insertion_sort (l : list (nat * nat)) : list (nat * nat) :=
  fold_right insert_by_priority [] l.


(* ================================================================== *)
(** ** packing.cpp: pack_uv_islands *)

(** [UnwrapResult]: the island count and the island id of every face
    (the quality metrics play no part in packing). *)
Record UnwrapResult := {
  num_islands : nat;
  face_island_ids : list Z
}.

Section Packing.
Context {T : Type} {ST : Scalar T}.
Local Open Scope scalar_scope.

(** [struct Island]. *)
Record Island := {
  id : nat;
  min_u : T; max_u : T; min_v : T; max_v : T;
  width : T; height : T;
  target_x : T; target_y : T;
  vertex_indices : list nat
}.

(** Lines 81-96: the vector [islands] after its initialisation. *)
Definition init_island (i : nat) : Island :=
  {| id := i;
     min_u := FLT_MAX; max_u := s_neg FLT_MAX;
     min_v := FLT_MAX; max_v := s_neg FLT_MAX;
     width := s_zero; height := s_zero;
     target_x := s_zero; target_y := s_zero;
     vertex_indices := [] |}.

(** Lines 117-125: vertex [v] with UV [(u, v_coord)] joins the island. *)
Definition add_vertex (isl : Island) (v : nat) (u v_coord : T) : Island :=
  {| id := id isl;
     min_u := min_float (min_u isl) u; max_u := max_float (max_u isl) u;
     min_v := min_float (min_v isl) v_coord; max_v := max_float (max_v isl) v_coord;
     width := width isl; height := height isl;
     target_x := target_x isl; target_y := target_y isl;
     vertex_indices := vertex_indices isl ++ [v] |}.

Definition set_dims (isl : Island) (w h : T) : Island :=
  {| id := id isl;
     min_u := min_u isl; max_u := max_u isl;
     min_v := min_v isl; max_v := max_v isl;
     width := w; height := h;
     target_x := target_x isl; target_y := target_y isl;
     vertex_indices := vertex_indices isl |}.

Definition set_target (isl : Island) (x y : T) : Island :=
  {| id := id isl;
     min_u := min_u isl; max_u := max_u isl;
     min_v := min_v isl; max_v := max_v isl;
     width := width isl; height := height isl;
     target_x := x; target_y := y;
     vertex_indices := vertex_indices isl |}.

Definition uv_at (uv : list (T * T)) (v : nat) : T * T := nth v uv (s_zero, s_zero).

(** Lines 111-127: corner [v] of a face of island [island_id]. *)
Definition assign_vertex (uv : list (T * T)) (island_id : nat)
    (st : list Z * list Island) (v : nat) : list Z * list Island :=
  let (vert_to_island, islands) := st in
  if (nth v vert_to_island 0 =? -1)%Z then
    (upd vert_to_island v (Z.of_nat island_id),
     upd islands island_id
         (add_vertex (nth island_id islands (init_island island_id)) v
                     (fst (uv_at uv v)) (snd (uv_at uv v))))
  else st.

(** Lines 105-128: face [f]. *)
Definition assign_face (uv : list (T * T)) (tris : list (nat * nat * nat))
    (ids : list Z) (n : nat) (st : list Z * list Island) (f : nat)
    : list Z * list Island :=
  let island_id := nth f ids 0%Z in
  if (island_id <? 0)%Z || (Z.of_nat n <=? island_id)%Z then st
  else fold_left (assign_vertex uv (Z.to_nat island_id))
                 (tri_verts (nth f tris (0, 0, 0))) st.

(** Lines 131-145. *)
Definition normalize_dims (isl : Island) : Island :=
  if min_u isl =? FLT_MAX then set_dims isl s_zero s_zero
  else set_dims isl (max_u isl - min_u isl) (max_v isl - min_v isl).

(** Lines 81-145: the islands with their vertices, bounding boxes and
    dimensions, and the map [vert_to_island]. *)
Definition collect_islands (nv : nat) (uv : list (T * T))
    (tris : list (nat * nat * nat)) (res : UnwrapResult)
    : list Z * list Island :=
  let n := num_islands res in
  let (vert_to_island, islands) :=
    fold_left (assign_face uv tris (face_island_ids res) n)
              (seq 0 (length tris))
              (repeat (-1)%Z nv, map init_island (seq 0 n)) in
  (vert_to_island, map normalize_dims islands).

(** The variables of the shelf loop. *)
Record shelf_state := {
  current_x : T; current_y : T; shelf_height : T;
  packed_max_w : T; packed_max_h : T
}.

Definition shelf_init : shelf_state :=
  {| current_x := s_zero; current_y := s_zero; shelf_height := s_zero;
     packed_max_w := s_zero; packed_max_h := s_zero |}.

(** Line 169: the island does not fit on the current shelf. *)
Definition opens_shelf (st : shelf_state) (isl : Island) : bool :=
  (s_one <? current_x st + width isl) && (s_zero <? current_x st).

(** Lines 171-173. *)
Definition new_shelf (margin : T) (st : shelf_state) : shelf_state :=
  {| current_x := s_zero;
     current_y := current_y st + (shelf_height st + margin);
     shelf_height := s_zero;
     packed_max_w := packed_max_w st; packed_max_h := packed_max_h st |}.

(** Lines 165-185: one island of the shelf loop. *)
Definition place (margin : T) (st : shelf_state) (isl : Island) : shelf_state * Island :=
  if width isl =? s_zero then (st, isl)
  else
    let st1 := if opens_shelf st isl then new_shelf margin st else st in
    let isl' := set_target isl (current_x st1) (current_y st1) in
    ({| current_x := current_x st1 + (width isl + margin);
        current_y := current_y st1;
        shelf_height := max_float (shelf_height st1) (height isl);
        packed_max_w := max_float (packed_max_w st1) (target_x isl' + width isl);
        packed_max_h := max_float (packed_max_h st1) (target_y isl' + height isl) |},
     isl').

Fixpoint shelf_pack (margin : T) (st : shelf_state) (l : list Island)
    : list Island * shelf_state :=
  match l with
  | [] => ([], st)
  | isl :: t =>
    let (st1, isl') := place margin st isl in
    let (t', st2) := shelf_pack margin st1 t in
    (isl' :: t', st2)
  end.

(** Lines 196-199. *)
Definition move_vertex (offset_x offset_y : T) (uv : list (T * T)) (v : nat) : list (T * T) :=
  upd uv v (fst (uv_at uv v) + offset_x, snd (uv_at uv v) + offset_y).

(** Lines 189-200: one island of the loop that moves the islands. *)
Definition move_island (uv : list (T * T)) (isl : Island) : list (T * T) :=
  if width isl =? s_zero then uv
  else
    fold_left (move_vertex (target_x isl - min_u isl) (target_y isl - min_v isl))
              (vertex_indices isl) uv.

(** Lines 203-205. *)
Definition final_scale (st : shelf_state) : T :=
  if packed_max_w st =? s_zero then s_one
  else s_one / max_float (packed_max_w st) (packed_max_h st).

(** Lines 207-210: the first [nv] entries are scaled. *)
Definition scale_uvs (nv : nat) (scale : T) (uv : list (T * T)) : list (T * T) :=
  map (fun p => (fst p * scale, snd p * scale)) (firstn nv uv) ++ skipn nv uv.

(** The islands after the shelf loop, in the order [std::sort] left them,
    and the final values of the loop variables.  [std::sort] is the
    parameter [sort]. *)
Definition pack_layout (sort : list Island -> list Island) (nv : nat)
    (uv : list (T * T)) (tris : list (nat * nat * nat)) (res : UnwrapResult)
    (margin : T) : list Island * shelf_state :=
  shelf_pack margin shelf_init (sort (snd (collect_islands nv uv tris res))).

(** The UV array that [pack_uv_islands] leaves in the mesh ([mesh] and
    [result] are not null here). *)
Definition pack_uv_islands (sort : list Island -> list Island)
    (mesh : Mesh T) (result : UnwrapResult) (margin : T) : option (list (T * T)) :=
  match uvs mesh with
  | None => None
  | Some uv =>
    if num_islands result <=? 1 then Some uv
    else
      let (islands, st) :=
        pack_layout sort (num_vertices mesh) uv (triangles mesh) result margin in
      let moved := fold_left move_island islands uv in
      Some (scale_uvs (num_vertices mesh) (final_scale st) moved)
  end.

(** [std::sort] with the comparator [a.height > b.height] is a parameter
    [sort] of [pack_uv_islands]; this insertion sort is one such function. *)
Fixpoint insert_by_height (a : Island) (l : list Island) : list Island :=
  match l with
  | [] => [a]
  | b :: t => if height a <? height b then b :: insert_by_height a t else a :: l
  end.

Definition sort_by_height (l : list Island) : list Island :=
  fold_right insert_by_height [] l.

End Packing.


(* ================================================================== *)
(** ** Concrete inputs *)

Definition f32 (n : Z) : binary32 := b32_of_Z n 0.
(** [q32 m k] is the binary32 number [m / 2^k]. *)
Definition q32 (m : Z) (k : Z) : binary32 := b32_of_Z m (- k).

Definition origin32 : binary32 * binary32 * binary32 := (f32 0, f32 0, f32 0).




(** Two islands, each as [normalize_uvs_to_unit_square] leaves it: the
    first lies on the line [v = 0] (width 1/2, height 0), the second on
    the line [u = 0] (width 0, height 3/4). *)
Definition sliver_uvs : list (binary32 * binary32) :=
  [(f32 0, f32 0); (q32 1 2, f32 0); (q32 1 1, f32 0);
   (f32 0, f32 0); (f32 0, q32 1 1); (f32 0, q32 3 2)].

Definition sliver_mesh : Mesh binary32 :=
  {| vertices := repeat origin32 6;
     triangles := [(0, 1, 2); (3, 4, 5)];
     uvs := Some sliver_uvs |}.

Definition sliver_result : UnwrapResult :=
  {| num_islands := 2; face_island_ids := [0; 1]%Z |}.


(* ================================================================== *)
(** ** lscm.cpp: find_boundary_vertices and lscm_parameterize *)

(** [std::map<int,int> global_to_local], only ever searched by key: an
    association list. *)
Fixpoint int_map_find (k : nat) (m : list (nat * nat)) : option nat :=
  match m with
  | [] => None
  | (k', x) :: t => if k =? k' then Some x else int_map_find k t
  end.

(** [global_to_local[v]] ([operator[]] gives 0 for a missing key). *)
Definition local_index (global_to_local : list (nat * nat)) (v : nat) : nat :=
  match int_map_find v global_to_local with
  | Some l => l
  | None => 0
  end.

(** Lines 143-147: corner [v_global] of a face of the island. *)
Definition map_vertex (st : list (nat * nat) * list nat) (v_global : nat)
    : list (nat * nat) * list nat :=
  let (global_to_local, local_to_global) := st in
  match int_map_find v_global global_to_local with
  | None => ((v_global, length local_to_global) :: global_to_local,
             local_to_global ++ [v_global])
  | Some _ => st
  end.

(** Lines 137-149: [global_to_local] and [local_to_global]. *)
Definition local_vertex_map {T} (mesh : Mesh T) (face_indices : list nat)
    : list (nat * nat) * list nat :=
  fold_left (fun st f => fold_left map_vertex (face_verts mesh f) st)
            face_indices ([], []).

(** Lines 61-66: [edge_counts[{a, b}]++] with [a <= b]. *)
Definition count_edge (m : edge_map nat) (ab : nat * nat) : edge_map nat :=
  let e := mk_Edge (fst ab) (snd ab) in
  match map_find e m with
  | None => map_set e 1 m
  | Some c => map_set e (S c) m
  end.

Definition edge_counts {T} (mesh : Mesh T) (face_indices : list nat) : edge_map nat :=
  fold_left (fun m f => fold_left count_edge (tri_edges (nth f (triangles mesh) (0, 0, 0))) m)
            face_indices [].

(** Lines 70-77. *)
Definition boundary_step (boundary_verts : list nat) (item : Edge * nat) : list nat :=
  if snd item =? 1 then
    set_insert (snd (fst item)) (set_insert (fst (fst item)) boundary_verts)
  else boundary_verts.

(** The result is the array [*boundary_out]; its length is the value
    returned. *)
Definition find_boundary_vertices {T} (mesh : Mesh T) (face_indices : list nat) : list nat :=
  match face_indices with
  | [] => []
  | _ :: _ => fold_left boundary_step (edge_counts mesh face_indices) []
  end.

(** A stored coefficient [(row, col, value)] of an [Eigen::SparseMatrix]
    or an [Eigen::Triplet]. *)
Definition triplet (D : Type) : Type := (nat * nat * D)%type.
Definition t_row {D} (t : triplet D) : nat := fst (fst t).
Definition t_col {D} (t : triplet D) : nat := snd (fst t).
Definition t_val {D} (t : triplet D) : D := snd t.

(** A compressed sparse matrix stores one coefficient per position. *)
Definition compressed {D} (A : list (triplet D)) : Prop := NoDup (map fst A).

Section LSCM.
Context {T : Type} {ST : Scalar T} {D : Type} {SD : Scalar D}.

(** What lscm.cpp takes from math_utils.h and Eigen, neither among the
    sources: the distance [vec3_length(vec3_sub(p, q))]; the matrix
    [A = M^T * M] of lines 159-307, assembled from the island's triangles
    with [setFromTriplets] and the sparse product; [SparseLU]'s [compute]
    and [solve], [None] when [info()] is not [Success]; the conversion
    [(float)] of a [double]. *)
Variable vec3_dist : T * T * T -> T * T * T -> T.
Variable assemble : Mesh T -> list nat -> list (nat * nat) -> list (triplet D).
Variable Factor : Type.
Variable lu_compute : list (triplet D) -> option Factor.
Variable lu_solve : Factor -> list D -> option (list D).
Variable d2f : D -> T.

Definition get_vertex_position (mesh : Mesh T) (v : nat) : T * T * T :=
  nth v (vertices mesh) (s_zero, s_zero, s_zero).

(** [setFromTriplets] sums the triplets of one position. *)
Fixpoint add_triplet (t : triplet D) (m : list (triplet D)) : list (triplet D) :=
  match m with
  | [] => [t]
  | e :: m' =>
    if (t_row e =? t_row t) && (t_col e =? t_col t)
    then (fst e, (t_val e + t_val t)%sc) :: m'
    else e :: add_triplet t m'
  end.

Definition setFromTriplets (ts : list (triplet D)) : list (triplet D) :=
  fold_left (fun m t => add_triplet t m) ts [].

(** Lines 321-332: the pair [(i, k)] of boundary vertices. *)
Definition farthest_pair_step (mesh : Mesh T) (g2l : list (nat * nat))
    (l2g boundary_verts : list nat) (st : T * nat * nat) (ik : nat * nat)
    : T * nat * nat :=
  let '(max_dist, pinned_idx1, pinned_idx2) := st in
  let a := local_index g2l (nth (fst ik) boundary_verts 0) in
  let b := local_index g2l (nth (snd ik) boundary_verts 0) in
  let d := vec3_dist (get_vertex_position mesh (nth a l2g 0))
                     (get_vertex_position mesh (nth b l2g 0)) in
  if (max_dist <? d)%sc then (d, a, b) else st.

(** The pairs [i < k < nb] in the order of the two loops. *)
Definition index_pairs (nb : nat) : list (nat * nat) :=
  flat_map (fun i => map (fun k => (i, k)) (seq (S i) (nb - S i))) (seq 0 nb).

(** Lines 345-351: vertex [i] against vertex 0. *)
Definition farthest_from_first (mesh : Mesh T) (l2g : list nat) (p0 : T * T * T)
    (st : T * nat) (i : nat) : T * nat :=
  let d := vec3_dist p0 (get_vertex_position mesh (nth i l2g 0)) in
  if (fst st <? d)%sc then (d, i) else st.

(** Lines 312-353: the local indices of the two pinned vertices. *)
Definition select_pins (mesh : Mesh T) (face_indices : list nat)
    (g2l : list (nat * nat)) (l2g : list nat) : nat * nat :=
  let n := length l2g in
  let boundary_verts := find_boundary_vertices mesh face_indices in
  let num_boundary := length boundary_verts in
  if 2 <=? num_boundary then
    let '(_, pinned_idx1, pinned_idx2) :=
      fold_left (farthest_pair_step mesh g2l l2g boundary_verts)
                (index_pairs num_boundary) (s_neg s_one, 0, n - 1) in
    if 200 <? num_boundary then
      (local_index g2l (nth 0 boundary_verts 0),
       local_index g2l (nth (num_boundary / 2) boundary_verts 0))
    else (pinned_idx1, pinned_idx2)
  else
    let p0 := get_vertex_position mesh (nth 0 l2g 0) in
    let '(_, pinned_idx2) :=
      fold_left (farthest_from_first mesh l2g p0) (seq 1 (n - 1)) (s_neg s_one, n - 1) in
    (0, pinned_idx2).

(** Lines 360-366. *)
Definition pinned_vars (pinned_idx1 pinned_idx2 : nat) : list nat :=
  [pinned_idx1 * 2; pinned_idx1 * 2 + 1; pinned_idx2 * 2; pinned_idx2 * 2 + 1].

Definition pinned_vals : list D := [s_zero; s_zero; s_one; s_zero].

(** Lines 419-423: the stored coefficients of column [idx] move to the
    right-hand side. *)
Definition move_column (A : list (triplet D)) (b : list D) (iv : nat * D) : list D :=
  fold_left
    (fun b it =>
       if negb (t_row it =? fst iv)
       then upd b (t_row it) (nth (t_row it) b s_zero - t_val it * snd iv)%sc
       else b)
    (filter (fun it => t_col it =? fst iv) A) b.

Definition is_pinned (pv : list nat) (i : nat) : bool := existsb (fun p => p =? i) pv.

(** Lines 450-461: what a stored coefficient of [A] adds to [A_triplets]. *)
Definition constrain_entry (pv : list nat) (it : triplet D) : list (triplet D) :=
  if is_pinned pv (t_row it) || is_pinned pv (t_col it) then
    if t_row it =? t_col it then [(t_row it, t_col it, s_one)] else []
  else [(t_row it, t_col it, t_val it)].

(** Lines 360-471: the matrix [A_final] and the right-hand side [b]. *)
Definition constrain_system (n : nat) (A : list (triplet D))
    (pinned_idx1 pinned_idx2 : nat) : list (triplet D) * list D :=
  let pv := pinned_vars pinned_idx1 pinned_idx2 in
  let b := repeat s_zero (2 * n) in
  let b := fold_left (move_column A) (combine pv pinned_vals) b in
  let A_triplets := flat_map (constrain_entry pv) A in
  let b := fold_left (fun b iv => upd b (fst iv) (snd iv)) (combine pv pinned_vals) b in
  (setFromTriplets A_triplets, b).

(** The linear system that [lscm_parameterize] hands to the solver. *)
Record lscm_system_t := {
  ls_n : nat;
  ls_local_to_global : list nat;
  ls_pin1 : nat;
  ls_pin2 : nat;
  ls_A_final : list (triplet D);
  ls_b : list D
}.

(** Lines 132-471, for a mesh and an index array that are not null. *)
Definition lscm_system (mesh : Mesh T) (face_indices : list nat) : option lscm_system_t :=
  match face_indices with
  | [] => None
  | _ :: _ =>
    let (g2l, l2g) := local_vertex_map mesh face_indices in
    let n := length l2g in
    if n <? 3 then None
    else
      let A := assemble mesh face_indices g2l in
      let (p1, p2) := select_pins mesh face_indices g2l l2g in
      let (A_final, b) := constrain_system n A p1 p2 in
      Some {| ls_n := n; ls_local_to_global := l2g; ls_pin1 := p1; ls_pin2 := p2;
              ls_A_final := A_final; ls_b := b |}
  end.

(** Lines 490-494. *)
Definition extract_uvs (n : nat) (x : list D) : list (T * T) :=
  map (fun i => (d2f (nth (i * 2) x s_zero), d2f (nth (i * 2 + 1) x s_zero))) (seq 0 n).

(** Lines 474-487: the solved vector [x]. *)
Definition lscm_solve (sys : lscm_system_t) : option (list D) :=
  match lu_compute (ls_A_final sys) with
  | None => None
  | Some solver => lu_solve solver (ls_b sys)
  end.

(** [None] is the null pointer, for the arguments and for the result;
    the result is the array of [n] UV pairs. *)
Definition lscm_parameterize (mesh : option (Mesh T)) (face_indices : option (list nat))
    : option (list (T * T)) :=
  match mesh, face_indices with
  | Some mesh, Some face_indices =>
    match lscm_system mesh face_indices with
    | None => None
    | Some sys =>
      match lscm_solve sys with
      | None => None
      | Some x => Some (normalize_uvs_to_unit_square (extract_uvs (ls_n sys) x))
      end
    end
  | _, _ => None
  end.

(** Row [r] of the product of a sparse matrix and a vector. *)
Definition matvec (A : list (triplet D)) (x : list D) (r : nat) : D :=
  fold_right (fun it acc =>
                if t_row it =? r then (t_val it * nth (t_col it) x s_zero + acc)%sc else acc)
             s_zero A.

End LSCM.

(** The equation of the unknown [r] is [1 * x_r = b_r], and no other
    equation has the unknown: the matrix stores nothing in row [r] or
    column [r] but a coefficient 1 at [(r, r)]. *)
Definition unit_equation {D} {SD : Scalar D} (A : list (triplet D)) (r : nat) : Prop :=
  forall it, In it A -> t_row it = r \/ t_col it = r -> it = (r, r, s_one).

(** What [lscm_parameterize] takes from [SparseLU] for its pins.  Eigen
    is not among the sources; of a factorisation and a solve that
    report success, on a compressed matrix, this is what the pins need:
    an unknown with a unit equation comes out with the value of the
    right-hand side there (its pivot is 1, and nothing is eliminated
    from or substituted into its row).  A row and column that are empty
    make the matrix singular; the factorisation then reports no
    success. *)
Definition solves_unit_equations {D} {SD : Scalar D} {Factor : Type}
    (lu_compute : list (triplet D) -> option Factor)
    (lu_solve : Factor -> list D -> option (list D)) : Prop :=
  forall A b f x,
    compressed A -> lu_compute A = Some f -> lu_solve f b = Some x ->
    forall r, r < length b -> unit_equation A r ->
      nth r x s_zero = nth r b s_zero.

(** A mesh without vertices or triangles. *)
Definition empty_mesh : Mesh binary32 :=
  {| vertices := []; triangles := []; uvs := None |}.

(** A tetrahedron: closed, 4 faces, 6 edges. *)
Definition tetra_mesh : Mesh binary32 :=
  {| vertices := [(f32 0, f32 0, f32 0); (f32 1, f32 0, f32 0);
                  (f32 0, f32 1, f32 0); (f32 0, f32 0, f32 1)];
     triangles := [(0, 1, 2); (0, 3, 1); (1, 3, 2); (0, 2, 3)];
     uvs := None |}.

(** Two triangles of a square sharing the diagonal: open, 5 edges. *)
Definition quad_mesh : Mesh binary32 :=
  {| vertices := [(f32 0, f32 0, f32 0); (f32 1, f32 0, f32 0);
                  (f32 1, f32 1, f32 0); (f32 0, f32 1, f32 0)];
     triangles := [(0, 1, 2); (0, 2, 3)];
     uvs := None |}.

(** 21 triangles, each three times the vertex 0. *)
Definition collapsed_mesh : Mesh binary32 :=
  {| vertices := [(f32 0, f32 0, f32 0)];
     triangles := repeat (0, 0, 0) 21;
     uvs := None |}.

(** The topology [build_topology] returns for a mesh that is not null. *)
Definition topology_of {T} (mesh : Mesh T) : TopologyInfo :=
  match build_topology (Some mesh) with
  | Some topo => topo
  | None => {| num_edges := 0; edges := []; edge_faces := [] |}
  end.

(** Every edge has its first incident face. *)
Definition first_faces_recorded (topo : TopologyInfo) : Prop :=
  forall e, e < num_edges topo -> fst (faces_at topo e) <> (-1)%Z.

(** Both incident faces of edge [e] are present. *)
Definition interior_edge (topo : TopologyInfo) (e : nat) : Prop :=
  fst (faces_at topo e) <> (-1)%Z /\ snd (faces_at topo e) <> (-1)%Z.


(** The number of seams the specification states for a closed mesh with
    [F] faces and [c] candidates. *)
Definition stated_seam_count (F c : nat) : nat :=
  if F <=? 20 then c
  else if F <=? 70 then Nat.min 2 (Nat.max 1 (c / 3))
  else Nat.min 5 (Nat.max 1 (c / 14)).




(** One right triangle with legs 1. *)
Definition tri_mesh : Mesh binary32 :=
  {| vertices := [(f32 0, f32 0, f32 0); (f32 1, f32 0, f32 0); (f32 0, f32 1, f32 0)];
     triangles := [(0, 1, 2)];
     uvs := None |}.

(** Modelled from the spec: [vec3_length(vec3_sub(p, q))] of math_utils.h
    (not among the sources), the "3D Euclidean distance", in [float]. *)
Definition vec3_dist32 (p q : binary32 * binary32 * binary32) : binary32 :=
  let dx := SFsub 24 128 (fst (fst p)) (fst (fst q)) in
  let dy := SFsub 24 128 (snd (fst p)) (snd (fst q)) in
  let dz := SFsub 24 128 (snd p) (snd q) in
  SFsqrt 24 128
    (SFadd 24 128 (SFadd 24 128 (SFmul 24 128 dx dx) (SFmul 24 128 dy dy))
           (SFmul 24 128 dz dz)).

(** The matrix [A = M^T * M] of [tri_mesh], column by column: the rows of
    [M] are [sqrt(1/2) * (-1, -1, 0, 1, 1, 0)] and
    [sqrt(1/2) * (1, -1, -1, 0, 0, 1)]. *)
Definition tri_A : list (triplet R) :=
  [(0, 0, (1)%R); (1, 0, (0)%R); (2, 0, (- (1 / 2))%R); (3, 0, (- (1 / 2))%R); (4, 0, (- (1 / 2))%R); (5, 0, (1 / 2)%R);
   (0, 1, (0)%R); (1, 1, (1)%R); (2, 1, (1 / 2)%R); (3, 1, (- (1 / 2))%R); (4, 1, (- (1 / 2))%R); (5, 1, (- (1 / 2))%R);
   (0, 2, (- (1 / 2))%R); (1, 2, (1 / 2)%R); (2, 2, (1 / 2)%R); (3, 2, (0)%R); (4, 2, (0)%R); (5, 2, (- (1 / 2))%R);
   (0, 3, (- (1 / 2))%R); (1, 3, (- (1 / 2))%R); (2, 3, (0)%R); (3, 3, (1 / 2)%R); (4, 3, (1 / 2)%R); (5, 3, (0)%R);
   (0, 4, (- (1 / 2))%R); (1, 4, (- (1 / 2))%R); (2, 4, (0)%R); (3, 4, (1 / 2)%R); (4, 4, (1 / 2)%R); (5, 4, (0)%R);
   (0, 5, (1 / 2)%R); (1, 5, (- (1 / 2))%R); (2, 5, (- (1 / 2))%R); (3, 5, (0)%R); (4, 5, (0)%R); (5, 5, (1 / 2)%R)].

Definition tri_assemble (mesh : Mesh binary32) (face_indices : list nat)
    (g2l : list (nat * nat)) : list (triplet R) := tri_A.

(** The system of [tri_mesh]: vertices 1 and 2 are pinned. *)
Definition tri_system : lscm_system_t :=
  {| ls_n := 3; ls_local_to_global := [0; 1; 2]; ls_pin1 := 1; ls_pin2 := 2;
     ls_A_final := fst (constrain_system 3 tri_A 1 2);
     ls_b := snd (constrain_system 3 tri_A 1 2) |}.

Section PackingSpec.
Context {T : Type} {ST : Scalar T}.
Local Open Scope scalar_scope.




(** The updates [uvs[v] += offset] that lines 189-200 perform, in order. *)
Definition translations (islands : list (@Island T)) : list (nat * (T * T)) :=
  flat_map (fun isl =>
              if width isl =? s_zero then []
              else map (fun v => (v, (target_x isl - min_u isl, target_y isl - min_v isl)))
                       (vertex_indices isl))
           islands.

Definition apply_translation (uv : list (T * T)) (t : nat * (T * T)) : list (T * T) :=
  move_vertex (fst (snd t)) (snd (snd t)) uv (fst t).

(** The default of a read in the vector [islands]. *)
Definition d0 : @Island T := init_island 0.

(** What the shelf loop leaves of an island as it found it. *)
Definition island_core (isl : @Island T) : nat * list nat * (T * T) * (T * T * T * T) :=
  (id isl, vertex_indices isl, (width isl, height isl),
   (min_u isl, max_u isl, min_v isl, max_v isl)).

(** The bounding box of a list of vertices. *)
Definition bbox_of (uv : list (T * T)) (vs : list nat) : T * T * T * T :=
  fold_left bbox_step (map (uv_at uv) vs) bbox_init.

Definition island_bbox (isl : @Island T) : T * T * T * T :=
  (min_u isl, max_u isl, min_v isl, max_v isl).


End PackingSpec.


(* ================================================================== *)
(** ** Loop invariants *)

(** Faces without an island id. *)
Definition unlabelled (ids : list Z) : nat := count_occ Z.eq_dec ids (-1)%Z.

Section IslandInvariants.
Variable F : nat.
Variable adj : list (list nat).

(** [g] is in the adjacency list of [f]. *)
Definition nbr (f g : nat) : Prop := In g (nth f adj []).
Definition reach : nat -> nat -> Prop := clos_refl_trans nat nbr.

(** The state of the inner loop while the island [cur] grows from
    [start]: [ids1] is the array when the loop is entered, [K] the number
    of faces the queue can ever hold. *)
Record bfs_inv (cur : Z) (start : nat) (ids1 : list Z) (K : nat)
    (ids : list Z) (q : list nat) (head : nat) : Prop := {
  bi_len : length ids = F;
  bi_keep : forall f, nth f ids1 0%Z <> (-1)%Z -> nth f ids 0%Z = nth f ids1 0%Z;
  bi_new : forall f, nth f ids 0%Z <> nth f ids1 0%Z ->
             nth f ids 0%Z = cur /\ reach start f /\ f < F;
  bi_queue : forall v, In v q -> nth v ids 0%Z = cur /\ reach start v /\ v < F;
  bi_front : forall f, f < F -> nth f ids 0%Z = cur ->
             In f (skipn head q) \/ (forall g, nbr f g -> nth g ids 0%Z <> (-1)%Z);
  bi_count : unlabelled ids + length q = K;
  bi_head : head <= length q
}.

(** The state of the outer loop before [start_face = s]. *)
Record islands_inv (s : nat) (ids : list Z) (cur : Z) : Prop := {
  ii_len : length ids = F;
  ii_cur : (0 <= cur)%Z;
  ii_range : forall f, f < F -> nth f ids 0%Z = (-1)%Z \/ (0 <= nth f ids 0 < cur)%Z;
  ii_done : forall f, f < s -> f < F -> nth f ids 0%Z <> (-1)%Z;
  ii_closed : forall f g, f < F -> nth f ids 0%Z <> (-1)%Z -> nbr f g ->
              nth g ids 0%Z = nth f ids 0%Z;
  ii_conn : forall f g, f < F -> g < F -> nth f ids 0%Z <> (-1)%Z ->
            nth f ids 0%Z = nth g ids 0%Z -> reach f g
}.

End IslandInvariants.

(** What edge [e] contributes to the adjacency lists. *)
Definition edge_links (topo : TopologyInfo) (seam_set : list nat) (e f g : nat) : Prop :=
  ~ In e seam_set /\
  let (f0, f1) := faces_at topo e in
  (f0 <> -1 /\ f1 <> -1 /\
   ((Z.of_nat f = f0 /\ Z.of_nat g = f1) \/ (Z.of_nat f = f1 /\ Z.of_nat g = f0)))%Z.

(** Faces that the traversal of [detect_seams] has not reached. *)
Definition unvisited (visited : list bool) : nat := count_occ bool_dec visited false.

Section PackingInvariants.
Context {T : Type} {ST : Scalar T}.

(** The state of the loop over the faces (lines 105-128). *)
Record collect_inv (nv n : nat) (uv : list (T * T)) (st : list Z * list (@Island T)) : Prop := {
  ci_len_v : length (fst st) = nv;
  ci_len_i : length (snd st) = n;
  ci_id : forall i, i < n -> id (nth i (snd st) d0) = i;
  ci_count : forall i v, i < n -> v < nv ->
             count_occ Nat.eq_dec (vertex_indices (nth i (snd st) d0)) v =
             if (nth v (fst st) 0 =? Z.of_nat i)%Z then 1 else 0;
  ci_range : forall i v, i < n -> In v (vertex_indices (nth i (snd st) d0)) -> v < nv;
  ci_bbox : forall i, i < n ->
            island_bbox (nth i (snd st) d0) = bbox_of uv (vertex_indices (nth i (snd st) d0))
}.

End PackingInvariants.

(** [global_to_local] and [local_to_global] are inverse to each other
    on the vertices seen so far, which [local_to_global] lists once
    each. *)
Record local_map_inv (g2l : list (nat * nat)) (l2g : list nat) : Prop := {
  lm_nodup : NoDup l2g;
  lm_dom : forall v, In v l2g <-> int_map_find v g2l <> None;
  lm_inv : forall v k, int_map_find v g2l = Some k -> k < length l2g /\ nth k l2g 0 = v
}.

(** [A] stores a coefficient at position [(p, p)]. *)
Definition has_diagonal (A : list (triplet R)) (p : nat) : bool :=
  existsb (fun it => (t_row it =? p)%nat && (t_col it =? p)%nat) A.


(* ================================================================== *)
(** ** Vocabulary for the properties of the topology *)

(** [Edge::operator<] as a relation. *)
Definition Edge_less (x y : Edge) : Prop :=
  fst x < fst y \/ (fst x = fst y /\ snd x < snd y).

(** The sides of all triangles, each with its face, in the order in
    which the loops of [build_topology] meet them. *)
Definition sides_of (tris : list (nat * nat * nat)) : list (nat * (nat * nat)) :=
  flat_map (fun ft => map (pair (fst ft)) (tri_edges (snd ft)))
           (combine (seq 0 (length tris)) tris).

(** The faces of the sides in [done] that join the endpoints of [k], one
    entry per side. *)
Definition uses_in (done : list (nat * (nat * nat))) (k : Edge) : list nat :=
  map fst (filter (fun fab => Edge_eqb (mk_Edge (fst (snd fab)) (snd (snd fab))) k) done).

Definition edge_uses {T} (mesh : Mesh T) (k : Edge) : list nat :=
  uses_in (sides_of (triangles mesh)) k.

(** What [edge_map] holds for [k] once the sides in [done] are processed. *)
Definition recorded (done : list (nat * (nat * nat))) (k : Edge) : option EdgeInfo :=
  match uses_in done k with
  | [] => None
  | f :: fs =>
    Some {| face0 := Z.of_nat f;
            face1 := match fs with [] => (-1)%Z | _ :: _ => Z.of_nat (last fs 0) end |}
  end.


(** The state of the outer loop of [extract_islands] before
    [start_face = s], as far as the numbering goes: the faces below [s]
    are labelled, and each island [k] has a face whose predecessors all
    lie in lower islands. *)
Definition numbered (F s : nat) (ids : list Z) (cur : Z) : Prop :=
  length ids = F /\ (0 <= cur <= Z.of_nat s)%Z /\
  (forall f, f < s -> f < F -> nth f ids 0%Z <> (-1)%Z) /\
  (forall f, f < F -> nth f ids 0%Z = (-1)%Z \/ (0 <= nth f ids 0 < cur)%Z) /\
  (forall k, (0 <= k < cur)%Z ->
     exists f, f < s /\ f < F /\ nth f ids 0%Z = k /\
               forall g, g < f -> (0 <= nth g ids 0 < k)%Z).


(** A triangle fan closed around vertex 0: open, 3 interior edges. *)
Definition cone_mesh : Mesh binary32 :=
  {| vertices := [(f32 0, f32 0, f32 1); (f32 1, f32 0, f32 0);
                  (f32 0, f32 1, f32 0); (f32 0, f32 0, f32 0)];
     triangles := [(0, 1, 2); (0, 2, 3); (0, 3, 1)];
     uvs := None |}.

Section ForestInvariants.
Variable F : nat.
Variable topo : TopologyInfo.

(** Faces [f] and [g] lie on the two sides of an interior edge that is
    in [tree_edges]. *)
Definition tree_link (tree_edges : list nat) (f g : nat) : Prop :=
  exists e, In e tree_edges /\ e < num_edges topo /\ edge_links topo [] e f g.

Definition tree_conn (tree_edges : list nat) : nat -> nat -> Prop :=
  clos_refl_trans nat (tree_link tree_edges).

(** The state of the loop [while (!q.empty())] of [detect_seams] while
    the tree of [r] grows; [visited0] and [te0] are [visited] and
    [tree_edges] when the loop over [start_node] reaches [r]. *)
Record tree_inv (r : nat) (visited0 : list bool) (te0 : list nat)
    (visited : list bool) (q te : list nat) : Prop := {
  ti_len : length visited = F;
  ti_root : nth r visited true = true;
  ti_mono : forall f, nth f visited0 true = true -> nth f visited true = true;
  ti_te : forall e, In e te0 -> In e te;
  ti_queue : forall v, In v q -> nth v visited true = true /\ nth v visited0 true = false;
  ti_new : forall f, nth f visited true = true -> nth f visited0 true = false ->
           tree_conn te r f;
  ti_front : forall f, nth f visited true = true -> nth f visited0 true = false ->
             In f q \/ (forall g, face_adjacent topo [] f g -> nth g visited true = true)
}.

(** The state of the loop over [start_node] before [start_node = s]. *)
Record forest_inv (s : nat) (visited : list bool) (te : list nat) : Prop := {
  fi_len : length visited = F;
  fi_done : forall f, f < s -> nth f visited true = true;
  fi_closed : forall f g, f < F -> nth f visited true = true ->
              face_adjacent topo [] f g ->
              nth g visited true = true /\ tree_conn te f g
}.

End ForestInvariants.


(** The sides of the island's triangles, in the order in which
    [find_boundary_vertices] counts them, and the number of them that
    join the endpoints of [k]. *)
Definition island_sides {T} (mesh : Mesh T) (face_indices : list nat) : list (nat * nat) :=
  flat_map (fun f => tri_edges (nth f (triangles mesh) (0, 0, 0))) face_indices.

Definition count_in (done : list (nat * nat)) (k : Edge) : nat :=
  length (filter (fun ab => Edge_eqb (mk_Edge (fst ab) (snd ab)) k) done).

Definition side_count {T} (mesh : Mesh T) (face_indices : list nat) (k : Edge) : nat :=
  count_in (island_sides mesh face_indices) k.


(** The coefficient of a sparse matrix at position [(r, c)]: the sum of
    the values stored there. *)
Definition coef (A : list (triplet R)) (r c : nat) : R :=
  fold_right (fun it acc =>
                if (t_row it =? r) && (t_col it =? c) then (t_val it + acc)%R else acc)
             0%R A.

(** The value that [kvs] assigns to unknown [c], 0 when it assigns none. *)
Definition pinned_value (kvs : list (nat * R)) (c : nat) : R :=
  fold_right (fun iv acc => ((if fst iv =? c then snd iv else 0) + acc)%R) 0%R kvs.

(** What the pinned columns of row [r] contribute: the sum of
    [A(r, idx) * val] over the pinned unknowns. *)
Definition pinned_sum (A : list (triplet R)) (r : nat) (kvs : list (nat * R)) : R :=
  fold_right (fun iv acc => (coef A r (fst iv) * snd iv + acc)%R) 0%R kvs.


(** A stand-in for Eigen and math_utils.h on which [lscm_parameterize]
    over the reals can be run: all distances 0, an empty matrix, a solver
    that returns the right-hand side, a conversion that cuts to [-1, 1]. *)
Definition flat_dist (p q : R * R * R) : R := 0%R.
Definition empty_assemble (mesh : Mesh R) (face_indices : list nat)
    (g2l : list (nat * nat)) : list (triplet R) := [].
Definition trivial_compute (A : list (triplet R)) : option unit := Some tt.
Definition trivial_solve (f : unit) (b : list R) : option (list R) := Some b.
Definition cut_to_unit (x : R) : R :=
  if Rltb x (-1)%R then 0%R else if Rltb 1%R x then 0%R else x.


(* ================================================================== *)
(** ** unwrap.cpp: copy_island_uvs and unwrap_mesh *)

(** Lines 219-223: corner [v] enters [island_global_to_local] with the
    size of the map as its number.  A key is inserted only when it is
    absent, so the size of the map is the length of the association
    list. *)
Definition number_vertex (m : list (nat * nat)) (v : nat) : list (nat * nat) :=
  match int_map_find v m with
  | None => (v, length m) :: m
  | Some _ => m
  end.

(** Lines 215-225. *)
Definition island_global_to_local {T} (mesh : Mesh T) (island_faces : list nat)
    : list (nat * nat) :=
  fold_left (fun m f => fold_left number_vertex (face_verts mesh f) m) island_faces [].

(** Lines 192-197: the faces of island [island_id], in ascending order. *)
Definition island_faces_of (F : nat) (face_island_ids : list Z) (island_id : nat)
    : list nat :=
  filter (fun f => (nth f face_island_ids 0 =? Z.of_nat island_id)%Z) (seq 0 F).

(** Line 201, [island_faces.size() < params->min_island_faces], compares
    a [size_t] with an [int]; the [int] is converted to [size_t] first,
    which wraps a negative number around.  [size_bits] is the width of
    [size_t]. *)
Definition to_size_t (size_bits : Z) (x : Z) : Z := (x mod 2 ^ size_bits)%Z.

Definition too_small (size_bits : Z) (size : nat) (min_island_faces : Z) : bool :=
  (Z.of_nat size <? to_size_t size_bits min_island_faces)%Z.

(** Every corner of every triangle is a vertex of the mesh. *)
Definition corners_in_range {T} (mesh : Mesh T) : bool :=
  forallb (fun t => forallb (fun v => v <? num_vertices mesh) (tri_verts t))
          (triangles mesh).

Section Unwrap.
Context {T : Type} {ST : Scalar T} {D : Type} {SD : Scalar D}.


(** What unwrap.cpp takes from elsewhere: the parameters of
    [lscm_parameterize], the two [std::sort]s of [detect_seams] and
    [pack_uv_islands], and [allocate_mesh_copy] of mesh.h, which is not
    among the sources. *)
Variable vec3_dist : T * T * T -> T * T * T -> T.
Variable assemble : Mesh T -> list nat -> list (nat * nat) -> list (triplet D).
Variable Factor : Type.
Variable lu_compute : list (triplet D) -> option Factor.
Variable lu_solve : Factor -> list D -> option (list D).
Variable d2f : D -> T.
Variable seam_sort : list (nat * nat) -> list (nat * nat).
Variable island_sort : list (@Island T) -> list (@Island T).
Variable allocate_mesh_copy : Mesh T -> Mesh T.

(** Lines 137-143: corner [global_v] of a face of the island. *)
Definition copy_vertex (island_uvs : list (T * T)) (global_to_local : list (nat * nat))
    (uv : list (T * T)) (global_v : nat) : list (T * T) :=
  match int_map_find global_v global_to_local with
  | Some local_v => upd uv global_v (uv_at island_uvs local_v)
  | None => uv
  end.

(** Lines 119-146, on the arrays [result->triangles] and [result->uvs]:
    the UV array afterwards. *)
Definition copy_island_uvs (result_triangles : list (nat * nat * nat))
    (result_uvs : list (T * T)) (island_uvs : list (T * T))
    (face_indices : list nat) (global_to_local : list (nat * nat)) : list (T * T) :=
  fold_left (fun uv global_f =>
               fold_left (copy_vertex island_uvs global_to_local)
                         (tri_verts (nth global_f result_triangles (0, 0, 0))) uv)
            face_indices result_uvs.

(** Lines 188-235: one iteration of the loop over [island_id]. *)
Definition unwrap_island (size_bits : Z) (mesh result : Mesh T)
    (face_island_ids : list Z) (min_faces : Z)
    (uv : list (T * T)) (island_id : nat) : list (T * T) :=
  let island_faces := island_faces_of (num_triangles mesh) face_island_ids island_id in
  if too_small size_bits (length island_faces) min_faces then uv
  else
    match lscm_parameterize vec3_dist assemble lu_compute lu_solve d2f
                            (Some mesh) (Some island_faces) with
    | Some island_uvs =>
      copy_island_uvs (triangles result) uv island_uvs island_faces
                      (island_global_to_local mesh island_faces)
    | None => uv
    end.

(** The UVs that the loop has for island [island_id]: [None] when the
    island is skipped or [lscm_parameterize] returns the null pointer. *)
Definition island_uvs_of (size_bits : Z) (mesh : Mesh T)
    (face_island_ids : list Z) (min_faces : Z) (island_id : nat) : option (list (T * T)) :=
  let island_faces := island_faces_of (num_triangles mesh) face_island_ids island_id in
  if too_small size_bits (length island_faces) min_faces then None
  else lscm_parameterize vec3_dist assemble lu_compute lu_solve d2f
                         (Some mesh) (Some island_faces).

(** Lines 186-235: the array of [calloc], then the loop. *)
Definition unwrap_islands (size_bits : Z) (mesh result : Mesh T)
    (face_island_ids : list Z) (num_islands : nat) (min_faces : Z) : list (T * T) :=
  fold_left (unwrap_island size_bits mesh result face_island_ids min_faces)
            (seq 0 num_islands)
            (repeat (s_zero, s_zero) (num_vertices mesh)).



End Unwrap.

(** Island [island_id] has a face with corner [v]. *)
Definition touches {T} (mesh : Mesh T) (face_island_ids : list Z)
    (island_id v : nat) : Prop :=
  exists f, In f (island_faces_of (num_triangles mesh) face_island_ids island_id) /\
            In v (face_verts mesh f).

(** Two triangles that meet in vertex 2, one island each. *)
Definition bowtie_mesh : Mesh R :=
  {| vertices := repeat (0, 0, 0)%R 6;
     triangles := [(0, 1, 2); (2, 3, 4)];
     uvs := None |}.


(* ================================================================== *)
(** ** Arrays that span the unit square in [float] *)






(* ================================================================== *)
(** * Properties *)

(* ------------------------------------------------------------------ *)
(** ** Arrays *)

Lemma upd_length {A} (l : list A) i x : length (upd l i x) = length l.
Proof.
  revert i; induction l as [|h t IH]; intros [|i]; simpl; auto.
Qed.

Lemma nth_upd_eq {A} (l : list A) i x d : i < length l -> nth i (upd l i x) d = x.
Proof.
  revert i; induction l as [|h t IH]; intros [|i] Hi; simpl in *; try lia; auto.
  apply IH; lia.
Qed.

Lemma nth_upd_neq {A} (l : list A) i j x d : i <> j -> nth j (upd l i x) d = nth j l d.
Proof.
  revert i j; induction l as [|h t IH]; intros [|i] [|j] Hij; simpl; auto; try lia.
Qed.

Lemma nth_upd {A} (l : list A) i j x d :
  nth j (upd l i x) d = if (i =? j) && (i <? length l) then x else nth j l d.
Proof.
  destruct (Nat.eqb_spec i j) as [->|Hne]; simpl.
  - destruct (Nat.ltb_spec j (length l)) as [Hlt|Hge].
    + now apply nth_upd_eq.
    + rewrite !nth_overflow; auto; rewrite ?upd_length; lia.
  - now apply nth_upd_neq.
Qed.

Lemma upd_out_of_range {A} (l : list A) i x : length l <= i -> upd l i x = l.
Proof.
  revert i; induction l as [|h t IH]; intros [|i] Hi; simpl in *; auto; try lia.
  f_equal; apply IH; lia.
Qed.

Lemma push_back_length {A} (v : list (list A)) i x :
  length (push_back v i x) = length v.
Proof. apply upd_length. Qed.

Lemma in_push_back {A} (v : list (list A)) i x j y :
  In y (nth j (push_back v i x) []) <->
  In y (nth j v []) \/ (j = i /\ y = x /\ i < length v).
Proof.
  unfold push_back. rewrite nth_upd.
  destruct (Nat.eqb_spec i j) as [->|Hne]; simpl.
  - destruct (Nat.ltb_spec j (length v)) as [Hlt|Hge].
    + rewrite in_app_iff; simpl. intuition (subst; auto).
    + intuition lia.
  - intuition congruence.
Qed.

Lemma set_mem_true x s : set_mem x s = true <-> In x s.
Proof.
  unfold set_mem. rewrite existsb_exists. split.
  - intros (y & Hy & E). apply Nat.eqb_eq in E. now subst.
  - intros H. exists x. split; auto. apply Nat.eqb_refl.
Qed.

Lemma in_set_insert x y s : In y (set_insert x s) <-> y = x \/ In y s.
Proof.
  induction s as [|z t IH]; simpl.
  - intuition.
  - destruct (Nat.ltb_spec x z).
    + simpl. intuition.
    + destruct (Nat.eqb_spec x z) as [->|Hne]; simpl; intuition.
Qed.

Lemma in_set_of_list x l : In x (set_of_list l) <-> In x l.
Proof.
  unfold set_of_list.
  assert (G : forall s, In x (fold_left (fun s x => set_insert x s) l s) <-> In x l \/ In x s).
  { induction l as [|a l IH]; intros s; simpl.
    - intuition.
    - rewrite IH, in_set_insert. intuition. }
  rewrite G. simpl. intuition.
Qed.

(* ------------------------------------------------------------------ *)
(** ** Topology construction *)

(** C8, as the code has it: an empty mesh that is not null gets a
    topology, with no edge. *)
Lemma build_topology_empty_mesh_counterexample :
  build_topology (Some empty_mesh)
    = Some {| num_edges := 0; edges := []; edge_faces := [] |}
  /\ build_topology (Some empty_mesh) <> None.
Proof. split; [reflexivity|discriminate]. Qed.

(** C8, amended.  A null mesh gives no topology; every mesh that is not
    null gives one, without edges when the mesh has no triangle. *)
Theorem build_topology_null_only :
  forall T : Type,
    build_topology (@None (Mesh T)) = None /\
    forall mesh : Mesh T,
      exists topo, build_topology (Some mesh) = Some topo /\
                   (num_triangles mesh = 0 -> num_edges topo = 0).
Proof.
  intros T. split; [reflexivity|].
  intros mesh. eexists. split; [reflexivity|].
  intros H. simpl. unfold build_edge_map. rewrite H.
  reflexivity.
Qed.

Lemma map_find_in {V} (e : Edge) (m : edge_map V) i :
  map_find e m = Some i -> exists k, In (k, i) m.
Proof.
  induction m as [|[k j] t IH]; simpl; [discriminate|].
  destruct (Edge_eqb e k).
  - intros E; inversion E; subst. exists k. now left.
  - intros E. destruct (IH E) as (k' & H). exists k'. now right.
Qed.

Lemma in_map_set {V} (e : Edge) (info : V) (m : edge_map V) k i :
  In (k, i) (map_set e info m) -> i = info \/ In (k, i) m.
Proof.
  induction m as [|[k' j] t IH]; simpl.
  - intros [E|[]]. inversion E; auto.
  - destruct (Edge_lt e k').
    + intros [E|H]; [inversion E; auto|auto].
    + destruct (Edge_eqb e k').
      * intros [E|H]; [inversion E; auto|auto].
      * intros [E|H]; [auto|]. destruct (IH H); auto.
Qed.

Lemma build_edge_map_faces {T} (mesh : Mesh T) k i :
  In (k, i) (build_edge_map mesh) ->
  (0 <= face0 i < Z.of_nat (num_triangles mesh))%Z /\
  (face1 i = (-1)%Z \/ (0 <= face1 i < Z.of_nat (num_triangles mesh))%Z).
Proof.
  unfold build_edge_map.
  set (F := num_triangles mesh).
  set (P := fun m : edge_map EdgeInfo => forall k i, In (k, i) m ->
              (0 <= face0 i < Z.of_nat F)%Z /\
              (face1 i = (-1)%Z \/ (0 <= face1 i < Z.of_nat F)%Z)).
  assert (Hedge : forall f ab m, f < F -> P m -> P (add_edge f m ab)).
  { intros f ab m Hf Hm k' i' H. unfold add_edge in H.
    destruct (map_find (mk_Edge (fst ab) (snd ab)) m) as [info|] eqn:E.
    - apply in_map_set in H. destruct H as [->|H]; [|eauto]. simpl.
      destruct (map_find_in _ _ E) as (k0 & H0).
      destruct (Hm _ _ H0) as (H1 & _). split; [exact H1|lia].
    - apply in_map_set in H. destruct H as [->|H]; [|eauto]. simpl. lia. }
  assert (Hface : forall ft m, fst ft < F -> P m -> P (add_face m ft)).
  { intros ft m Hf. unfold add_face. generalize (tri_edges (snd ft)).
    intros l; revert m. induction l as [|ab l IH]; intros m Hm; simpl; auto. }
  assert (Hall : forall l m, (forall ft, In ft l -> fst ft < F) -> P m ->
                   P (fold_left add_face l m)).
  { induction l as [|ft l IH]; intros m Hl Hm; simpl; auto.
    apply IH; [intros; apply Hl; now right|].
    apply Hface; [apply Hl; now left|exact Hm]. }
  intros H. eapply (Hall _ [] _ (fun _ _ F => match F with end)); eauto.
  Unshelve.
  intros [f t] Hin. apply in_combine_l in Hin. apply in_seq in Hin. simpl. lia.
Qed.

(** A topology built by [build_topology] records the first face of every
    edge. *)
Lemma build_topology_first_faces {T} (mesh : Mesh T) :
  first_faces_recorded (topology_of mesh).
Proof.
  unfold first_faces_recorded, topology_of, faces_at. simpl.
  intros e He.
  set (m := build_edge_map mesh) in *.
  set (g := fun kv : Edge * EdgeInfo => (face0 (snd kv), face1 (snd kv))).
  change ((-1)%Z, (-1)%Z) with (g ((0, 0), {| face0 := -1; face1 := -1 |})).
  rewrite map_nth. unfold g; simpl.
  pose proof (@nth_In _ e m ((0, 0), {| face0 := -1; face1 := -1 |}) He) as Hin.
  destruct (nth e m ((0, 0), {| face0 := -1; face1 := -1 |})) as [k i].
  apply build_edge_map_faces in Hin. simpl. lia.
Qed.

(** Its incident faces are faces of the mesh. *)
Lemma build_topology_faces_in_range {T} (mesh : Mesh T) :
  faces_in_range (num_triangles mesh) (topology_of mesh).
Proof.
  unfold faces_in_range, topology_of, faces_at. simpl.
  intros e He.
  set (m := build_edge_map mesh) in *.
  set (g := fun kv : Edge * EdgeInfo => (face0 (snd kv), face1 (snd kv))).
  change ((-1)%Z, (-1)%Z) with (g ((0, 0), {| face0 := -1; face1 := -1 |})).
  rewrite map_nth. unfold g; simpl.
  pose proof (@nth_In _ e m ((0, 0), {| face0 := -1; face1 := -1 |}) He) as Hin.
  destruct (nth e m ((0, 0), {| face0 := -1; face1 := -1 |})) as [k i].
  apply build_edge_map_faces in Hin. simpl. lia.
Qed.

(* ------------------------------------------------------------------ *)
(** ** Island extraction: connected components by breadth-first search *)


Lemma unlabelled_upd ids v cur :
  nth v ids 0%Z = (-1)%Z -> cur <> (-1)%Z ->
  unlabelled (upd ids v cur) + 1 = unlabelled ids.
Proof.
  unfold unlabelled. revert v.
  induction ids as [|h t IH]; intros [|v] Hv Hc; simpl in *; try lia.
  - subst h. destruct (Z.eq_dec cur (-1)); [contradiction|].
    destruct (Z.eq_dec (-1) (-1)); lia.
  - specialize (IH v Hv Hc). destruct (Z.eq_dec h (-1)); lia.
Qed.

Lemma unlabelled_le ids : unlabelled ids <= length ids.
Proof. apply count_occ_bound. Qed.

Lemma nth_unlabelled_in_range (ids : list Z) v :
  nth v ids 0%Z = (-1)%Z -> v < length ids.
Proof.
  intros H. destruct (Nat.lt_ge_cases v (length ids)) as [|Hge]; auto.
  rewrite nth_overflow in H by lia. discriminate.
Qed.

Lemma visit_fold_spec cur ns : cur <> (-1)%Z ->
  forall ids q ids' q',
  fold_left (visit cur) ns (ids, q) = (ids', q') ->
  length ids' = length ids /\
  (forall f, nth f ids 0%Z <> (-1)%Z -> nth f ids' 0%Z = nth f ids 0%Z) /\
  (forall v, In v ns -> nth v ids' 0%Z <> (-1)%Z) /\
  exists new, q' = q ++ new /\
    (forall v, In v new ->
       nth v ids 0%Z = (-1)%Z /\ nth v ids' 0%Z = cur /\ In v ns) /\
    (forall f, nth f ids' 0%Z <> nth f ids 0%Z -> In f new) /\
    unlabelled ids' + length new = unlabelled ids.
Proof.
  intros Hc. induction ns as [|v ns IH]; intros ids q ids' q' E; simpl in E.
  - inversion E; subst.
    split; [reflexivity|]. split; [auto|]. split; [intros v []|].
    exists []. rewrite app_nil_r.
    split; [reflexivity|]. split; [intros v []|]. split; [congruence|simpl; lia].
  - destruct (Z.eqb_spec (nth v ids 0%Z) (-1)) as [Hv|Hv].
    + pose proof (nth_unlabelled_in_range ids v Hv) as Hlt.
      apply IH in E. destruct E as (L & P & N & new & Eq & Hnew & Hch & Cnt).
      rewrite upd_length in L.
      assert (Pv : nth v ids' 0%Z = cur).
      { rewrite P; rewrite nth_upd_eq; auto. }
      assert (Pold : forall f, nth f ids 0%Z <> (-1)%Z -> nth f ids' 0%Z = nth f ids 0%Z).
      { intros f Hf. assert (v <> f) by (intros ->; contradiction).
        rewrite P; rewrite nth_upd_neq; auto. }
      split; [exact L|]. split; [exact Pold|]. split.
      { intros w [<-|Hw]; auto. congruence. }
      exists (v :: new). rewrite Eq, <- app_assoc. simpl.
      split; [reflexivity|]. split; [|split].
      * intros w [<-|Hw]; [auto|].
        destruct (Hnew w Hw) as (Hw1 & Hw2 & Hw3).
        split; [|auto].
        destruct (Nat.eq_dec v w) as [<-|Hne]; auto.
        rewrite nth_upd_neq in Hw1; auto.
      * intros f Hf. destruct (Nat.eq_dec v f) as [<-|Hne]; auto.
        right. apply Hch. rewrite nth_upd_neq; auto.
      * rewrite <- (unlabelled_upd ids v Hv Hc). lia.
    + apply IH in E. destruct E as (L & P & N & new & Eq & Hnew & Hch & Cnt).
      split; [exact L|]. split; [exact P|]. split.
      { intros w [<-|Hw]; auto. rewrite P; auto. }
      exists new. split; [exact Eq|]. split; [|split; auto].
      intros w Hw. destruct (Hnew w Hw) as (Hw1 & Hw2 & Hw3). simpl; auto.
Qed.

Lemma skipn_cons_nth {A} (l : list A) n d :
  n < length l -> skipn n l = nth n l d :: skipn (S n) l.
Proof.
  revert n; induction l as [|h t IH]; intros [|n] Hn; simpl in *; try lia; auto.
  apply IH; lia.
Qed.

Section IslandBFS.
Variable F : nat.
Variable adj : list (list nat).
Hypothesis adj_bound : forall f g, In g (nth f adj []) -> g < F.
Hypothesis adj_sym : forall f g, In g (nth f adj []) -> In f (nth g adj []).


Lemma reach_sym f g : reach adj f g -> reach adj g f.
Proof.
  induction 1 as [x y H| |x y z _ IH1 _ IH2].
  - apply rt_step. now apply adj_sym.
  - apply rt_refl.
  - eapply rt_trans; eauto.
Qed.


Lemma bfs_loop_inv cur start ids1 K : cur <> (-1)%Z ->
  forall fuel ids q head ids' q' head',
  bfs_inv F adj cur start ids1 K ids q head ->
  bfs_loop fuel adj cur ids q head = (ids', q', head') ->
  bfs_inv F adj cur start ids1 K ids' q' head' /\
  (length q' <= head' \/ head' = head + fuel).
Proof.
  intros Hc. induction fuel as [|fuel IH]; intros ids q head ids' q' head' I E; simpl in E.
  - inversion E; subst. split; [assumption|right; lia].
  - destruct (Nat.ltb_spec head (length q)) as [Hlt|Hge].
    2:{ inversion E; subst. split; [assumption|left; lia]. }
    set (u := nth head q 0) in *.
    destruct (fold_left (visit cur) (nth u adj []) (ids, q)) as [ids2 q2] eqn:V.
    apply visit_fold_spec in V; [|exact Hc].
    destruct V as (L & P & N & new & Eq & Hnew & Hch & Cnt).
    destruct I as [I1 I2 I3 I4 I5 I6 I7].
    assert (Hu : In u q) by (apply nth_In; auto).
    destruct (I4 u Hu) as (Hu1 & Hu2 & Hu3).
    assert (Hfresh : forall f, In f new ->
              nth f ids2 0%Z = cur /\ reach adj start f /\ f < F).
    { intros f Hf. destruct (Hnew f Hf) as (_ & Hf2 & Hf3).
      split; [auto|]. split; [|eapply adj_bound; eauto].
      eapply rt_trans; [exact Hu2|]. apply rt_step. exact Hf3. }
    apply IH in E; [destruct E as (I' & D); split; [exact I'|lia]|].
    constructor.
    + congruence.
    + intros f Hf. rewrite P; auto. rewrite I2; auto.
    + intros f Hf. destruct (Z.eq_dec (nth f ids2 0%Z) (nth f ids 0%Z)) as [e|n].
      * rewrite e in *. auto.
      * auto.
    + intros v Hv. subst q2. apply in_app_or in Hv. destruct Hv as [Hv|Hv]; auto.
      destruct (I4 v Hv) as (Hv1 & Hv2 & Hv3).
      rewrite P; [auto|]. congruence.
    + intros f HfF Hf.
      assert (Hsk : skipn (S head) q2 = skipn (S head) q ++ new).
      { subst q2. rewrite skipn_app.
        replace (S head - length q) with 0 by lia. reflexivity. }
      destruct (Z.eq_dec (nth f ids2 0%Z) (nth f ids 0%Z)) as [e|n].
      * rewrite e in Hf. destruct (I5 f HfF Hf) as [Hin|Hcl].
        -- rewrite (skipn_cons_nth q 0 Hlt) in Hin. fold u in Hin.
           destruct Hin as [<-|Hin].
           ++ right. intros g Hg. apply N. exact Hg.
           ++ left. rewrite Hsk. apply in_or_app. now left.
        -- right. intros g Hg. rewrite P; auto.
      * left. rewrite Hsk. apply in_or_app. right. now apply Hch.
    + subst q2. rewrite length_app. lia.
    + subst q2. rewrite length_app. lia.
Qed.


Lemma island_step_inv s ids cur ids' cur' :
  s < F -> islands_inv F adj s ids cur ->
  island_step F adj (ids, cur) s = (ids', cur') ->
  islands_inv F adj (S s) ids' cur'.
Proof.
  intros HsF [J1 J2 J3 J4 J5 J6] E. unfold island_step in E.
  destruct (Z.eqb_spec (nth s ids 0%Z) (-1)) as [Hs|Hs]; simpl in E.
  2:{ inversion E; subst. constructor; auto.
      intros f Hf HfF. destruct (Nat.eq_dec f s) as [->|]; auto. apply J4; lia. }
  assert (Hc : cur <> (-1)%Z) by lia.
  set (ids1 := upd ids s cur) in *.
  destruct (bfs_loop F adj cur ids1 [s] 0) as [[ids2 q2] head2] eqn:B.
  inversion E; subst ids' cur'; clear E.
  assert (B1 : forall f, nth f ids1 0%Z = if Nat.eq_dec f s then cur else nth f ids 0%Z).
  { intros f. unfold ids1. destruct (Nat.eq_dec f s) as [->|Hne].
    - apply nth_upd_eq. lia.
    - apply nth_upd_neq. auto. }
  assert (Bcur : forall f, f < F -> nth f ids1 0%Z = cur -> f = s).
  { intros f HfF Hf. rewrite B1 in Hf. destruct (Nat.eq_dec f s); auto.
    destruct (J3 f HfF); lia. }
  assert (I0 : bfs_inv F adj cur s ids1 (unlabelled ids1 + 1) ids1 [s] 0).
  { constructor; auto.
    - unfold ids1. rewrite upd_length. exact J1.
    - intros f Hf. congruence.
    - intros v [<-|[]]. rewrite B1. destruct (Nat.eq_dec s s); [|congruence].
      split; [reflexivity|]. split; [apply rt_refl|exact HsF].
    - intros f HfF Hf. left. simpl. left. symmetry. now apply Bcur.
    - simpl. lia. }
  destruct (bfs_loop_inv Hc F I0 B) as ([I1 I2 I3 I4 I5 I6 I7] & D).
  assert (Hdone : length q2 <= head2).
  { destruct D as [D|D]; [exact D|].
    pose proof (unlabelled_upd ids s Hs Hc) as U. fold ids1 in U.
    pose proof (unlabelled_le ids). lia. }
  assert (Hclosed : forall f g, f < F -> nth f ids2 0%Z = cur -> nbr adj f g ->
                      nth g ids2 0%Z <> (-1)%Z).
  { intros f g HfF Hf Hg. destruct (I5 f HfF Hf) as [Hin|Hcl]; [|now apply Hcl].
    rewrite skipn_all2 in Hin by exact Hdone. destruct Hin. }
  assert (A : forall f, nth f ids2 0%Z = nth f ids1 0%Z \/ nth f ids2 0%Z = cur).
  { intros f. destruct (Z.eq_dec (nth f ids2 0%Z) (nth f ids1 0%Z)); auto.
    right. now apply I3. }
  assert (C : forall f, f < F -> nth f ids2 0%Z = cur -> reach adj s f).
  { intros f HfF Hf. destruct (Z.eq_dec (nth f ids2 0%Z) (nth f ids1 0%Z)) as [e|n].
    - rewrite (Bcur f HfF); [apply rt_refl|congruence].
    - now apply I3. }
  assert (Old : forall f, f < F -> nth f ids2 0%Z <> cur ->
                  f <> s /\ nth f ids2 0%Z = nth f ids 0%Z).
  { intros f HfF Hf. destruct (A f) as [e|e]; [|contradiction].
    rewrite B1 in e. destruct (Nat.eq_dec f s); [contradiction|auto]. }
  assert (Keep : forall f, nth f ids 0%Z <> (-1)%Z -> nth f ids2 0%Z = nth f ids 0%Z).
  { intros f Hf. assert (f <> s) by congruence.
    rewrite I2; rewrite B1; destruct (Nat.eq_dec f s); auto; contradiction. }
  constructor.
  - exact I1.
  - lia.
  - intros f HfF. destruct (A f) as [e|e]; rewrite e; [|lia].
    rewrite B1. destruct (Nat.eq_dec f s); [lia|]. destruct (J3 f HfF); lia.
  - intros f Hf HfF. destruct (Nat.eq_dec f s) as [->|Hne].
    + rewrite I2; rewrite B1; destruct (Nat.eq_dec s s); congruence.
    + rewrite Keep; apply J4; auto; lia.
  - intros f g HfF Hf Hg.
    assert (HgF : g < F) by (eapply adj_bound; eauto).
    destruct (Z.eq_dec (nth f ids2 0%Z) cur) as [ef|nf].
    + pose proof (Hclosed f g HfF ef Hg) as Hg2.
      destruct (Z.eq_dec (nth g ids2 0%Z) cur) as [eg|ng]; [congruence|].
      exfalso. destruct (Old g HgF ng) as (Hgs & Hgo).
      assert (Hgl : nth g ids 0%Z <> (-1)%Z) by congruence.
      pose proof (J5 g f HgF Hgl (adj_sym _ _ Hg)) as Hfg.
      assert (Hfl : nth f ids 0%Z <> (-1)%Z) by congruence.
      rewrite (Keep f Hfl) in ef. destruct (J3 f HfF); lia.
    + destruct (Old f HfF nf) as (Hfs & Hfo).
      assert (Hfl : nth f ids 0%Z <> (-1)%Z) by congruence.
      pose proof (J5 f g HfF Hfl Hg) as Hfg.
      rewrite Keep; congruence.
  - intros f g HfF HgF Hf Hfg.
    destruct (Z.eq_dec (nth f ids2 0%Z) cur) as [ef|nf].
    + eapply rt_trans; [apply reach_sym, C; auto|apply C; auto; congruence].
    + destruct (Old f HfF nf) as (Hfs & Hfo).
      assert (ng : nth g ids2 0%Z <> cur) by congruence.
      destruct (Old g HgF ng) as (Hgs & Hgo).
      apply J6; auto; congruence.
Qed.

Lemma islands_fold_inv n : forall s ids cur ids' cur',
  s + n <= F -> islands_inv F adj s ids cur ->
  fold_left (island_step F adj) (seq s n) (ids, cur) = (ids', cur') ->
  islands_inv F adj (s + n) ids' cur'.
Proof.
  induction n as [|n IH]; intros s ids cur ids' cur' Hle I E.
  - simpl in E. inversion E; subst. now rewrite Nat.add_0_r.
  - cbn [seq fold_left] in E.
    destruct (island_step F adj (ids, cur) s) as [ids1 cur1] eqn:S1.
    apply island_step_inv in S1; [|lia|exact I].
    replace (s + S n) with (S s + n) by lia.
    apply (IH (S s) ids1 cur1 ids' cur'); [lia|exact S1|exact E].
Qed.

Lemma islands_inv_init : islands_inv F adj 0 (repeat (-1)%Z F) 0.
Proof.
  constructor.
  - apply repeat_length.
  - lia.
  - intros f HfF. left. apply nth_repeat_lt; auto.
  - intros f Hf. lia.
  - intros f g HfF Hf. rewrite nth_repeat_lt in Hf by exact HfF. congruence.
  - intros f g HfF HgF Hf. rewrite nth_repeat_lt in Hf by exact HfF. congruence.
Qed.

Lemma islands_components ids n :
  fold_left (island_step F adj) (seq 0 F) (repeat (-1)%Z F, 0%Z) = (ids, n) ->
  length ids = F /\
  (forall f, f < F -> (0 <= nth f ids 0 < n)%Z) /\
  (forall f g, f < F -> g < F -> (nth f ids 0%Z = nth g ids 0%Z <-> reach adj f g)).
Proof.
  intros E. apply islands_fold_inv in E; [|lia|apply islands_inv_init].
  destruct E as [J1 J2 J3 J4 J5 J6]. simpl in J4.
  split; [exact J1|]. split.
  - intros f HfF. destruct (J3 f HfF) as [e|]; [|assumption].
    exfalso. now apply (J4 f).
  - intros f g HfF HgF. split.
    + apply J6; auto.
    + intros R. clear HgF. induction R as [x y H| |x y z R1 IH1 R2 IH2].
      * symmetry. apply J5; auto.
      * reflexivity.
      * rewrite IH1 by exact HfF. apply IH2.
        clear -R1 HfF adj_bound.
        induction R1 as [x y H| |x y z _ IH1 _ IH2]; eauto.
Qed.

End IslandBFS.

Lemma clos_refl_trans_ext {A} (R S : A -> A -> Prop) :
  (forall x y, R x y -> S x y) ->
  forall x y, clos_refl_trans A R x y -> clos_refl_trans A S x y.
Proof.
  intros H x y C. induction C as [x y r| |x y z _ IH1 _ IH2].
  - apply rt_step; auto.
  - apply rt_refl.
  - eapply rt_trans; eauto.
Qed.


Lemma adj_fold_spec F topo seam_set es :
  faces_in_range F topo -> (forall e, In e es -> e < num_edges topo) ->
  forall adj0, length adj0 = F ->
  length (fold_left (adj_step topo seam_set) es adj0) = F /\
  forall f g,
    In g (nth f (fold_left (adj_step topo seam_set) es adj0) []) <->
    In g (nth f adj0 []) \/ exists e, In e es /\ edge_links topo seam_set e f g.
Proof.
  intros R. induction es as [|e es IH]; intros Hes adj0 L; simpl.
  - split; [exact L|]. intros f g. split; [auto|].
    intros [H|(e & [] & _)]; exact H.
  - assert (He : e < num_edges topo) by (apply Hes; now left).
    assert (Hes' : forall e', In e' es -> e' < num_edges topo)
      by (intros; apply Hes; now right).
    assert (S1 : length (adj_step topo seam_set adj0 e) = F /\
                 forall f g, In g (nth f (adj_step topo seam_set adj0 e) []) <->
                             In g (nth f adj0 []) \/ edge_links topo seam_set e f g).
    { unfold adj_step, edge_links. specialize (R e He).
      destruct (set_mem e seam_set) eqn:M.
      - apply set_mem_true in M. split; [exact L|]. intros f g. tauto.
      - assert (M' : ~ In e seam_set).
        { intros H. apply set_mem_true in H. congruence. }
        destruct (faces_at topo e) as [f0 f1].
        destruct (Z.eqb_spec f0 (-1)) as [E0|E0]; simpl.
        { split; [exact L|]. intros f g. tauto. }
        destruct (Z.eqb_spec f1 (-1)) as [E1|E1]; simpl.
        { split; [exact L|]. intros f g. tauto. }
        split; [now rewrite !push_back_length|].
        intros f g. rewrite !in_push_back, push_back_length, L.
        destruct R as ([|R0] & [|R1]); try contradiction.
        split.
        + intros [[H|(-> & -> & _)]|(-> & -> & _)]; [now left| |];
            right; (split; [exact M'|]); (split; [exact E0|]); (split; [exact E1|]);
            [left|right]; lia.
        + intros [H|(_ & _ & _ & [(Hf & Hg)|(Hf & Hg)])]; [now left; left| |].
          * left; right. lia.
          * right. lia. }
    destruct S1 as (L1 & S1).
    destruct (IH Hes' _ L1) as (L2 & S2).
    split; [exact L2|]. intros f g. rewrite S2, S1. split.
    + intros [[H|H]|(e' & He' & H)]; [now left| |].
      * right. exists e. split; [now left|exact H].
      * right. exists e'. split; [now right|exact H].
    + intros [H|(e' & [<-|He'] & H)]; [now left; left| |].
      * left; right. exact H.
      * right. exists e'. split; assumption.
Qed.

Lemma build_adj_spec F topo seam_edges :
  faces_in_range F topo ->
  forall f g,
    In g (nth f (build_adj F topo (set_of_list seam_edges)) []) <->
    face_adjacent topo seam_edges f g.
Proof.
  intros R f g. unfold build_adj.
  destruct (@adj_fold_spec F topo (set_of_list seam_edges) (seq 0 (num_edges topo)) R)
    with (adj0 := @repeat (list nat) [] F) as (_ & S).
  - intros e He. apply in_seq in He. lia.
  - apply repeat_length.
  - rewrite S. unfold face_adjacent, edge_links. split.
    + intros [H|(e & He & Hn & H)].
      * exfalso. destruct (Nat.lt_ge_cases f F).
        -- rewrite nth_repeat_lt in H by assumption. destruct H.
        -- rewrite nth_overflow in H by (rewrite repeat_length; lia). destruct H.
      * exists e. apply in_seq in He. rewrite in_set_of_list in Hn.
        split; [lia|]. split; assumption.
    + intros (e & He & Hn & H). right. exists e.
      split; [apply in_seq; lia|]. rewrite in_set_of_list. split; assumption.
Qed.

Lemma face_adjacent_sym topo seam_edges f g :
  face_adjacent topo seam_edges f g -> face_adjacent topo seam_edges g f.
Proof.
  intros (e & He & Hn & H). exists e. split; [exact He|]. split; [exact Hn|].
  destruct (faces_at topo e) as [f0 f1]. tauto.
Qed.

Lemma face_adjacent_range F topo seam_edges f g :
  faces_in_range F topo -> face_adjacent topo seam_edges f g -> g < F.
Proof.
  intros R (e & He & _ & H). specialize (R e He).
  destruct (faces_at topo e) as [f0 f1]. lia.
Qed.

(** C1.  [extract_islands] gives every triangle one island id in
    [[0, num_islands)], and two triangles get the same id exactly when a
    path of interior, non-seam edges connects them. *)
Theorem extract_islands_partition {T} (mesh : Mesh T) topo seam_edges :
  faces_in_range (num_triangles mesh) topo ->
  length (fst (extract_islands mesh topo seam_edges)) = num_triangles mesh /\
  (forall f, f < num_triangles mesh ->
     (0 <= nth f (fst (extract_islands mesh topo seam_edges)) 0
        < snd (extract_islands mesh topo seam_edges))%Z) /\
  (forall f g, f < num_triangles mesh -> g < num_triangles mesh ->
     (nth f (fst (extract_islands mesh topo seam_edges)) 0%Z =
      nth g (fst (extract_islands mesh topo seam_edges)) 0%Z
      <-> connected topo seam_edges f g)).
Proof.
  intros R. unfold extract_islands.
  set (F := num_triangles mesh) in *.
  set (adj := build_adj F topo (set_of_list seam_edges)).
  destruct (fold_left (island_step F adj) (seq 0 F) (repeat (-1)%Z F, 0%Z))
    as [ids n] eqn:E.
  assert (Hb : forall f g, In g (nth f adj []) -> g < F).
  { intros f g H. apply build_adj_spec in H; [|exact R].
    eapply face_adjacent_range; eauto. }
  assert (Hs : forall f g, In g (nth f adj []) -> In f (nth g adj [])).
  { intros f g H. apply build_adj_spec; [exact R|].
    apply face_adjacent_sym. apply build_adj_spec in H; assumption. }
  destruct (@islands_components F adj Hb Hs ids n E) as (L & Rg & Cc). simpl.
  split; [exact L|]. split; [exact Rg|].
  intros f g HfF HgF. rewrite (Cc f g HfF HgF). unfold connected, reach. split.
  - apply clos_refl_trans_ext. intros x y H. apply build_adj_spec in H; assumption.
  - apply clos_refl_trans_ext. intros x y H. apply build_adj_spec; assumption.
Qed.

Lemma extract_islands_partition_witness :
  length (fst (extract_islands quad_mesh (topology_of quad_mesh) [1])) = num_triangles quad_mesh /\
  (forall f, f < num_triangles quad_mesh ->
     (0 <= nth f (fst (extract_islands quad_mesh (topology_of quad_mesh) [1%nat])) 0
        < snd (extract_islands quad_mesh (topology_of quad_mesh) [1%nat]))%Z) /\
  (forall f g, f < num_triangles quad_mesh -> g < num_triangles quad_mesh ->
     (nth f (fst (extract_islands quad_mesh (topology_of quad_mesh) [1])) 0%Z =
      nth g (fst (extract_islands quad_mesh (topology_of quad_mesh) [1])) 0%Z
      <-> connected (topology_of quad_mesh) [1] f g)).
Proof.
  apply (@extract_islands_partition binary32 quad_mesh (topology_of quad_mesh) [1]).
  exact (build_topology_faces_in_range quad_mesh).
Defined.

(** The two triangles of the square, cut along the diagonal, are two
    islands; uncut they are one. *)
Example extract_islands_quad :
  extract_islands quad_mesh (topology_of quad_mesh) [1] = ([0; 1]%Z, 2%Z) /\
  extract_islands quad_mesh (topology_of quad_mesh) [] = ([0; 0]%Z, 1%Z).
Proof. split; reflexivity. Qed.

(* ------------------------------------------------------------------ *)
(** ** Sets and sorting *)

Lemma set_insert_sorted x s :
  StronglySorted lt s -> StronglySorted lt (set_insert x s).
Proof.
  induction 1 as [|y t St IH Hy]; simpl.
  - repeat constructor.
  - destruct (Nat.ltb_spec x y) as [Hlt|Hge].
    + constructor; [constructor; assumption|].
      constructor; [exact Hlt|].
      eapply Forall_impl; [|exact Hy]. intros z Hz. lia.
    + destruct (Nat.eqb_spec x y) as [->|Hne].
      * constructor; assumption.
      * constructor; [exact IH|].
        apply Forall_forall. intros z Hz. apply in_set_insert in Hz.
        destruct Hz as [->|Hz]; [lia|].
        rewrite Forall_forall in Hy. now apply Hy.
Qed.

Lemma set_of_list_sorted l : StronglySorted lt (set_of_list l).
Proof.
  unfold set_of_list.
  assert (G : forall s, StronglySorted lt s ->
                StronglySorted lt (fold_left (fun s x => set_insert x s) l s)).
  { induction l as [|a l IH]; intros s Hs; simpl; auto.
    apply IH. now apply set_insert_sorted. }
  apply G. constructor.
Qed.

Lemma sorted_lt_NoDup s : StronglySorted lt s -> NoDup s.
Proof.
  induction 1 as [|y t St IH Hy]; constructor; auto.
  intros Hin. rewrite Forall_forall in Hy. specialize (Hy y Hin). lia.
Qed.

Lemma set_of_list_length l : NoDup l -> length (set_of_list l) = length l.
Proof.
  intros H. apply Permutation_length. apply NoDup_Permutation.
  - apply sorted_lt_NoDup, set_of_list_sorted.
  - exact H.
  - intros x. apply in_set_of_list.
Qed.

Lemma NoDup_firstn {A} k (l : list A) : NoDup l -> NoDup (firstn k l).
Proof.
  intros H. rewrite <- (firstn_skipn k l) in H.
  now apply NoDup_app_remove_r in H.
Qed.

Lemma in_firstn {A} k (l : list A) x : In x (firstn k l) -> In x l.
Proof.
  intros H. rewrite <- (firstn_skipn k l). apply in_or_app. now left.
Qed.

Lemma sorted_app_le {A} (R : A -> A -> Prop) l1 l2 :
  StronglySorted R (l1 ++ l2) ->
  forall a b, In a l1 -> In b l2 -> R a b.
Proof.
  induction l1 as [|h t IH]; simpl; intros S a b Ha Hb; [destruct Ha|].
  inversion S as [|? ? S' Hall]; subst.
  destruct Ha as [<-|Ha].
  - rewrite Forall_forall in Hall. apply Hall. apply in_or_app. now right.
  - now apply IH.
Qed.

Lemma insert_by_priority_perm a l : Permutation (insert_by_priority a l) (a :: l).
Proof.
  induction l as [|b t IH]; simpl; [reflexivity|].
  destruct (snd a <=? snd b); [reflexivity|].
  rewrite IH. apply perm_swap.
Qed.

Lemma insert_by_priority_sorted a l :
  StronglySorted (fun x y => snd x <= snd y) l ->
  StronglySorted (fun x y => snd x <= snd y) (insert_by_priority a l).
Proof.
  induction 1 as [|b t St IH Hb]; simpl.
  - repeat constructor.
  - destruct (Nat.leb_spec (snd a) (snd b)) as [Hle|Hgt].
    + constructor; [constructor; assumption|].
      constructor; [exact Hle|].
      eapply Forall_impl; [|exact Hb]. intros z Hz. simpl in *. lia.
    + constructor; [exact IH|].
      apply Forall_forall. intros z Hz.
      apply (Permutation_in _ (insert_by_priority_perm a t)) in Hz.
      destruct Hz as [<-|Hz]; [lia|].
      rewrite Forall_forall in Hb. now apply Hb.
Qed.

Lemma insertion_sort_sorts : sorts_by_priority insertion_sort.
Proof.
  intros l. unfold insertion_sort. induction l as [|a l [IHp IHs]]; simpl.
  - split; constructor.
  - split.
    + rewrite insert_by_priority_perm. now constructor.
    + now apply insert_by_priority_sorted.
Qed.

(* ------------------------------------------------------------------ *)
(** ** Seam detection *)

Lemma filter_length_zero {A} (f : A -> bool) l :
  length (filter f l) = 0 -> forall x, In x l -> f x = false.
Proof.
  intros H x Hx. destruct (f x) eqn:E; [|reflexivity].
  assert (Hin : In x (filter f l)) by (apply filter_In; auto).
  destruct (filter f l); [destruct Hin|discriminate].
Qed.

Lemma closed_mesh_no_boundary topo e :
  is_closed_mesh topo = true -> e < num_edges topo -> is_boundary topo e = false.
Proof.
  unfold is_closed_mesh, num_boundary_edges. intros H He.
  apply Nat.eqb_eq in H. eapply filter_length_zero; [exact H|].
  apply in_seq. lia.
Qed.

Lemma non_tree_edges_fst F topo :
  map fst (non_tree_edges F topo) =
  filter (fun e => if is_closed_mesh topo
                   then negb (set_mem e (tree_edges_of F topo))
                   else negb (is_boundary topo e) && negb (set_mem e (tree_edges_of F topo)))
         (seq 0 (num_edges topo)).
Proof.
  unfold non_tree_edges. rewrite map_map. simpl. apply map_id.
Qed.

Lemma non_tree_edges_priority F topo e p :
  In (e, p) (non_tree_edges F topo) -> p = priority topo e.
Proof.
  unfold non_tree_edges. intros H. apply in_map_iff in H.
  destruct H as (e' & E & _). now inversion E.
Qed.

Lemma non_tree_edges_NoDup F topo : NoDup (map fst (non_tree_edges F topo)).
Proof.
  rewrite non_tree_edges_fst. apply NoDup_filter, seq_NoDup.
Qed.

(** A candidate is an edge of the topology with its second face. *)
Lemma non_tree_edges_interior F topo e :
  In e (map fst (non_tree_edges F topo)) ->
  e < num_edges topo /\ snd (faces_at topo e) <> (-1)%Z.
Proof.
  rewrite non_tree_edges_fst. intros H. apply filter_In in H.
  destruct H as (Hin & K). apply in_seq in Hin.
  assert (He : e < num_edges topo) by lia. split; [exact He|].
  assert (B : is_boundary topo e = false).
  { destruct (is_closed_mesh topo) eqn:C.
    - now apply closed_mesh_no_boundary.
    - apply andb_prop in K. destruct K as (K & _). now apply negb_true_iff in K. }
  unfold is_boundary in B. now apply Z.eqb_neq in B.
Qed.

Lemma select_seams_candidates sort F topo e :
  sorts_by_priority sort ->
  In e (select_seams sort F topo) -> In e (map fst (non_tree_edges F topo)).
Proof.
  intros S H. unfold select_seams in H. rewrite in_set_of_list in H.
  apply in_map_iff in H. destruct H as ([e' p] & E & H). simpl in E; subst e'.
  apply in_firstn in H. apply (Permutation_in _ (proj1 (S _))) in H.
  apply in_map_iff. exists (e, p). auto.
Qed.

(** C7.  Every seam that [detect_seams] returns is an index into the
    edge array of the topology, and both incident faces of that edge are
    present. *)
Theorem detect_seams_interior {T} sort (mesh : Mesh T) topo thr seams :
  sorts_by_priority sort ->
  first_faces_recorded topo ->
  detect_seams sort (Some mesh) (Some topo) thr true = Some seams ->
  forall e, In e seams -> e < num_edges topo /\ interior_edge topo e.
Proof.
  intros S W E e He. simpl in E. inversion E; subst seams; clear E.
  apply select_seams_candidates in He; [|exact S].
  apply non_tree_edges_interior in He. destruct He as (He & H1).
  split; [exact He|]. split; [now apply W|exact H1].
Qed.

Lemma detect_seams_interior_witness :
  detect_seams insertion_sort (Some tetra_mesh) (Some (topology_of tetra_mesh)) (f32 30) true
    = Some [2; 4; 5] /\
  4 < num_edges (topology_of tetra_mesh) /\ interior_edge (topology_of tetra_mesh) 4.
Proof.
  split; [vm_compute; reflexivity|].
  apply (@detect_seams_interior binary32 insertion_sort tetra_mesh
           (topology_of tetra_mesh) (f32 30) [2; 4; 5]).
  - exact insertion_sort_sorts.
  - exact (build_topology_first_faces tetra_mesh).
  - vm_compute. reflexivity.
  - simpl. auto.
Defined.

Lemma target_seams_closed F c : target_seams true F c = stated_seam_count F c.
Proof.
  unfold target_seams, stated_seam_count.
  destruct (F <=? 20); [reflexivity|].
  destruct (F <=? 70); apply Nat.min_comm.
Qed.

Lemma stated_seam_count_le F c : 1 <= c -> stated_seam_count F c <= c.
Proof.
  intros Hc. unfold stated_seam_count.
  destruct (F <=? 20); [lia|].
  assert (c / 3 <= c) by (apply Nat.Div0.div_le_upper_bound; lia).
  assert (c / 14 <= c) by (apply Nat.Div0.div_le_upper_bound; lia).
  destruct (F <=? 70); lia.
Qed.

(** C4, as the code has it: a closed mesh of 21 faces without a
    candidate keeps no seam, where the stated count is 1. *)
Lemma detect_seams_floor_counterexample :
  is_closed_mesh (topology_of collapsed_mesh) = true /\
  num_triangles collapsed_mesh = 21 /\
  length (non_tree_edges 21 (topology_of collapsed_mesh)) = 0 /\
  detect_seams insertion_sort (Some collapsed_mesh)
               (Some (topology_of collapsed_mesh)) (f32 30) true = Some [] /\
  stated_seam_count 21 0 = 1.
Proof. vm_compute. repeat split; reflexivity. Qed.

(** C4, amended.  On a closed mesh with [c] candidates [detect_seams]
    keeps [min c k] seams, [k] the stated count: that is [k] whenever
    there is a candidate.  The seams are candidates, and no candidate left
    out has a lower priority than a seam. *)
Theorem detect_seams_closed_count {T} sort (mesh : Mesh T) topo thr :
  sorts_by_priority sort ->
  is_closed_mesh topo = true ->
  exists seams,
    detect_seams sort (Some mesh) (Some topo) thr true = Some seams /\
    let F := num_triangles mesh in
    let cands := non_tree_edges F topo in
    let c := length cands in
    length seams = Nat.min c (stated_seam_count F c) /\
    (1 <= c -> length seams = stated_seam_count F c) /\
    (forall e, In e seams -> In e (map fst cands)) /\
    (forall e e', In e seams -> In e' (map fst cands) -> ~ In e' seams ->
                  priority topo e <= priority topo e').
Proof.
  intros S C. eexists. split; [reflexivity|].
  set (F := num_triangles mesh).
  set (cands := non_tree_edges F topo).
  cbv zeta.
  destruct (S cands) as (P & St).
  unfold select_seams. fold cands. rewrite C, target_seams_closed.
  rewrite (Permutation_length P).
  set (c := length cands).
  set (k := Nat.min (stated_seam_count F c) c).
  assert (Hlen : length (set_of_list (map fst (firstn k (sort cands)))) = k).
  { rewrite set_of_list_length.
    - rewrite length_map, length_firstn, (Permutation_length P). fold c. lia.
    - rewrite <- firstn_map. apply NoDup_firstn.
      eapply Permutation_NoDup; [apply Permutation_map, Permutation_sym, P|].
      apply non_tree_edges_NoDup. }
  split; [rewrite Hlen; unfold k; lia|].
  split.
  { intros Hc. rewrite Hlen. unfold k.
    pose proof (stated_seam_count_le F Hc). lia. }
  split.
  { intros e He. apply (@select_seams_candidates sort F topo e S).
    unfold select_seams. fold cands. rewrite C, target_seams_closed.
    rewrite (Permutation_length P). exact He. }
  intros e e' He He' Hn.
  rewrite in_set_of_list in He. rewrite in_set_of_list in Hn.
  apply in_map_iff in He. destruct He as ([e0 p] & E & He). simpl in E; subst e0.
  apply in_map_iff in He'. destruct He' as ([e0 p'] & E & He'). simpl in E; subst e0.
  assert (Hp : p = priority topo e).
  { apply (non_tree_edges_priority F topo).
    apply (Permutation_in _ P). now apply in_firstn in He. }
  assert (Hp' : p' = priority topo e') by now apply (non_tree_edges_priority F topo).
  apply (Permutation_in _ (Permutation_sym P)) in He'.
  rewrite <- (firstn_skipn k (sort cands)) in He', St.
  apply in_app_or in He'. destruct He' as [He'|He'].
  - exfalso. apply Hn. apply in_map_iff. exists (e', p'). auto.
  - pose proof (@sorted_app_le _ _ _ _ St _ _ He He') as Hle. simpl in Hle. lia.
Qed.

Lemma detect_seams_closed_count_witness :
  exists seams,
    detect_seams insertion_sort (Some tetra_mesh) (Some (topology_of tetra_mesh)) (f32 30) true
      = Some seams /\
    let F := num_triangles tetra_mesh in
    let cands := non_tree_edges F (topology_of tetra_mesh) in
    let c := length cands in
    length seams = Nat.min c (stated_seam_count F c) /\
    (1 <= c -> length seams = stated_seam_count F c) /\
    (forall e, In e seams -> In e (map fst cands)) /\
    (forall e e', In e seams -> In e' (map fst cands) -> ~ In e' seams ->
                  priority (topology_of tetra_mesh) e <= priority (topology_of tetra_mesh) e').
Proof.
  apply (@detect_seams_closed_count binary32 insertion_sort tetra_mesh
           (topology_of tetra_mesh) (f32 30)).
  - exact insertion_sort_sorts.
  - vm_compute. reflexivity.
Defined.

(** *** The traversal of [detect_seams] ends with an empty queue *)


Lemma unvisited_upd visited v :
  nth v visited true = false -> unvisited (upd visited v true) + 1 = unvisited visited.
Proof.
  unfold unvisited. revert v.
  induction visited as [|h t IH]; intros [|v] Hv; simpl in *; try discriminate.
  - subst h. destruct (bool_dec true false); [discriminate|].
    destruct (bool_dec false false); lia.
  - specialize (IH v Hv). destruct (bool_dec h false); lia.
Qed.

Lemma tree_visit_measure l : forall visited q te visited' q' te',
  fold_left tree_visit l (visited, q, te) = (visited', q', te') ->
  length visited' = length visited /\
  unvisited visited' + length q' = unvisited visited + length q.
Proof.
  induction l as [|[v e] l IH]; intros visited q te visited' q' te' E; simpl in E.
  - inversion E; subst. auto.
  - destruct (nth v visited true) eqn:Hv; simpl in E.
    + now apply IH in E.
    + apply IH in E. destruct E as (L & M).
      rewrite upd_length in L. rewrite length_app in M. simpl in M.
      pose proof (unvisited_upd visited v Hv). split; [exact L|lia].
Qed.

Lemma tree_bfs_empties dual_adj dual_edge_indices fuel :
  forall visited q te visited' q' te',
  unvisited visited + length q <= fuel ->
  tree_bfs fuel dual_adj dual_edge_indices (visited, q, te) = (visited', q', te') ->
  length visited' = length visited /\ q' = [].
Proof.
  induction fuel as [|fuel IH]; intros visited q te visited' q' te' M E; simpl in E.
  - inversion E; subst. split; [reflexivity|].
    destruct q'; [reflexivity|simpl in M; lia].
  - destruct q as [|u q0]; [inversion E; subst; auto|].
    destruct (fold_left tree_visit
                (combine (nth u dual_adj []) (nth u dual_edge_indices []))
                (visited, q0, te)) as [[v1 q1] te1] eqn:V.
    apply tree_visit_measure in V. destruct V as (L1 & M1).
    apply IH in E; [|simpl in M; lia].
    destruct E as (L & Q). split; [congruence|exact Q].
Qed.

Lemma unvisited_le visited : unvisited visited <= length visited.
Proof. apply count_occ_bound. Qed.

(** [F] iterations are enough for every run of the inner loop: the queue
    is empty whenever the loop over [start_node] goes on. *)
Lemma spanning_forest_queue_empty F topo :
  snd (fst (spanning_forest F topo)) = [].
Proof.
  unfold spanning_forest. destruct (build_dual F topo) as [da de].
  assert (G : forall l visited te,
             length visited = F ->
             let r := fold_left (tree_start F da de) l (visited, [], te) in
             length (fst (fst r)) = F /\ snd (fst r) = []).
  { induction l as [|s l IH]; intros visited te L; simpl; [auto|].
    destruct (nth s visited true) eqn:Hs.
    - now apply IH.
    - destruct (tree_bfs F da de (upd visited s true, [s], te)) as [[v1 q1] te1] eqn:B.
      apply tree_bfs_empties in B.
      + destruct B as (L1 & ->). rewrite upd_length in L1. apply IH. congruence.
      + pose proof (unvisited_upd visited s Hs). pose proof (unvisited_le visited).
        simpl. lia. }
  apply (G (seq 0 F) (repeat false F) []). apply repeat_length.
Qed.

(* ------------------------------------------------------------------ *)
(** ** Island packing: which vertex belongs to which island *)

Section PackingFacts.
Context {T : Type} {ST : Scalar T}.


Lemma collect_inv_init nv n uv :
  collect_inv nv n uv (repeat (-1)%Z nv, map (@init_island T ST) (seq 0 n)).
Proof.
  assert (N : forall i, i < n -> nth i (map (@init_island T ST) (seq 0 n)) d0 = init_island i).
  { intros i Hi. change d0 with (@init_island T ST 0). rewrite map_nth.
    rewrite seq_nth by exact Hi. reflexivity. }
  constructor; simpl.
  - apply repeat_length.
  - rewrite length_map. apply length_seq.
  - intros i Hi. now rewrite N.
  - intros i v Hi Hv. rewrite N by exact Hi. simpl.
    rewrite nth_repeat_lt by exact Hv.
    destruct (Z.eqb_spec (-1) (Z.of_nat i)); [lia|reflexivity].
  - intros i v Hi. rewrite N by exact Hi. intros [].
  - intros i Hi. rewrite N by exact Hi. reflexivity.
Qed.

Lemma assign_vertex_inv nv n uv i st v :
  i < n -> collect_inv nv n uv st -> collect_inv nv n uv (assign_vertex uv i st v).
Proof.
  intros Hi [L1 L2 I C R B]. destruct st as [vti isl]. simpl in *.
  unfold assign_vertex.
  destruct (Z.eqb_spec (nth v vti 0%Z) (-1)) as [Hv|Hv]; [|constructor; assumption].
  assert (Hlt : v < nv) by (rewrite <- L1; now apply nth_unlabelled_in_range).
  rewrite (nth_indep _ (init_island i) d0) by lia.
  set (old := nth i isl d0).
  set (new := add_vertex old v (fst (uv_at uv v)) (snd (uv_at uv v))).
  assert (N : forall j, j < n -> nth j (upd isl i new) d0 = if Nat.eq_dec i j then new else nth j isl d0).
  { intros j Hj. destruct (Nat.eq_dec i j) as [<-|Hne].
    - apply nth_upd_eq. lia.
    - now apply nth_upd_neq. }
  constructor; simpl.
  - now rewrite upd_length.
  - now rewrite upd_length.
  - intros j Hj. rewrite N by exact Hj.
    destruct (Nat.eq_dec i j) as [<-|Hne]; [apply (I i Hi)|now apply I].
  - intros j w Hj Hw. rewrite N by exact Hj. rewrite nth_upd.
    replace (v <? length vti) with true by (symmetry; apply Nat.ltb_lt; lia).
    rewrite andb_true_r.
    destruct (Nat.eq_dec i j) as [<-|Hne].
    + unfold new; simpl. rewrite count_occ_app. simpl. unfold old.
      rewrite (C i w Hi Hw).
      destruct (Nat.eqb_spec v w) as [->|Hvw].
      * rewrite Hv. destruct (Z.eqb_spec (-1) (Z.of_nat i)); [lia|].
        rewrite Z.eqb_refl. destruct (Nat.eq_dec w w); [reflexivity|congruence].
      * destruct (Nat.eq_dec v w); [contradiction|]. lia.
    + rewrite (C j w Hj Hw).
      destruct (Nat.eqb_spec v w) as [->|Hvw]; [|reflexivity].
      rewrite Hv. destruct (Z.eqb_spec (-1) (Z.of_nat j)); [lia|].
      destruct (Z.eqb_spec (Z.of_nat i) (Z.of_nat j)); [lia|reflexivity].
  - intros j w Hj. rewrite N by exact Hj.
    destruct (Nat.eq_dec i j) as [<-|Hne]; [|now apply R].
    unfold new; simpl. intros H. apply in_app_or in H.
    destruct H as [H|[<-|[]]]; [now apply (R i)|exact Hlt].
  - intros j Hj. rewrite N by exact Hj.
    destruct (Nat.eq_dec i j) as [<-|Hne]; [|now apply B].
    unfold new, bbox_of, island_bbox; simpl.
    rewrite map_app, fold_left_app. simpl.
    pose proof (B i Hi) as Bi. unfold bbox_of in Bi. fold old in Bi. rewrite <- Bi.
    unfold island_bbox, bbox_step. destruct (uv_at uv v). reflexivity.
Qed.

Lemma assign_face_inv nv n uv tris ids st f :
  collect_inv nv n uv st -> collect_inv nv n uv (assign_face uv tris ids n st f).
Proof.
  intros I. unfold assign_face.
  destruct (Z.ltb_spec (nth f ids 0%Z) 0) as [|H0]; simpl; [exact I|].
  destruct (Z.leb_spec (Z.of_nat n) (nth f ids 0%Z)) as [|H1]; [exact I|].
  assert (Hi : Z.to_nat (nth f ids 0%Z) < n) by lia.
  generalize (tri_verts (nth f tris (0, 0, 0))). intros vs. revert st I.
  induction vs as [|v vs IH]; intros st I; simpl; [exact I|].
  apply IH. now apply assign_vertex_inv.
Qed.

Lemma collect_fold_inv nv n uv tris ids fs : forall st,
  collect_inv nv n uv st ->
  collect_inv nv n uv (fold_left (assign_face uv tris ids n) fs st).
Proof.
  induction fs as [|f fs IH]; intros st I; simpl; [exact I|].
  apply IH. now apply assign_face_inv.
Qed.




Lemma normalize_dims_core (isl : @Island T) :
  id (normalize_dims isl) = id isl /\
  vertex_indices (normalize_dims isl) = vertex_indices isl /\
  island_bbox (normalize_dims isl) = island_bbox isl.
Proof.
  unfold normalize_dims. destruct (s_eqb (min_u isl) FLT_MAX); auto.
Qed.

Lemma place_core margin st (isl : @Island T) :
  island_core (snd (place margin st isl)) = island_core isl.
Proof.
  unfold place. destruct (s_eqb (width isl) s_zero); reflexivity.
Qed.

Lemma shelf_pack_core margin l : forall st,
  map island_core (fst (shelf_pack margin st l)) = map (@island_core T) l.
Proof.
  induction l as [|isl l IH]; intros st; simpl; [reflexivity|].
  pose proof (place_core margin st isl) as P.
  destruct (place margin st isl) as [st1 isl']. simpl in P.
  specialize (IH st1). destruct (shelf_pack margin st1 l) as [t' st2].
  simpl in *. now rewrite P, IH.
Qed.

(** The islands [collect_islands] returns, by their ids. *)
Lemma collect_islands_spec nv uv tris res :
  let vti := fst (collect_islands nv uv tris res) in
  let isls := snd (collect_islands nv uv tris res) in
  map id isls = seq 0 (num_islands res) /\
  forall isl, In isl isls ->
    island_bbox isl = bbox_of uv (vertex_indices isl) /\
    (forall v, In v (vertex_indices isl) -> v < nv) /\
    forall v, v < nv ->
      count_occ Nat.eq_dec (vertex_indices isl) v =
      if (nth v vti 0 =? Z.of_nat (id isl))%Z then 1 else 0.
Proof.
  unfold collect_islands.
  pose proof (collect_fold_inv tris (face_island_ids res) (seq 0 (length tris))
                (collect_inv_init nv (num_islands res) uv)) as I.
  destruct (fold_left _ _ _) as [vti isl0]. simpl.
  destruct I as [L1 L2 I C R B]. simpl in *.
  split.
  - apply (nth_ext _ _ 0 0).
    + rewrite !length_map, length_seq. exact L2.
    + intros k Hk. rewrite !length_map in Hk.
      rewrite seq_nth by lia. simpl.
      rewrite map_map.
      rewrite (nth_indep _ 0 (id (normalize_dims (@d0 T ST))))
        by (rewrite length_map; lia).
      rewrite (map_nth (fun x => id (normalize_dims x))).
      destruct (normalize_dims_core (nth k isl0 d0)) as (-> & _). apply I. lia.
  - intros isl Hin. apply in_map_iff in Hin. destruct Hin as (isl1 & <- & Hin).
    destruct (In_nth _ _ d0 Hin) as (k & Hk & <-).
    destruct (normalize_dims_core (nth k isl0 d0)) as (-> & -> & ->).
    rewrite L2 in Hk. rewrite (I k Hk).
    split; [now apply B|]. split; [intros v; now apply R|].
    intros v Hv. now apply C.
Qed.

Lemma island_core_eq (a b : @Island T) :
  island_core a = island_core b ->
  id a = id b /\ vertex_indices a = vertex_indices b /\
  width a = width b /\ island_bbox a = island_bbox b.
Proof.
  unfold island_core, island_bbox. intros E. inversion E. auto.
Qed.

(** The islands of the layout are those [collect_islands] found. *)
Lemma pack_layout_spec sort nv uv tris res margin :
  (forall l, Permutation (sort l) l) ->
  let vti := fst (collect_islands nv uv tris res) in
  let islands := fst (pack_layout sort nv uv tris res margin) in
  Permutation (map id islands) (seq 0 (num_islands res)) /\
  forall isl, In isl islands ->
    island_bbox isl = bbox_of uv (vertex_indices isl) /\
    (forall v, In v (vertex_indices isl) -> v < nv) /\
    forall v, v < nv ->
      count_occ Nat.eq_dec (vertex_indices isl) v =
      if (nth v vti 0 =? Z.of_nat (id isl))%Z then 1 else 0.
Proof.
  intros S. cbv zeta. unfold pack_layout.
  destruct (collect_islands_spec nv uv tris res) as (Hid & Hall).
  set (col := snd (collect_islands nv uv tris res)) in *.
  pose proof (shelf_pack_core margin (sort col) shelf_init) as C.
  set (islands := fst (shelf_pack margin shelf_init (sort col))) in *.
  assert (Hin : forall isl, In isl islands ->
            exists isl0, In isl0 col /\ island_core isl0 = island_core isl).
  { intros isl H. apply (in_map island_core) in H. rewrite C in H.
    apply in_map_iff in H. destruct H as (isl0 & E & H).
    exists isl0. split; [|exact E]. eapply Permutation_in; [apply S|exact H]. }
  split.
  - rewrite <- Hid.
    replace (map id islands) with (map (fun c => fst (fst (fst c))) (map island_core islands))
      by (rewrite map_map; reflexivity).
    rewrite C, map_map. apply Permutation_map. apply S.
  - intros isl H. destruct (Hin isl H) as (isl0 & H0 & E).
    destruct (Hall isl0 H0) as (B & R & Cn).
    apply island_core_eq in E. destruct E as (E1 & E2 & _ & E3).
    rewrite <- E1, <- E2, <- E3. auto.
Qed.

Lemma move_vertices_translations ox oy vs : forall uv : list (T * T),
  fold_left (move_vertex ox oy) vs uv =
  fold_left apply_translation (map (fun v => (v, (ox, oy))) vs) uv.
Proof.
  induction vs as [|v vs IH]; intros uv; simpl; [reflexivity|]. apply IH.
Qed.

(** The loop that moves the islands performs the updates of
    [translations], in that order. *)
Lemma move_islands_translations islands : forall uv : list (T * T),
  fold_left move_island islands uv =
  fold_left apply_translation (translations islands) uv.
Proof.
  induction islands as [|isl l IH]; intros uv; simpl; [reflexivity|].
  rewrite fold_left_app, IH. f_equal. unfold move_island.
  destruct (s_eqb (width isl) s_zero); [reflexivity|].
  apply move_vertices_translations.
Qed.

Lemma count_occ_map_fst {B} (vs : list nat) (b : B) v :
  count_occ Nat.eq_dec (map fst (map (fun v => (v, b)) vs)) v = count_occ Nat.eq_dec vs v.
Proof.
  rewrite map_map. simpl. now rewrite map_id.
Qed.


Lemma insert_by_height_perm (a : @Island T) l :
  Permutation (insert_by_height a l) (a :: l).
Proof.
  induction l as [|b t IH]; simpl; [reflexivity|].
  destruct (s_ltb (height a) (height b)); [|reflexivity].
  rewrite IH. apply perm_swap.
Qed.

Lemma sort_by_height_perm (l : list (@Island T)) : Permutation (sort_by_height l) l.
Proof.
  unfold sort_by_height. induction l as [|a l IH]; simpl; [constructor|].
  rewrite insert_by_height_perm. now constructor.
Qed.


Lemma translations_count_zero v (l : list (@Island T)) :
  (forall isl, In isl l -> count_occ Nat.eq_dec (vertex_indices isl) v = 0) ->
  count_occ Nat.eq_dec (map fst (translations l)) v = 0.
Proof.
  induction l as [|a l IH]; intros H; [reflexivity|].
  simpl. rewrite map_app, count_occ_app.
  rewrite IH by (intros; apply H; now right).
  destruct (s_eqb (width a) s_zero); [reflexivity|].
  rewrite count_occ_map_fst. rewrite (H a (or_introl eq_refl)). reflexivity.
Qed.

Lemma translations_count_le v (z : Z) (l : list (@Island T)) :
  NoDup (map id l) ->
  (forall isl, In isl l ->
     count_occ Nat.eq_dec (vertex_indices isl) v =
     if (z =? Z.of_nat (id isl))%Z then 1 else 0) ->
  count_occ Nat.eq_dec (map fst (translations l)) v <= 1.
Proof.
  induction l as [|a l IH]; intros ND C; [simpl; lia|].
  simpl in ND. inversion ND as [|? ? Hna ND']; subst.
  simpl. rewrite map_app, count_occ_app.
  assert (Ha : count_occ Nat.eq_dec
                 (map fst (if s_eqb (width a) s_zero then []
                           else map (fun v0 => (v0, (s_sub (target_x a) (min_u a),
                                                     s_sub (target_y a) (min_v a))))
                                    (vertex_indices a))) v
               <= count_occ Nat.eq_dec (vertex_indices a) v).
  { destruct (s_eqb (width a) s_zero); [simpl; lia|].
    rewrite count_occ_map_fst. lia. }
  pose proof (C a (or_introl eq_refl)) as Ca.
  destruct (Z.eqb_spec z (Z.of_nat (id a))) as [E|E].
  - rewrite translations_count_zero; [lia|].
    intros b Hb. rewrite (C b (or_intror Hb)).
    destruct (Z.eqb_spec z (Z.of_nat (id b))) as [E'|]; [|reflexivity].
    exfalso. apply Hna. replace (id a) with (id b) by lia. now apply in_map.
  - pose proof (IH ND' (fun b Hb => C b (or_intror Hb))). lia.
Qed.

(** No vertex is moved twice. *)
Lemma translations_NoDup sort nv uv tris res margin :
  (forall l, Permutation (sort l) l) ->
  NoDup (map fst (translations (fst (pack_layout sort nv uv tris res margin)))).
Proof.
  intros S. destruct (@pack_layout_spec sort nv uv tris res margin S) as (P & A).
  set (islands := fst (pack_layout sort nv uv tris res margin)) in *.
  apply NoDup_count_occ with (decA := Nat.eq_dec). intros v.
  destruct (Nat.lt_ge_cases v nv) as [Hv|Hv].
  - apply (@translations_count_le v
             (nth v (fst (collect_islands nv uv tris res)) 0%Z) islands).
    + eapply Permutation_NoDup; [apply Permutation_sym, P|apply seq_NoDup].
    + intros isl H. now apply A.
  - rewrite translations_count_zero; [lia|].
    intros isl H. apply count_occ_not_In. intros Hin.
    destruct (A isl H) as (_ & R & _). specialize (R v Hin). lia.
Qed.

Lemma apply_translation_length (uv : list (T * T)) t :
  length (apply_translation uv t) = length uv.
Proof. apply upd_length. Qed.

Lemma translations_fold_length ts : forall uv : list (T * T),
  length (fold_left apply_translation ts uv) = length uv.
Proof.
  induction ts as [|t ts IH]; intros uv; simpl; [reflexivity|].
  now rewrite IH, apply_translation_length.
Qed.

Lemma translations_fold_other ts v : forall uv : list (T * T),
  ~ In v (map fst ts) ->
  uv_at (fold_left apply_translation ts uv) v = uv_at uv v.
Proof.
  induction ts as [|[w o] ts IH]; intros uv H; simpl; [reflexivity|].
  simpl in H. rewrite IH by tauto.
  unfold apply_translation, move_vertex, uv_at. simpl.
  apply nth_upd_neq. tauto.
Qed.

(** A vertex that is moved ends at its UV plus the offset of its
    island. *)
Lemma translations_fold_moved ts v o : forall uv : list (T * T),
  NoDup (map fst ts) -> In (v, o) ts -> v < length uv ->
  uv_at (fold_left apply_translation ts uv) v =
  (s_add (fst (uv_at uv v)) (fst o), s_add (snd (uv_at uv v)) (snd o)).
Proof.
  induction ts as [|[w o'] ts IH]; intros uv ND Hin Hv; [destruct Hin|].
  simpl in ND. inversion ND as [|? ? Hn ND']; subst. simpl.
  destruct Hin as [E|Hin].
  - inversion E; subst. rewrite translations_fold_other by exact Hn.
    unfold apply_translation, move_vertex, uv_at. simpl.
    now apply nth_upd_eq.
  - assert (Hne : w <> v).
    { intros ->. apply Hn. apply in_map_iff. exists (v, o). auto. }
    rewrite (IH _ ND' Hin) by (rewrite apply_translation_length; exact Hv).
    unfold apply_translation, move_vertex, uv_at. simpl.
    rewrite nth_upd_neq by exact Hne. reflexivity.
Qed.

Lemma scale_uvs_at nv scale (uv : list (T * T)) v :
  v < nv -> v < length uv ->
  uv_at (scale_uvs nv scale uv) v =
  (s_mul (fst (uv_at uv v)) scale, s_mul (snd (uv_at uv v)) scale).
Proof.
  intros Hv Hl. unfold scale_uvs, uv_at.
  rewrite app_nth1 by (rewrite length_map, length_firstn; lia).
  rewrite (nth_indep _ (s_zero, s_zero)
             ((fun p : T * T => (s_mul (fst p) scale, s_mul (snd p) scale)) (s_zero, s_zero)))
    by (rewrite length_map, length_firstn; lia).
  rewrite (map_nth (fun p : T * T => (s_mul (fst p) scale, s_mul (snd p) scale))).
  rewrite nth_firstn. replace (v <? nv) with true by (symmetry; now apply Nat.ltb_lt).
  reflexivity.
Qed.

End PackingFacts.

(* ------------------------------------------------------------------ *)
(** ** normalize_uvs_to_unit_square in [float]: the fixed points *)


















(* ------------------------------------------------------------------ *)
(** ** pack_uv_islands: the layout of a shelf, in the arithmetic of the code *)

Section PackingLayout.
Context {T : Type} {ST : Scalar T}.
Local Open Scope scalar_scope.








(** The final UV of a vertex: translated with its island when the island
    was placed, and rescaled in any case. *)
Lemma pack_moves sort (mesh : Mesh T) res margin uv uv' :
  (forall l, Permutation (sort l) l) ->
  uvs mesh = Some uv ->
  length uv = num_vertices mesh ->
  1 < num_islands res ->
  pack_uv_islands sort mesh res margin = Some uv' ->
  let nv := num_vertices mesh in
  let islands := fst (pack_layout sort nv uv (triangles mesh) res margin) in
  let scale := final_scale (snd (pack_layout sort nv uv (triangles mesh) res margin)) in
  (forall c x, In c islands -> (width c =? s_zero) = false -> In x (vertex_indices c) ->
     uv_at uv' x = ((fst (uv_at uv x) + (target_x c - min_u c)) * scale,
                    (snd (uv_at uv x) + (target_y c - min_v c)) * scale)) /\
  (forall x, x < nv ->
     (forall c, In c islands -> In x (vertex_indices c) -> (width c =? s_zero) = true) ->
     uv_at uv' x = (fst (uv_at uv x) * scale, snd (uv_at uv x) * scale)).
Proof.
  intros S Huv Hlen Hn E. cbv zeta.
  set (nv := num_vertices mesh) in *.
  unfold pack_uv_islands in E. rewrite Huv in E.
  replace (num_islands res <=? 1) with false in E
    by (symmetry; apply Nat.leb_gt; exact Hn).
  fold nv in E.
  pose proof (@translations_NoDup T _ sort nv uv (triangles mesh) res margin S) as ND.
  destruct (@pack_layout_spec T _ sort nv uv (triangles mesh) res margin S) as (_ & Sp).
  destruct (pack_layout sort nv uv (triangles mesh) res margin) as [islands st] eqn:PL.
  cbn [fst snd] in *. inversion E; subst uv'; clear E.
  split.
  - intros c x Hc Wc Hx.
    destruct (Sp c Hc) as (_ & Rg & _). specialize (Rg x Hx).
    rewrite scale_uvs_at;
      [|exact Rg|rewrite move_islands_translations, translations_fold_length; lia].
    rewrite move_islands_translations.
    rewrite (@translations_fold_moved T _ (translations islands) x
               (target_x c - min_u c, target_y c - min_v c));
      [reflexivity|exact ND| |lia].
    unfold translations. apply in_flat_map. exists c. split; [exact Hc|].
    rewrite Wc. apply in_map_iff. exists x. auto.
  - intros x Hx Hz.
    rewrite scale_uvs_at;
      [|exact Hx|rewrite move_islands_translations, translations_fold_length; lia].
    rewrite move_islands_translations, translations_fold_other; [reflexivity|].
    intros Hin. apply in_map_iff in Hin. destruct Hin as ([x' o] & Ex & Hin).
    simpl in Ex. subst x'. unfold translations in Hin. apply in_flat_map in Hin.
    destruct Hin as (c & Hc & Hin).
    destruct (width c =? s_zero) eqn:W; [destruct Hin|].
    apply in_map_iff in Hin. destruct Hin as (y & Ey & Hy). inversion Ey; subst y.
    rewrite (Hz c Hc Hy) in W. discriminate.
Qed.


(** X16.  A vertex that belongs to no placed island is never translated
    by [pack_uv_islands]: be it assigned to no island or to an island of
    width 0, its final UV is its UV times the factor of the final
    rescaling, in the code's arithmetic. *)
Theorem pack_unplaced_vertex sort (mesh : Mesh T) res margin uv uv' x :
  (forall l, Permutation (sort l) l) ->
  uvs mesh = Some uv ->
  length uv = num_vertices mesh ->
  1 < num_islands res ->
  pack_uv_islands sort mesh res margin = Some uv' ->
  x < num_vertices mesh ->
  let nv := num_vertices mesh in
  let islands := fst (pack_layout sort nv uv (triangles mesh) res margin) in
  let scale := final_scale (snd (pack_layout sort nv uv (triangles mesh) res margin)) in
  (forall c, In c islands -> In x (vertex_indices c) -> (width c =? s_zero) = true) ->
  uv_at uv' x = (fst (uv_at uv x) * scale, snd (uv_at uv x) * scale).
Proof.
  intros S Huv Hlen Hn E Hx. cbv zeta. intros Hz.
  exact (proj2 (@pack_moves sort mesh res margin uv uv' S Huv Hlen Hn E) x Hx Hz).
Qed.

End PackingLayout.


Lemma pack_unplaced_vertex_witness :
  let uv' := [(f32 0, f32 0); (q32 1 1, f32 0); (f32 1, f32 0);
              (f32 0, f32 0); (f32 0, f32 1); (f32 0, q32 3 1)] in
  let scale := final_scale (snd (pack_layout sort_by_height (num_vertices sliver_mesh)
                                             sliver_uvs (triangles sliver_mesh)
                                             sliver_result (q32 1 2))) in
  uv_at uv' 5 = (s_mul (fst (uv_at sliver_uvs 5)) scale, s_mul (snd (uv_at sliver_uvs 5)) scale).
Proof.
  refine (@pack_unplaced_vertex binary32 _ sort_by_height sliver_mesh sliver_result
            (q32 1 2) sliver_uvs _ 5 _ _ _ _ _ _ _).
  - exact sort_by_height_perm.
  - reflexivity.
  - reflexivity.
  - simpl. lia.
  - vm_compute. reflexivity.
  - unfold num_vertices. simpl. lia.
  - intros c Hc Hx.
    assert (F : forallb (fun c : @Island binary32 =>
                           negb (existsb (Nat.eqb 5) (vertex_indices c))
                           || s_eqb (width c) s_zero)
                        (fst (pack_layout sort_by_height (num_vertices sliver_mesh)
                                          sliver_uvs (triangles sliver_mesh)
                                          sliver_result (q32 1 2))) = true)
      by (vm_compute; reflexivity).
    rewrite forallb_forall in F. specialize (F c Hc).
    apply orb_prop in F. destruct F as [F|F]; [|exact F].
    apply negb_true_iff in F. exfalso.
    assert (existsb (Nat.eqb 5) (vertex_indices c) = true); [|congruence].
    apply existsb_exists. exists 5. split; [exact Hx|reflexivity].
Defined.




(* ------------------------------------------------------------------ *)
(** ** Island packing: the code on concrete meshes *)


(** C3 at the failing input.  Both islands are normalised (a pass of
    [normalize_uvs_to_unit_square] leaves each as it is).  The island of
    face 1 has width 0 and height 3/4: the shelf loop does not place it,
    the extent of the layout is the 1/2 of the other island, and the
    rescaling by 2 takes vertex 5 from (0, 3/4) to (0, 3/2). *)
Theorem pack_sliver_leaves_unit_square :
  normalize_uvs_to_unit_square (firstn 3 sliver_uvs) = firstn 3 sliver_uvs /\
  normalize_uvs_to_unit_square (skipn 3 sliver_uvs) = skipn 3 sliver_uvs /\
  pack_uv_islands sort_by_height sliver_mesh sliver_result (q32 1 2)
    = Some [(f32 0, f32 0); (q32 1 1, f32 0); (f32 1, f32 0);
            (f32 0, f32 0); (f32 0, f32 1); (f32 0, q32 3 1)] /\
  s_ltb (f32 1) (q32 3 1) = true.
Proof. vm_compute. repeat split; reflexivity. Qed.

(* ------------------------------------------------------------------ *)
(** ** LSCM: local indices and the choice of the pinned vertices *)

Lemma fold_left_invariant {A B} (P : A -> Prop) (f : A -> B -> A) l : forall a,
  P a -> (forall a x, In x l -> P a -> P (f a x)) -> P (fold_left f l a).
Proof.
  induction l as [|x l IH]; intros a Ha Hf; simpl; [exact Ha|].
  apply IH.
  - apply Hf; [now left|exact Ha].
  - intros a' x' Hx'. apply Hf. now right.
Qed.


Lemma map_vertex_inv g2l l2g v :
  local_map_inv g2l l2g ->
  local_map_inv (fst (map_vertex (g2l, l2g) v)) (snd (map_vertex (g2l, l2g) v)) /\
  (forall w, In w (snd (map_vertex (g2l, l2g) v)) <-> In w l2g \/ w = v).
Proof.
  intros [ND Dom Inv]. unfold map_vertex.
  destruct (int_map_find v g2l) as [k|] eqn:E; simpl.
  - split; [constructor; assumption|].
    intros w. split; [auto|]. intros [H| ->]; [exact H|].
    apply Dom. congruence.
  - assert (Hv : ~ In v l2g) by (intros H; apply Dom in H; contradiction).
    split.
    + constructor.
      * apply NoDup_app; [exact ND|repeat constructor; intros []|].
        intros x Hx [<-|[]]. contradiction.
      * intros w. simpl. rewrite in_app_iff. simpl.
        destruct (Nat.eqb_spec w v) as [->|Hne].
        -- split; [discriminate|auto].
        -- rewrite <- Dom. split; [intros [H|[H|[]]]; [exact H|congruence]|auto].
      * intros w k. simpl. destruct (Nat.eqb_spec w v) as [->|Hne].
        -- intros H; inversion H; subst. rewrite length_app. simpl.
           split; [lia|]. rewrite app_nth2 by lia. now rewrite Nat.sub_diag.
        -- intros H. destruct (Inv w k H) as (Hk & Hn).
           rewrite length_app. split; [lia|]. now rewrite app_nth1.
    + intros w. rewrite in_app_iff. simpl. intuition.
Qed.

Lemma local_vertex_map_spec {T} (mesh : Mesh T) faces :
  local_map_inv (fst (local_vertex_map mesh faces)) (snd (local_vertex_map mesh faces)) /\
  forall v, In v (snd (local_vertex_map mesh faces)) <->
            exists f, In f faces /\ In v (face_verts mesh f).
Proof.
  unfold local_vertex_map.
  set (step := fun st f => fold_left map_vertex (face_verts mesh f) st).
  assert (V : forall vs st,
            local_map_inv (fst st) (snd st) ->
            local_map_inv (fst (fold_left map_vertex vs st)) (snd (fold_left map_vertex vs st)) /\
            forall w, In w (snd (fold_left map_vertex vs st)) <-> In w (snd st) \/ In w vs).
  { induction vs as [|v vs IH]; intros [g l] I; cbn [fold_left].
    - split; [exact I|]. intros w. simpl. tauto.
    - cbn [fst snd] in I. destruct (map_vertex_inv v I) as (I1 & C1).
      destruct (map_vertex (g, l) v) as [g1 l1]. cbn [fst snd] in *.
      destruct (IH (g1, l1) I1) as (I2 & C2). split; [exact I2|].
      intros w. rewrite C2. cbn [fst snd In]. rewrite C1. intuition. }
  assert (G : forall fs st,
            local_map_inv (fst st) (snd st) ->
            local_map_inv (fst (fold_left step fs st)) (snd (fold_left step fs st)) /\
            forall w, In w (snd (fold_left step fs st)) <->
                      In w (snd st) \/ exists f, In f fs /\ In w (face_verts mesh f)).
  { induction fs as [|f fs IH]; intros st I; cbn [fold_left].
    - split; [exact I|]. intros w. split; [auto|]. intros [H|(f & [] & _)]; exact H.
    - destruct (V (face_verts mesh f) st I) as (I1 & C1).
      destruct (IH (step st f) I1) as (I2 & C2). split; [exact I2|].
      intros w. rewrite C2.
      change (step st f) with (fold_left map_vertex (face_verts mesh f) st).
      rewrite C1. split.
      + intros [[H|H]|(f' & Hf' & H)]; [now left| |].
        * right. exists f. split; [now left|exact H].
        * right. exists f'. split; [now right|exact H].
      + intros [H|(f' & [<-|Hf'] & H)]; [now left; left| |].
        * left; right. exact H.
        * right. exists f'. split; assumption. }
  destruct (G faces ([], [])) as (I & C).
  - constructor; simpl.
    + constructor.
    + intros v. split; [intros []|congruence].
    + intros v k. discriminate.
  - split; [exact I|]. intros v. rewrite C. simpl. tauto.
Qed.

Lemma local_index_spec g2l l2g v :
  local_map_inv g2l l2g -> In v l2g ->
  local_index g2l v < length l2g /\ nth (local_index g2l v) l2g 0 = v.
Proof.
  intros [ND Dom Inv] H. unfold local_index. apply Dom in H.
  destruct (int_map_find v g2l) as [k|] eqn:E; [|congruence].
  now apply Inv.
Qed.

Lemma local_index_inj g2l l2g v w :
  local_map_inv g2l l2g -> In v l2g -> In w l2g ->
  local_index g2l v = local_index g2l w -> v = w.
Proof.
  intros I Hv Hw E.
  destruct (@local_index_spec g2l l2g v I Hv) as (_ & <-).
  destruct (@local_index_spec g2l l2g w I Hw) as (_ & <-). now rewrite E.
Qed.

Lemma Edge_eqb_eq (x y : Edge) : Edge_eqb x y = true -> x = y.
Proof.
  destruct x as [a b], y as [c d]. unfold Edge_eqb. simpl. intros H.
  apply andb_prop in H. destruct H as (H1 & H2).
  apply Nat.eqb_eq in H1, H2. now subst.
Qed.

Lemma map_set_keys {V} (e : Edge) (x : V) m k :
  In k (map fst (map_set e x m)) -> k = e \/ In k (map fst m).
Proof.
  induction m as [|[k' i] t IH]; simpl.
  - intros [<-|[]]. now left.
  - destruct (Edge_lt e k'); simpl.
    + intros [<-|H]; auto.
    + destruct (Edge_eqb e k') eqn:E; simpl.
      * intros [<-|H]; auto.
      * intros [<-|H]; auto. destruct (IH H); auto.
Qed.

Lemma mk_Edge_ends a b :
  (fst (mk_Edge a b) = a \/ fst (mk_Edge a b) = b) /\
  (snd (mk_Edge a b) = a \/ snd (mk_Edge a b) = b).
Proof. unfold mk_Edge. destruct (a <? b); simpl; auto. Qed.

Lemma tri_edges_verts t ab :
  In ab (tri_edges t) -> In (fst ab) (tri_verts t) /\ In (snd ab) (tri_verts t).
Proof.
  destruct t as [[a b] c]. simpl.
  intros [<-|[<-|[<-|[]]]]; simpl; auto.
Qed.

Lemma edge_counts_keys {T} (mesh : Mesh T) faces k :
  In k (map fst (edge_counts mesh faces)) ->
  exists f, In f faces /\ In (fst k) (face_verts mesh f) /\ In (snd k) (face_verts mesh f).
Proof.
  unfold edge_counts.
  set (P := fun m : edge_map nat => forall k, In k (map fst m) ->
              exists f, In f faces /\ In (fst k) (face_verts mesh f) /\
                        In (snd k) (face_verts mesh f)).
  intros H. revert k H. change (P (fold_left
    (fun m f => fold_left count_edge (tri_edges (nth f (triangles mesh) (0, 0, 0))) m)
    faces [])).
  apply fold_left_invariant.
  - intros k [].
  - intros m f Hf Hm.
    apply fold_left_invariant; [exact Hm|].
    intros m' ab Hab Hm' k Hk. unfold count_edge in Hk.
    assert (Hk' : k = mk_Edge (fst ab) (snd ab) \/ In k (map fst m')).
    { destruct (map_find (mk_Edge (fst ab) (snd ab)) m'); now apply map_set_keys in Hk. }
    destruct Hk' as [->|Hk']; [|now apply Hm'].
    exists f. split; [exact Hf|].
    destruct (tri_edges_verts _ _ Hab) as (Ha & Hb).
    destruct (mk_Edge_ends (fst ab) (snd ab)) as ([-> | ->] & [-> | ->]);
      unfold face_verts; auto.
Qed.

(** The boundary vertices are vertices of the island, in increasing
    order. *)
Lemma find_boundary_vertices_spec {T} (mesh : Mesh T) faces :
  StronglySorted lt (find_boundary_vertices mesh faces) /\
  forall v, In v (find_boundary_vertices mesh faces) ->
            exists f, In f faces /\ In v (face_verts mesh f).
Proof.
  unfold find_boundary_vertices. destruct faces as [|f0 fs]; [split; [constructor|intros v []]|].
  set (faces := f0 :: fs).
  pose proof (@edge_counts_keys T mesh faces) as K.
  set (P := fun s : list nat => StronglySorted lt s /\
              forall v, In v s -> exists f, In f faces /\ In v (face_verts mesh f)).
  change (P (fold_left boundary_step (edge_counts mesh faces) [])).
  apply fold_left_invariant.
  - split; [constructor|intros v []].
  - intros s item Hitem (Ss & Hs). unfold boundary_step.
    destruct (snd item =? 1); [|split; assumption].
    split; [now apply set_insert_sorted, set_insert_sorted|].
    assert (Hk : In (fst item) (map fst (edge_counts mesh faces))) by now apply in_map.
    destruct (K _ Hk) as (f & Hf & Ha & Hb).
    intros v Hv. apply in_set_insert in Hv. destruct Hv as [->|Hv]; [eauto|].
    apply in_set_insert in Hv. destruct Hv as [->|Hv]; [eauto|now apply Hs].
Qed.

Lemma index_pairs_spec nb i k : In (i, k) (index_pairs nb) -> i < k < nb.
Proof.
  unfold index_pairs. intros H. apply in_flat_map in H.
  destruct H as (i' & Hi' & H). apply in_map_iff in H.
  destruct H as (k' & E & Hk'). inversion E; subst.
  apply in_seq in Hi'. apply in_seq in Hk'. lia.
Qed.

Section Pins.
Context {T : Type} {ST : Scalar T}.
Variable vec3_dist : T * T * T -> T * T * T -> T.

(** The two pinned vertices are two different vertices of the island. *)
Lemma select_pins_distinct (mesh : Mesh T) faces :
  let g2l := fst (local_vertex_map mesh faces) in
  let l2g := snd (local_vertex_map mesh faces) in
  3 <= length l2g ->
  fst (select_pins vec3_dist mesh faces g2l l2g) <> snd (select_pins vec3_dist mesh faces g2l l2g) /\
  fst (select_pins vec3_dist mesh faces g2l l2g) < length l2g /\
  snd (select_pins vec3_dist mesh faces g2l l2g) < length l2g.
Proof.
  cbv zeta. destruct (local_vertex_map_spec mesh faces) as (I & C).
  set (g2l := fst (local_vertex_map mesh faces)) in *.
  set (l2g := snd (local_vertex_map mesh faces)) in *.
  intros Hn. unfold select_pins.
  destruct (find_boundary_vertices_spec mesh faces) as (Sb & Hb).
  set (bv := find_boundary_vertices mesh faces) in *.
  assert (NDb : NoDup bv) by now apply sorted_lt_NoDup.
  assert (Hin : forall i, i < length bv -> In (nth i bv 0) l2g).
  { intros i Hi. apply C. apply Hb. now apply nth_In. }
  assert (Pair : forall i k, i < k -> k < length bv ->
            local_index g2l (nth i bv 0) <> local_index g2l (nth k bv 0) /\
            local_index g2l (nth i bv 0) < length l2g /\
            local_index g2l (nth k bv 0) < length l2g).
  { intros i k Hik Hk.
    assert (Hi : i < length bv) by lia.
    split; [|split; apply (@local_index_spec g2l l2g); auto].
    intros E. apply (@local_index_inj g2l l2g) in E; auto.
    rewrite NoDup_nth in NDb. specialize (NDb i k Hi Hk E). lia. }
  destruct (2 <=? length bv) eqn:B2.
  - set (P := fun st : T * nat * nat =>
                snd (fst st) <> snd st /\ snd (fst st) < length l2g /\ snd st < length l2g).
    assert (HP : P (fold_left (farthest_pair_step vec3_dist mesh g2l l2g bv)
                              (index_pairs (length bv)) (s_neg s_one, 0, length l2g - 1))).
    { apply fold_left_invariant.
      - unfold P; simpl. lia.
      - intros [[d p1] p2] [i k] Hik HPa. apply index_pairs_spec in Hik.
        unfold farthest_pair_step. simpl.
        destruct (s_ltb d _); [|exact HPa].
        unfold P; simpl. apply Pair; lia. }
    destruct (fold_left _ _ _) as [[d p1] p2]. unfold P in HP; simpl in HP.
    destruct (200 <? length bv) eqn:B200; cbn [fst snd]; [|exact HP].
    apply Nat.ltb_lt in B200. apply Pair.
    + apply Nat.div_str_pos. lia.
    + apply Nat.div_lt; lia.
  - set (P := fun st : T * nat => 1 <= snd st < length l2g).
    assert (HP : P (fold_left (farthest_from_first vec3_dist mesh l2g
                                 (get_vertex_position mesh (nth 0 l2g 0)))
                              (seq 1 (length l2g - 1)) (s_neg s_one, length l2g - 1))).
    { apply fold_left_invariant.
      - unfold P; simpl. lia.
      - intros [d p2] i Hi HPa. apply in_seq in Hi.
        unfold farthest_from_first. simpl.
        destruct (s_ltb d _); [|exact HPa]. unfold P; simpl. lia. }
    destruct (fold_left _ _ _) as [d p2]. unfold P in HP; simpl in *. lia.
Qed.

End Pins.

(* ------------------------------------------------------------------ *)
(** ** LSCM: the pinned unknowns of the solved system *)

Section LSCMReal.
Local Open Scope R_scope.

Lemma matvec_nil (x : list R) r : matvec [] x r = 0.
Proof. reflexivity. Qed.

Lemma matvec_cons (it : triplet R) l x r :
  matvec (it :: l) x r =
  if (t_row it =? r)%nat then t_val it * nth (t_col it) x 0 + matvec l x r
  else matvec l x r.
Proof. reflexivity. Qed.

Lemma matvec_app (l1 l2 : list (triplet R)) x r :
  matvec (l1 ++ l2) x r = matvec l1 x r + matvec l2 x r.
Proof.
  induction l1 as [|it l1 IH]; [rewrite matvec_nil; simpl; lra|].
  rewrite <- app_comm_cons, !matvec_cons, IH.
  destruct (t_row it =? r)%nat; lra.
Qed.

Lemma matvec_add_triplet (t : triplet R) m x r :
  matvec (add_triplet t m) x r = matvec (t :: m) x r.
Proof.
  induction m as [|e m IH]; [reflexivity|].
  cbn [add_triplet].
  destruct (Nat.eqb_spec (t_row e) (t_row t)) as [Er|Er];
    [destruct (Nat.eqb_spec (t_col e) (t_col t)) as [Ec|Ec]|]; cbn [andb].
  - rewrite !matvec_cons. unfold t_row, t_col, t_val in *. cbn [fst snd].
    rewrite Er, Ec. destruct (fst (fst t) =? r)%nat; cbn [s_add Scalar_R]; lra.
  - rewrite matvec_cons, IH, !matvec_cons.
    destruct (t_row e =? r)%nat, (t_row t =? r)%nat; lra.
  - rewrite matvec_cons, IH, !matvec_cons.
    destruct (t_row e =? r)%nat, (t_row t =? r)%nat; lra.
Qed.

(** A matrix set from triplets acts as the sum of the triplets. *)
Lemma matvec_setFromTriplets (ts : list (triplet R)) x r :
  matvec (setFromTriplets ts) x r = matvec ts x r.
Proof.
  unfold setFromTriplets.
  assert (G : forall m, matvec (fold_left (fun m t => add_triplet t m) ts m) x r
                        = matvec ts x r + matvec m x r).
  { induction ts as [|t ts IH]; intros m; cbn [fold_left]; [rewrite matvec_nil; lra|].
    rewrite IH, matvec_add_triplet, !matvec_cons.
    destruct (t_row t =? r)%nat; lra. }
  rewrite G, matvec_nil. lra.
Qed.

Lemma is_pinned_true pv i : is_pinned pv i = true <-> In i pv.
Proof.
  unfold is_pinned. rewrite existsb_exists. split.
  - intros (p & Hp & E). apply Nat.eqb_eq in E. now subst.
  - intros H. exists i. split; [exact H|apply Nat.eqb_refl].
Qed.

(** Row [p] of [A_triplets], [p] a pinned unknown: the diagonal
    coefficient 1 when [A] stores its diagonal coefficient, nothing when
    it does not. *)
Lemma constrained_row pv (A : list (triplet R)) x p :
  In p pv -> compressed A ->
  matvec (flat_map (constrain_entry pv) A) x p =
  if has_diagonal A p then nth p x 0 else 0.
Proof.
  intros Hp. apply is_pinned_true in Hp. unfold compressed, has_diagonal.
  induction A as [|it A IH]; intros ND; [reflexivity|].
  simpl in ND. inversion ND as [|? ? Hn ND']; subst.
  cbn [flat_map existsb]. rewrite matvec_app, (IH ND').
  destruct (Nat.eqb_spec (t_row it) p) as [Er|Er]; cbn [andb orb].
  - destruct (Nat.eqb_spec (t_col it) p) as [Ec|Ec]; cbn [andb orb].
    + assert (Hno : existsb (fun it0 => (t_row it0 =? p)%nat && (t_col it0 =? p)%nat) A = false).
      { apply not_true_is_false. intros H. apply existsb_exists in H.
        destruct H as (it' & Hin & H). apply andb_prop in H. destruct H as (H1 & H2).
        apply Nat.eqb_eq in H1, H2. apply Hn.
        replace (fst it) with (fst it'); [now apply in_map|].
        destruct it as [[a b] c], it' as [[a' b'] c'].
        unfold t_row, t_col in *. simpl in *. congruence. }
      rewrite Hno. unfold constrain_entry. rewrite Er, Ec, Hp. cbn [orb].
      rewrite Nat.eqb_refl, matvec_cons, matvec_nil.
      unfold t_row, t_col, t_val. cbn [fst snd]. rewrite Nat.eqb_refl.
      cbn [s_one Scalar_R]. lra.
    + unfold constrain_entry. rewrite Er, Hp. cbn [orb].
      replace (p =? t_col it)%nat with false
        by (symmetry; apply Nat.eqb_neq; congruence).
      rewrite matvec_nil. lra.
  - assert (Z : matvec (constrain_entry pv it) x p = 0).
    { unfold constrain_entry.
      destruct (is_pinned pv (t_row it) || is_pinned pv (t_col it)).
      - destruct (t_row it =? t_col it)%nat; [|reflexivity].
        rewrite matvec_cons, matvec_nil. unfold t_row at 1. cbn [fst snd].
        replace (t_row it =? p)%nat with false by (symmetry; now apply Nat.eqb_neq).
        reflexivity.
      - rewrite matvec_cons, matvec_nil. unfold t_row at 1. cbn [fst snd].
        replace (t_row it =? p)%nat with false by (symmetry; now apply Nat.eqb_neq).
        reflexivity. }
    rewrite Z. lra.
Qed.

(** Lines 466-468: [b(pinned_vars[k]) = pinned_vals[k]]. *)
Lemma rhs_fold_lookup (kvs : list (nat * R)) i v : forall b,
  NoDup (map fst kvs) -> In (i, v) kvs -> (i < length b)%nat ->
  nth i (fold_left (fun b iv => upd b (fst iv) (snd iv)) kvs b) 0 = v.
Proof.
  induction kvs as [|[k w] kvs IH]; intros b ND Hin Hi; [destruct Hin|].
  simpl in ND. inversion ND as [|? ? Hn ND']; subst. simpl.
  destruct Hin as [E|Hin].
  - inversion E; subst.
    assert (G : forall kvs' b', ~ In i (map fst kvs') ->
              nth i (fold_left (fun b iv => upd b (fst iv) (snd iv)) kvs' b') 0
              = nth i b' 0).
    { induction kvs' as [|[k' w'] kvs' IH']; intros b' H; simpl; [reflexivity|].
      simpl in H. rewrite IH' by tauto. apply nth_upd_neq. tauto. }
    rewrite G by exact Hn. now apply nth_upd_eq.
  - apply IH; auto. now rewrite upd_length.
Qed.

Lemma move_column_length (A : list (triplet R)) b iv :
  length (move_column A b iv) = length b.
Proof.
  unfold move_column. generalize (filter (fun it => (t_col it =? fst iv)%nat) A).
  intros l. revert b. induction l as [|it l IH]; intros b; simpl; [reflexivity|].
  rewrite IH. destruct (negb (t_row it =? fst iv)%nat); [apply upd_length|reflexivity].
Qed.

Lemma constrain_system_rhs n (A : list (triplet R)) p1 p2 :
  p1 <> p2 -> (p1 < n)%nat -> (p2 < n)%nat ->
  let b := snd (constrain_system n A p1 p2) in
  nth (p1 * 2) b 0 = 0 /\ nth (p1 * 2 + 1) b 0 = 0 /\
  nth (p2 * 2) b 0 = 1 /\ nth (p2 * 2 + 1) b 0 = 0.
Proof.
  intros Hne H1 H2. unfold constrain_system. cbn [snd].
  set (b1 := fold_left (move_column A) _ _).
  assert (L : length b1 = (2 * n)%nat).
  { unfold b1. generalize (combine (pinned_vars p1 p2) (@pinned_vals R _)).
    intros l. generalize (@repeat R s_zero (2 * n)) (@repeat_length R s_zero (2 * n)).
    induction l as [|iv l IH]; intros b Hb; simpl; [exact Hb|].
    apply IH. now rewrite move_column_length. }
  assert (ND : NoDup (map fst (combine (pinned_vars p1 p2) (@pinned_vals R _)))).
  { simpl. repeat constructor; simpl; intuition lia. }
  repeat split; apply rhs_fold_lookup; auto; simpl; try lia; auto 6.
Qed.

End LSCMReal.

Section LSCMPins.
Context {T : Type} {ST : Scalar T} {D : Type} {SD : Scalar D}.
Variable vec3_dist : T * T * T -> T * T * T -> T.
Variable assemble : Mesh T -> list nat -> list (nat * nat) -> list (triplet D).
Variable Factor : Type.
Variable lu_compute : list (triplet D) -> option Factor.
Variable lu_solve : Factor -> list D -> option (list D).

Lemma add_triplet_fresh (t : triplet D) m :
  (forall e, In e m -> fst e <> fst t) -> add_triplet t m = m ++ [t].
Proof.
  induction m as [|e m IH]; intros H; [reflexivity|].
  cbn [add_triplet].
  destruct ((t_row e =? t_row t) && (t_col e =? t_col t)) eqn:E.
  - exfalso. apply (H e (or_introl eq_refl)).
    apply andb_prop in E. destruct E as (E1 & E2).
    apply Nat.eqb_eq in E1, E2.
    destruct e as [[a b] c], t as [[a' b'] c']. unfold t_row, t_col in *.
    simpl in *. congruence.
  - cbn [app]. f_equal. apply IH. intros e' He'. apply H. now right.
Qed.

(** [setFromTriplets] adds nothing up when every position occurs once. *)
Lemma setFromTriplets_compressed (ts : list (triplet D)) :
  compressed ts -> setFromTriplets ts = ts.
Proof.
  unfold setFromTriplets, compressed.
  assert (G : forall m, NoDup (map fst (m ++ ts)) ->
            fold_left (fun m t => add_triplet t m) ts m = m ++ ts).
  { induction ts as [|t ts IH]; intros m ND; cbn [fold_left]; [now rewrite app_nil_r|].
    rewrite add_triplet_fresh.
    - rewrite IH; rewrite <- app_assoc; [reflexivity|exact ND].
    - intros e He E. rewrite map_app in ND. apply NoDup_remove_2 in ND.
      apply ND. apply in_or_app. left. rewrite <- E. now apply in_map. }
  intros ND. apply (G [] ND).
Qed.

Lemma constrain_entry_position pv (it it' : triplet D) :
  In it' (constrain_entry pv it) -> fst it' = fst it.
Proof.
  unfold constrain_entry.
  destruct (is_pinned pv (t_row it) || is_pinned pv (t_col it)).
  - destruct (t_row it =? t_col it); [|intros []].
    intros [<-|[]]. now destruct it as [[a b] c].
  - intros [<-|[]]. now destruct it as [[a b] c].
Qed.

Lemma constrained_compressed pv (A : list (triplet D)) :
  compressed A -> compressed (flat_map (constrain_entry pv) A).
Proof.
  unfold compressed. induction A as [|it A IH]; intros ND; [constructor|].
  simpl in ND. inversion ND as [|? ? Hn ND']; subst.
  cbn [flat_map]. rewrite map_app.
  assert (K : forall k, In k (map fst (flat_map (constrain_entry pv) A)) ->
                        In k (map fst A)).
  { intros k Hk. apply in_map_iff in Hk. destruct Hk as (e & <- & He).
    apply in_flat_map in He. destruct He as (e0 & He0 & He).
    rewrite (constrain_entry_position _ _ _ He). now apply in_map. }
  unfold constrain_entry at 1.
  destruct (is_pinned pv (t_row it) || is_pinned pv (t_col it)).
  - destruct (t_row it =? t_col it); cbn [map app]; [|now apply IH].
    constructor; [|now apply IH]. intros H. apply K in H.
    unfold t_row, t_col in H. now destruct it as [[a b] c].
  - cbn [map app]. constructor; [|now apply IH]. intros H. apply K in H.
    unfold t_row, t_col in H. now destruct it as [[a b] c].
Qed.

(** The equation of a pinned unknown in [A_triplets]. *)
Lemma constrained_unit_equation pv (A : list (triplet D)) r :
  In r pv -> unit_equation (flat_map (constrain_entry pv) A) r.
Proof.
  intros Hr it Hin Ht. apply in_flat_map in Hin. destruct Hin as (it0 & _ & Hin).
  unfold constrain_entry in Hin.
  assert (Pr : is_pinned pv r = true).
  { unfold is_pinned. apply existsb_exists. exists r. split; [exact Hr|apply Nat.eqb_refl]. }
  destruct (is_pinned pv (t_row it0) || is_pinned pv (t_col it0)) eqn:P.
  - destruct (Nat.eqb_spec (t_row it0) (t_col it0)) as [E|E]; [|destruct Hin].
    destruct Hin as [<-|[]]. unfold t_row, t_col in Ht. cbn [fst snd] in Ht.
    fold (t_row it0) (t_col it0) in Ht.
    assert (t_row it0 = r) by (destruct Ht; congruence).
    rewrite <- E. now subst r.
  - destruct Hin as [<-|[]]. unfold t_row, t_col in Ht. cbn [fst snd] in Ht.
    fold (t_row it0) (t_col it0) in Ht.
    apply orb_false_elim in P. destruct P as (P1 & P2).
    destruct Ht as [E|E]; rewrite E in *; congruence.
Qed.

Lemma pinned_rhs_length (kvs : list (nat * D)) : forall b,
  length (fold_left (fun b iv => upd b (fst iv) (snd iv)) kvs b) = length b.
Proof.
  induction kvs as [|kv kvs IH]; intros b; simpl; [reflexivity|].
  now rewrite IH, upd_length.
Qed.

(** Lines 466-468: [b(pinned_vars[k]) = pinned_vals[k]]. *)
Lemma pinned_rhs_lookup (kvs : list (nat * D)) i v : forall b,
  NoDup (map fst kvs) -> In (i, v) kvs -> i < length b ->
  nth i (fold_left (fun b iv => upd b (fst iv) (snd iv)) kvs b) s_zero = v.
Proof.
  induction kvs as [|[k w] kvs IH]; intros b ND Hin Hi; [destruct Hin|].
  simpl in ND. inversion ND as [|? ? Hn ND']; subst. simpl.
  destruct Hin as [E|Hin].
  - inversion E; subst.
    assert (G : forall kvs' b', ~ In i (map fst kvs') ->
              nth i (fold_left (fun b iv => upd b (fst iv) (snd iv)) kvs' b') s_zero
              = nth i b' s_zero).
    { induction kvs' as [|[k' w'] kvs' IH']; intros b' H; simpl; [reflexivity|].
      simpl in H. rewrite IH' by tauto. apply nth_upd_neq. tauto. }
    rewrite G by exact Hn. now apply nth_upd_eq.
  - apply IH; auto. now rewrite upd_length.
Qed.

Lemma moved_columns_length (A : list (triplet D)) kvs : forall b,
  length (fold_left (move_column A) kvs b) = length b.
Proof.
  induction kvs as [|iv kvs IH]; intros b; cbn [fold_left]; [reflexivity|].
  rewrite IH. unfold move_column.
  generalize (filter (fun it => t_col it =? fst iv) A). intros l. revert b.
  induction l as [|it l IHl]; intros b; simpl; [reflexivity|].
  rewrite IHl. destruct (negb (t_row it =? fst iv)); [apply upd_length|reflexivity].
Qed.

(** The right-hand side: [2n] entries, with the pinned values at the
    pinned unknowns. *)
Lemma pinned_rhs n (A : list (triplet D)) p1 p2 :
  p1 <> p2 -> p1 < n -> p2 < n ->
  let b := snd (constrain_system n A p1 p2) in
  length b = 2 * n /\
  nth (p1 * 2) b s_zero = s_zero /\ nth (p1 * 2 + 1) b s_zero = s_zero /\
  nth (p2 * 2) b s_zero = s_one /\ nth (p2 * 2 + 1) b s_zero = s_zero.
Proof.
  intros Hne H1 H2. unfold constrain_system. cbn [snd].
  set (b1 := fold_left (move_column A) _ _).
  assert (L : length b1 = 2 * n).
  { unfold b1. now rewrite moved_columns_length, repeat_length. }
  assert (ND : NoDup (map fst (combine (pinned_vars p1 p2) (@pinned_vals D _)))).
  { simpl. repeat constructor; simpl; intuition lia. }
  split; [now rewrite pinned_rhs_length|].
  repeat split; apply pinned_rhs_lookup; auto; simpl; try lia; auto 6.
Qed.

(** C2.  When the factorisation and the solve of [lscm_parameterize]
    succeed, the solved vector [x] of [solver.solve(b)], before the
    conversion to [float] and the normalisation, has (0, 0) at the
    first pinned vertex and (1, 0) at the second, in the arithmetic of
    the solver: the four pinned unknowns have unit equations in
    [A_final], with these values on the right-hand side, and the two
    pinned vertices are different. *)
Theorem lscm_pins_exact (mesh : Mesh T) faces sys x :
  solves_unit_equations lu_compute lu_solve ->
  (forall m f g, compressed (assemble m f g)) ->
  lscm_system vec3_dist assemble mesh faces = Some sys ->
  lscm_solve lu_compute lu_solve sys = Some x ->
  nth (ls_pin1 sys * 2) x s_zero = s_zero /\
  nth (ls_pin1 sys * 2 + 1) x s_zero = s_zero /\
  nth (ls_pin2 sys * 2) x s_zero = s_one /\
  nth (ls_pin2 sys * 2 + 1) x s_zero = s_zero.
Proof.
  intros LU C E Sol. unfold lscm_system in E.
  destruct faces as [|f0 fs]; [discriminate|].
  set (faces := f0 :: fs) in *.
  pose proof (select_pins_distinct vec3_dist mesh faces) as P. cbv zeta in P.
  destruct (local_vertex_map mesh faces) as [g2l l2g]. cbn [fst snd] in P.
  destruct (Nat.ltb_spec (length l2g) 3) as [|Hn]; [discriminate|].
  specialize (P Hn).
  destruct (select_pins vec3_dist mesh faces g2l l2g) as [p1 p2]. cbn [fst snd] in P.
  destruct P as (Hne & H1 & H2).
  set (n := length l2g) in *.
  set (A := assemble mesh faces g2l) in *.
  pose proof (@pinned_rhs n A p1 p2 Hne H1 H2) as B. cbv zeta in B.
  assert (CA : compressed A) by apply C.
  assert (AF : fst (constrain_system n A p1 p2)
               = flat_map (constrain_entry (pinned_vars p1 p2)) A).
  { unfold constrain_system. cbn [fst].
    apply setFromTriplets_compressed. now apply constrained_compressed. }
  destruct (constrain_system n A p1 p2) as [A_final b] eqn:CS.
  cbn [fst snd] in *. destruct B as (L & B1 & B2 & B3 & B4).
  inversion E; subst sys; clear E.
  unfold lscm_solve in Sol. cbn [ls_n ls_pin1 ls_pin2 ls_A_final ls_b] in *.
  destruct (lu_compute A_final) as [f|] eqn:Cf; [|discriminate].
  assert (PS : forall p, In p (pinned_vars p1 p2) -> p < 2 * n ->
            nth p x s_zero = nth p b s_zero).
  { intros p Hp Hlt. apply (LU A_final b f x); auto.
    - rewrite AF. now apply constrained_compressed.
    - now rewrite L.
    - rewrite AF. now apply constrained_unit_equation. }
  split; [rewrite PS; [exact B1|simpl; auto|lia]|].
  split; [rewrite PS; [exact B2|simpl; auto|lia]|].
  split; [rewrite PS; [exact B3|simpl; auto|lia]|].
  rewrite PS; [exact B4|simpl; auto|lia].
Qed.

End LSCMPins.

Lemma tri_A_compressed : compressed tri_A.
Proof.
  unfold compressed, tri_A. cbn [map fst].
  repeat (constructor; [cbn [In]; intuition congruence|]). constructor.
Qed.

Lemma lscm_pins_exact_witness :
  let x := ls_b tri_system in
  nth (ls_pin1 tri_system * 2) x 0%R = 0%R /\
  nth (ls_pin1 tri_system * 2 + 1) x 0%R = 0%R /\
  nth (ls_pin2 tri_system * 2) x 0%R = 1%R /\
  nth (ls_pin2 tri_system * 2 + 1) x 0%R = 0%R.
Proof.
  refine (@lscm_pins_exact binary32 Scalar_binary32 R Scalar_R vec3_dist32 tri_assemble
            unit trivial_compute trivial_solve tri_mesh [0%nat] tri_system
            (ls_b tri_system) _ _ _ _).
  - intros A b f x _ _ Sx r _ _. unfold trivial_solve in Sx. now inversion Sx.
  - intros m f g. apply tri_A_compressed.
  - unfold lscm_system.
    replace (local_vertex_map tri_mesh [0%nat])
      with ([(2, 2); (1, 1); (0, 0)]%nat, [0; 1; 2]%nat) by (vm_compute; reflexivity).
    cbn [length Nat.ltb Nat.leb].
    replace (select_pins vec3_dist32 tri_mesh [0%nat] [(2, 2); (1, 1); (0, 0)]%nat
                         [0; 1; 2]%nat)
      with (1, 2)%nat by (vm_compute; reflexivity).
    unfold tri_system, tri_assemble.
    destruct (constrain_system 3 tri_A 1 2); reflexivity.
  - reflexivity.
Defined.

(* ================================================================== *)
(** ** LSCM: failure and size of the result *)

Lemma normalize_length {T} {ST : Scalar T} (uvs : list (T * T)) :
  length (normalize_uvs_to_unit_square uvs) = length uvs.
Proof.
  unfold normalize_uvs_to_unit_square. destruct uvs as [|p uvs]; [reflexivity|].
  destruct (fold_left bbox_step (p :: uvs) bbox_init) as [[[min_u max_u] min_v] max_v].
  apply length_map.
Qed.

Section LSCMResult.
Context {T : Type} {ST : Scalar T} {D : Type} {SD : Scalar D}.
Variable vec3_dist : T * T * T -> T * T * T -> T.
Variable assemble : Mesh T -> list nat -> list (nat * nat) -> list (triplet D).
Variable Factor : Type.
Variable lu_compute : list (triplet D) -> option Factor.
Variable lu_solve : Factor -> list D -> option (list D).
Variable d2f : D -> T.

Lemma extract_uvs_length n (x : list D) : length (extract_uvs d2f n x) = n.
Proof. unfold extract_uvs. now rewrite length_map, length_seq. Qed.

(** C5.  [local_to_global] lists once each the vertices that the
    island's triangles reference, [n] of them.  With [n < 3] the result
    is null.  With [3 <= n] the system is built; the result is null when
    [compute] fails and when [solve] fails, and an array of [n] UV pairs
    when both succeed. *)
Theorem lscm_parameterize_result (mesh : Mesh T) (faces : list nat) :
  let l2g := snd (local_vertex_map mesh faces) in
  let n := length l2g in
  let r := lscm_parameterize vec3_dist assemble lu_compute lu_solve d2f
                             (Some mesh) (Some faces) in
  (NoDup l2g /\
   forall v, In v l2g <-> exists f, In f faces /\ In v (face_verts mesh f)) /\
  (n < 3 -> r = None) /\
  (3 <= n ->
   exists sys, lscm_system vec3_dist assemble mesh faces = Some sys /\
     ls_n sys = n /\ ls_local_to_global sys = l2g /\
     match lu_compute (ls_A_final sys) with
     | None => r = None
     | Some solver =>
       match lu_solve solver (ls_b sys) with
       | None => r = None
       | Some x => exists uvs, r = Some uvs /\ length uvs = n
       end
     end).
Proof.
  intros l2g n r.
  destruct (local_vertex_map_spec mesh faces) as ([ND _ _] & Cov).
  split; [split; [exact ND|exact Cov]|].
  subst r. unfold lscm_parameterize, lscm_system.
  destruct faces as [|f0 fs].
  - split; [reflexivity|]. intros H. subst n l2g. simpl in H. lia.
  - set (faces := f0 :: fs) in *. subst n l2g.
    destruct (local_vertex_map mesh faces) as [g2l l2g]. cbn [snd].
    destruct (Nat.ltb_spec (length l2g) 3) as [Hlt|Hge].
    + split; [reflexivity|lia].
    + split; [lia|]. intros _.
      destruct (select_pins vec3_dist mesh faces g2l l2g) as [p1 p2].
      destruct (constrain_system (length l2g) (assemble mesh faces g2l) p1 p2)
        as [A_final b].
      eexists. split; [reflexivity|]. cbn [ls_n ls_local_to_global ls_A_final ls_b].
      split; [reflexivity|]. split; [reflexivity|].
      unfold lscm_solve. cbn [ls_n ls_A_final ls_b].
      destruct (lu_compute A_final) as [solver|]; [|reflexivity].
      destruct (lu_solve solver b) as [x|]; [|reflexivity].
      eexists. split; [reflexivity|].
      now rewrite normalize_length, extract_uvs_length.
Qed.

End LSCMResult.

(* ================================================================== *)
(** * Further properties of the sources *)

(* ------------------------------------------------------------------ *)
(** ** build_topology: the edge array and the incident faces *)

Lemma Edge_lt_less x y : Edge_lt x y = true <-> Edge_less x y.
Proof.
  unfold Edge_lt, Edge_less.
  destruct (Nat.eqb_spec (fst x) (fst y)) as [E|E]; simpl;
    rewrite Nat.ltb_lt; lia.
Qed.

Lemma Edge_eqb_true x y : Edge_eqb x y = true <-> x = y.
Proof.
  split; [apply Edge_eqb_eq|]. intros <-. unfold Edge_eqb.
  now rewrite !Nat.eqb_refl.
Qed.

Lemma Edge_less_trans x y z : Edge_less x y -> Edge_less y z -> Edge_less x z.
Proof. unfold Edge_less. lia. Qed.

Lemma Edge_less_irrefl x : ~ Edge_less x x.
Proof. unfold Edge_less. lia. Qed.

Lemma Edge_trichotomy x y : Edge_lt x y = false -> Edge_eqb x y = false -> Edge_less y x.
Proof.
  intros L E. unfold Edge_less.
  assert (H1 : ~ Edge_less x y) by (rewrite <- Edge_lt_less; congruence).
  assert (H2 : x <> y) by (rewrite <- Edge_eqb_true; congruence).
  unfold Edge_less in H1. destruct x as [a b], y as [c d]. simpl in *.
  assert (a <> c \/ b <> d) by (destruct (Nat.eq_dec a c); [right; congruence|now left]).
  lia.
Qed.

(** [find] after [m[e] = info]. *)
Lemma map_find_set {V} (e k : Edge) (info : V) (m : edge_map V) :
  map_find k (map_set e info m) = if Edge_eqb k e then Some info else map_find k m.
Proof.
  induction m as [|[k' i] m IH]; simpl.
  - destruct (Edge_eqb k e); reflexivity.
  - destruct (Edge_lt e k') eqn:L; simpl.
    + destruct (Edge_eqb k e); reflexivity.
    + destruct (Edge_eqb e k') eqn:E; simpl.
      * apply Edge_eqb_true in E. subst k'.
        destruct (Edge_eqb k e); reflexivity.
      * rewrite IH. destruct (Edge_eqb k k') eqn:E'; [|reflexivity].
        apply Edge_eqb_true in E'. subst k'.
        destruct (Edge_eqb k e) eqn:E2; [|reflexivity].
        apply Edge_eqb_true in E2. subst k.
        rewrite (proj2 (Edge_eqb_true e e) eq_refl) in E. discriminate.
Qed.

Lemma in_map_set_key {V} (e : Edge) (info : V) (m : edge_map V) k i :
  In (k, i) (map_set e info m) -> (k = e /\ i = info) \/ In (k, i) m.
Proof.
  induction m as [|[k' i'] m IH]; simpl.
  - intros [H|[]]. inversion H. auto.
  - destruct (Edge_lt e k').
    + intros [H|H]; [inversion H; auto|auto].
    + destruct (Edge_eqb e k') eqn:E.
      * apply Edge_eqb_true in E. subst k'.
        intros [H|H]; [inversion H; auto|auto].
      * intros [H|H]; [auto|]. destruct (IH H); auto.
Qed.

Lemma map_set_sorted {V} (e : Edge) (info : V) (m : edge_map V) :
  StronglySorted (fun a b => Edge_less (fst a) (fst b)) m ->
  StronglySorted (fun a b => Edge_less (fst a) (fst b)) (map_set e info m).
Proof.
  induction 1 as [|[k i] m S IH F]; simpl.
  - repeat constructor.
  - destruct (Edge_lt e k) eqn:L.
    + apply Edge_lt_less in L. constructor; [constructor; assumption|].
      constructor; [exact L|]. rewrite Forall_forall in *. intros x Hx.
      simpl. eapply Edge_less_trans; [exact L|]. now apply F.
    + destruct (Edge_eqb e k) eqn:E.
      * constructor; assumption.
      * pose proof (Edge_trichotomy _ _ L E) as G.
        constructor; [exact IH|]. rewrite Forall_forall in *.
        intros [k' i'] Hx. simpl. apply in_map_set_key in Hx.
        destruct Hx as [[-> _]|Hx]; [exact G|apply (F _ Hx)].
Qed.

Lemma sorted_map_find {V} (m : edge_map V) k i :
  StronglySorted (fun a b => Edge_less (fst a) (fst b)) m ->
  In (k, i) m -> map_find k m = Some i.
Proof.
  induction 1 as [|[k' i'] m S IH F]; simpl; [intros []|].
  intros [H|H].
  - inversion H; subst. now rewrite (proj2 (Edge_eqb_true k k) eq_refl).
  - destruct (Edge_eqb k k') eqn:E; [|now apply IH].
    apply Edge_eqb_true in E. subst k'. rewrite Forall_forall in F.
    specialize (F _ H). simpl in F. now apply Edge_less_irrefl in F.
Qed.

Lemma map_find_some_in {V} (m : edge_map V) k i :
  map_find k m = Some i -> In (k, i) m.
Proof.
  induction m as [|[k' i'] m IH]; simpl; [discriminate|].
  destruct (Edge_eqb k k') eqn:E.
  - apply Edge_eqb_true in E. subst k'. intros H. inversion H. now left.
  - intros H. right. now apply IH.
Qed.

Lemma uses_in_app done k fab :
  uses_in (done ++ [fab]) k =
  uses_in done k ++
  (if Edge_eqb (mk_Edge (fst (snd fab)) (snd (snd fab))) k then [fst fab] else []).
Proof.
  unfold uses_in. rewrite filter_app, map_app. simpl.
  destruct (Edge_eqb _ k); reflexivity.
Qed.

(** The state of [edge_map] after the sides in [done]. *)
Lemma add_edge_recorded done m f ab :
  (forall k, map_find k m = recorded done k) ->
  forall k, map_find k (add_edge f m ab) = recorded (done ++ [(f, ab)]) k.
Proof.
  intros I k. unfold add_edge, recorded. rewrite uses_in_app. cbn [fst snd].
  set (e := mk_Edge (fst ab) (snd ab)).
  pose proof (I e) as Ie. unfold recorded in Ie.
  destruct (map_find e m) as [info|] eqn:Fe; rewrite map_find_set.
  - destruct (Edge_eqb k e) eqn:E.
    + apply Edge_eqb_true in E. subst k.
      rewrite (proj2 (Edge_eqb_true e e) eq_refl).
      destruct (uses_in done e) as [|u us]; [discriminate|].
      inversion Ie; subst info. cbn [face0 app].
      destruct us as [|u' us]; cbn [app]; [reflexivity|].
      change (u' :: us ++ [f]) with ((u' :: us) ++ [f]). now rewrite last_last.
    + assert (E' : Edge_eqb e k = false).
      { destruct (Edge_eqb e k) eqn:E2; [|reflexivity].
        apply Edge_eqb_true in E2. subst k.
        rewrite (proj2 (Edge_eqb_true e e) eq_refl) in E. discriminate. }
      rewrite E', app_nil_r. apply I.
  - destruct (Edge_eqb k e) eqn:E.
    + apply Edge_eqb_true in E. subst k.
      rewrite (proj2 (Edge_eqb_true e e) eq_refl).
      destruct (uses_in done e) as [|u us]; [reflexivity|discriminate].
    + assert (E' : Edge_eqb e k = false).
      { destruct (Edge_eqb e k) eqn:E2; [|reflexivity].
        apply Edge_eqb_true in E2. subst k.
        rewrite (proj2 (Edge_eqb_true e e) eq_refl) in E. discriminate. }
      rewrite E', app_nil_r. apply I.
Qed.

Lemma add_edge_sorted f m ab :
  StronglySorted (fun a b => Edge_less (fst a) (fst b)) m ->
  StronglySorted (fun a b => Edge_less (fst a) (fst b)) (add_edge f m ab).
Proof.
  intros S. unfold add_edge.
  destruct (map_find _ m); now apply map_set_sorted.
Qed.

Lemma build_edge_map_sides {T} (mesh : Mesh T) :
  build_edge_map mesh =
  fold_left (fun m fab => add_edge (fst fab) m (snd fab)) (sides_of (triangles mesh)) [].
Proof.
  unfold build_edge_map, sides_of, num_triangles.
  generalize (combine (seq 0 (length (triangles mesh))) (triangles mesh)).
  generalize (@nil (Edge * EdgeInfo)).
  intros m l. revert m. induction l as [|[f t] l IH]; intros m; simpl; [reflexivity|].
  rewrite fold_left_app, IH. f_equal. unfold add_face. simpl.
  generalize (tri_edges t). intros es. revert m.
  induction es as [|ab es IHe]; intros m; simpl; [reflexivity|apply IHe].
Qed.

Lemma sides_fold_spec l : forall done m,
  StronglySorted (fun a b => Edge_less (fst a) (fst b)) m ->
  (forall k, map_find k m = recorded done k) ->
  let m' := fold_left (fun m fab => add_edge (fst fab) m (snd fab)) l m in
  StronglySorted (fun a b => Edge_less (fst a) (fst b)) m' /\
  forall k, map_find k m' = recorded (done ++ l) k.
Proof.
  induction l as [|[f ab] l IH]; intros done m S I; simpl.
  - rewrite app_nil_r. auto.
  - change (done ++ (f, ab) :: l) with (done ++ [(f, ab)] ++ l). rewrite app_assoc.
    apply IH; [now apply add_edge_sorted|now apply add_edge_recorded].
Qed.

(** [edge_map] when the loops of [build_topology] end: the keys in
    strictly increasing order, each with the record of its sides. *)
Lemma build_edge_map_spec {T} (mesh : Mesh T) :
  StronglySorted (fun a b => Edge_less (fst a) (fst b)) (build_edge_map mesh) /\
  forall k, map_find k (build_edge_map mesh) = recorded (sides_of (triangles mesh)) k.
Proof.
  rewrite build_edge_map_sides.
  apply (@sides_fold_spec (sides_of (triangles mesh)) [] []); [constructor|reflexivity].
Qed.

Lemma in_sides_of tris f ab :
  In (f, ab) (sides_of tris) <->
  f < length tris /\ In ab (tri_edges (nth f tris (0, 0, 0))).
Proof.
  unfold sides_of. rewrite in_flat_map. split.
  - intros ([f' t] & Hin & H). simpl in H. apply in_map_iff in H.
    destruct H as (ab' & E & H). inversion E; subst f' ab'.
    pose proof (in_combine_l _ _ _ _ Hin) as Hf. apply in_seq in Hf.
    assert (Ht : t = nth f tris (0, 0, 0)).
    { apply In_nth with (d := (0, (0, 0, 0))) in Hin.
      destruct Hin as (n & Hn & En). rewrite length_combine, length_seq, Nat.min_id in Hn.
      rewrite combine_nth in En by now rewrite length_seq.
      rewrite seq_nth in En by exact Hn. inversion En; subst. reflexivity. }
    subst t. split; [lia|exact H].
  - intros (Hf & H). exists (f, nth f tris (0, 0, 0)). split.
    + replace (f, nth f tris (0, 0, 0))
        with (nth f (combine (seq 0 (length tris)) tris) (0, (0, 0, 0))).
      * apply nth_In. now rewrite length_combine, length_seq, Nat.min_id.
      * rewrite combine_nth by now rewrite length_seq.
        now rewrite seq_nth.
    + simpl. apply in_map. exact H.
Qed.

Lemma uses_in_nonempty done k :
  uses_in done k <> [] <->
  exists f ab, In (f, ab) done /\ mk_Edge (fst ab) (snd ab) = k.
Proof.
  unfold uses_in. split.
  - intros H. destruct (filter _ done) as [|[f ab] l] eqn:E; [now elim H|].
    assert (Hin : In (f, ab) (filter (fun fab => Edge_eqb (mk_Edge (fst (snd fab)) (snd (snd fab))) k) done))
      by (rewrite E; now left).
    apply filter_In in Hin. destruct Hin as (Hin & Hk). simpl in Hk.
    apply Edge_eqb_true in Hk. eauto.
  - intros (f & ab & Hin & Hk) H.
    assert (Hf : In (f, ab) (filter (fun fab => Edge_eqb (mk_Edge (fst (snd fab)) (snd (snd fab))) k) done)).
    { apply filter_In. split; [exact Hin|]. simpl. now apply Edge_eqb_true. }
    apply (in_map fst) in Hf. rewrite H in Hf. exact Hf.
Qed.

Lemma mk_Edge_le a b : fst (mk_Edge a b) <= snd (mk_Edge a b).
Proof. unfold mk_Edge. destruct (Nat.ltb_spec a b); simpl; lia. Qed.

Lemma StronglySorted_nth {A} (R : A -> A -> Prop) l d :
  StronglySorted R l ->
  forall i j, i < j -> j < length l -> R (nth i l d) (nth j l d).
Proof.
  induction 1 as [|a l S IH F]; intros i j Hij Hj; simpl in Hj; [lia|].
  destruct j as [|j]; [lia|]. destruct i as [|i]; simpl.
  - rewrite Forall_forall in F. apply F. apply nth_In. lia.
  - apply IH; lia.
Qed.

Lemma topology_of_edge_at {T} (mesh : Mesh T) e :
  edge_at (topology_of mesh) e = fst (nth e (build_edge_map mesh) ((0, 0), {| face0 := -1; face1 := -1 |})).
Proof.
  unfold edge_at, topology_of. simpl.
  change (0, 0) with (fst ((0, 0), {| face0 := -1; face1 := -1 |})) at 1.
  apply map_nth.
Qed.

Lemma topology_of_faces_at {T} (mesh : Mesh T) e :
  faces_at (topology_of mesh) e =
  (face0 (snd (nth e (build_edge_map mesh) ((0, 0), {| face0 := -1; face1 := -1 |}))),
   face1 (snd (nth e (build_edge_map mesh) ((0, 0), {| face0 := -1; face1 := -1 |})))).
Proof.
  unfold faces_at, topology_of. simpl.
  set (g := fun kv : Edge * EdgeInfo => (face0 (snd kv), face1 (snd kv))).
  change ((-1)%Z, (-1)%Z) with (g ((0, 0), {| face0 := -1; face1 := -1 |})).
  now rewrite map_nth.
Qed.

(** X1.  The edge array: both arrays have [num_edges] entries, every edge has
    its smaller endpoint first, and the edges are in strictly increasing
    order of [Edge::operator<], so none is stored twice. *)
Theorem build_topology_edges_sorted {T} (mesh : Mesh T) :
  length (edges (topology_of mesh)) = num_edges (topology_of mesh) /\
  length (edge_faces (topology_of mesh)) = num_edges (topology_of mesh) /\
  (forall e, e < num_edges (topology_of mesh) ->
     fst (edge_at (topology_of mesh) e) <= snd (edge_at (topology_of mesh) e)) /\
  (forall e e', e < e' -> e' < num_edges (topology_of mesh) ->
     Edge_lt (edge_at (topology_of mesh) e) (edge_at (topology_of mesh) e') = true).
Proof.
  destruct (build_edge_map_spec mesh) as (S & Rec).
  split; [apply length_map|]. split; [apply length_map|]. split.
  - intros e He. rewrite topology_of_edge_at.
    set (d := ((0, 0), {| face0 := -1; face1 := -1 |})).
    change (num_edges (topology_of mesh)) with (length (build_edge_map mesh)) in He.
    pose proof (@nth_In _ e (build_edge_map mesh) d He) as Hin.
    destruct (nth e (build_edge_map mesh) d) as [k i]. simpl.
    pose proof (@sorted_map_find _ _ k i S Hin) as Fk. rewrite Rec in Fk.
    assert (U : uses_in (sides_of (triangles mesh)) k <> []).
    { unfold recorded in Fk. destruct (uses_in _ k); [discriminate|discriminate]. }
    apply uses_in_nonempty in U. destruct U as (f & ab & _ & <-). apply mk_Edge_le.
  - intros e e' Hlt He'. rewrite !topology_of_edge_at. apply Edge_lt_less.
    apply (@StronglySorted_nth _ (fun a b => Edge_less (fst a) (fst b))); assumption.
Qed.

(** X2.  Every side of every triangle is stored in the edge array (once, the
    array being strictly increasing), and the array stores nothing
    else. *)
Theorem build_topology_edges_complete {T} (mesh : Mesh T) :
  (forall f a b, f < num_triangles mesh ->
     In (a, b) (tri_edges (nth f (triangles mesh) (0, 0, 0))) ->
     exists e, e < num_edges (topology_of mesh) /\
               edge_at (topology_of mesh) e = mk_Edge a b) /\
  (forall e, e < num_edges (topology_of mesh) ->
     exists f a b, f < num_triangles mesh /\
       In (a, b) (tri_edges (nth f (triangles mesh) (0, 0, 0))) /\
       edge_at (topology_of mesh) e = mk_Edge a b).
Proof.
  destruct (build_edge_map_spec mesh) as (S & Rec).
  set (d := ((0, 0), {| face0 := (-1)%Z; face1 := (-1)%Z |})).
  split.
  - intros f a b Hf Hab.
    assert (U : uses_in (sides_of (triangles mesh)) (mk_Edge a b) <> []).
    { apply uses_in_nonempty. exists f, (a, b). split; [|reflexivity].
      apply in_sides_of. split; assumption. }
    specialize (Rec (mk_Edge a b)). unfold recorded in Rec.
    destruct (uses_in _ (mk_Edge a b)) as [|u us]; [now elim U|].
    apply map_find_some_in in Rec.
    apply In_nth with (d := d) in Rec. destruct Rec as (e & He & Ee).
    exists e. split; [exact He|]. rewrite topology_of_edge_at. fold d. now rewrite Ee.
  - intros e He. rewrite topology_of_edge_at. fold d.
    change (num_edges (topology_of mesh)) with (length (build_edge_map mesh)) in He.
    pose proof (@nth_In _ e (build_edge_map mesh) d He) as Hin.
    destruct (nth e (build_edge_map mesh) d) as [k i]. simpl.
    pose proof (@sorted_map_find _ _ k i S Hin) as Fk. rewrite Rec in Fk.
    assert (U : uses_in (sides_of (triangles mesh)) k <> []).
    { unfold recorded in Fk. destruct (uses_in _ k); [discriminate|discriminate]. }
    apply uses_in_nonempty in U. destruct U as (f & [a b] & Hin' & <-).
    apply in_sides_of in Hin'. destruct Hin' as (Hf & Hab).
    exists f, a, b. auto.
Qed.

Lemma StronglySorted_filter {A} (R : A -> A -> Prop) (p : A -> bool) l :
  StronglySorted R l -> StronglySorted R (filter p l).
Proof.
  induction 1 as [|a l S IH F]; simpl; [constructor|].
  destruct (p a); [|exact IH]. constructor; [exact IH|].
  rewrite Forall_forall in *. intros x Hx. apply filter_In in Hx. now apply F.
Qed.

Lemma StronglySorted_map {A B} (R : B -> B -> Prop) (g : A -> B) l :
  StronglySorted (fun a b => R (g a) (g b)) l -> StronglySorted R (map g l).
Proof.
  induction 1 as [|a l S IH F]; simpl; constructor; [exact IH|].
  rewrite Forall_forall in *. intros x Hx. apply in_map_iff in Hx.
  destruct Hx as (y & <- & Hy). now apply F.
Qed.

Lemma sides_sorted tris : forall s,
  let l := flat_map (fun ft : nat * (nat * nat * nat) => map (pair (fst ft)) (tri_edges (snd ft)))
                    (combine (seq s (length tris)) tris) in
  StronglySorted (fun a b : nat * (nat * nat) => fst a <= fst b) l /\
  Forall (fun a => s <= fst a) l.
Proof.
  induction tris as [|[[a b] c] tris IH]; intros s; simpl; [split; constructor|].
  destruct (IH (S s)) as (S1 & F1). cbv zeta in S1, F1.
  assert (F2 : Forall (fun a : nat * (nat * nat) => s <= fst a)
                 (flat_map (fun ft : nat * (nat * nat * nat) => map (pair (fst ft)) (tri_edges (snd ft)))
                    (combine (seq (S s) (length tris)) tris))).
  { eapply Forall_impl; [|exact F1]. simpl. intros; lia. }
  split.
  - repeat (constructor; [|repeat (constructor; [simpl; lia|]); exact F2]). exact S1.
  - repeat (constructor; [simpl; lia|]). exact F2.
Qed.

Lemma uses_in_sorted tris k : StronglySorted le (uses_in (sides_of tris) k).
Proof.
  unfold uses_in. apply StronglySorted_map, StronglySorted_filter.
  apply (sides_sorted tris 0).
Qed.

(** X3.  The incident faces of edge [e].  Its sides, one per triangle corner
    pair that joins its endpoints, are met in ascending order of the
    face.  [edge_faces[2e]] is the face of the first side;
    [edge_faces[2e+1]] is -1 when there is one side only, and the face of
    the last side otherwise: of three or more incident faces the middle
    ones are not kept. *)
Theorem build_topology_incident_faces {T} (mesh : Mesh T) e :
  e < num_edges (topology_of mesh) ->
  let uses := edge_uses mesh (edge_at (topology_of mesh) e) in
  uses <> [] /\ StronglySorted le uses /\
  (forall f, In f uses -> f < num_triangles mesh) /\
  fst (faces_at (topology_of mesh) e) = Z.of_nat (hd 0 uses) /\
  snd (faces_at (topology_of mesh) e) =
    if length uses =? 1 then (-1)%Z else Z.of_nat (last uses 0).
Proof.
  intros He uses. subst uses. unfold edge_uses.
  destruct (build_edge_map_spec mesh) as (S & Rec).
  rewrite topology_of_edge_at, topology_of_faces_at.
  set (d := ((0, 0), {| face0 := (-1)%Z; face1 := (-1)%Z |})).
  change (num_edges (topology_of mesh)) with (length (build_edge_map mesh)) in He.
  pose proof (@nth_In _ e (build_edge_map mesh) d He) as Hin.
  destruct (nth e (build_edge_map mesh) d) as [k i]. cbn [fst snd].
  pose proof (@sorted_map_find _ _ k i S Hin) as Fk. rewrite Rec in Fk.
  unfold recorded in Fk.
  split; [|split; [apply uses_in_sorted|split]].
  - destruct (uses_in _ k); [discriminate|discriminate].
  - intros f Hf. unfold uses_in in Hf. apply in_map_iff in Hf.
    destruct Hf as ([f' ab] & <- & Hf). apply filter_In in Hf.
    destruct Hf as (Hf & _). apply in_sides_of in Hf. exact (proj1 Hf).
  - destruct (uses_in _ k) as [|u [|u' us]]; [discriminate| |];
      inversion Fk; subst i; split; reflexivity.
Qed.

Lemma build_topology_incident_faces_witness :
  let uses := edge_uses tetra_mesh (edge_at (topology_of tetra_mesh) 0) in
  uses <> [] /\ StronglySorted le uses /\
  (forall f, In f uses -> f < num_triangles tetra_mesh) /\
  fst (faces_at (topology_of tetra_mesh) 0) = Z.of_nat (hd 0 uses) /\
  snd (faces_at (topology_of tetra_mesh) 0) =
    if length uses =? 1 then (-1)%Z else Z.of_nat (last uses 0).
Proof.
  apply (@build_topology_incident_faces binary32 tetra_mesh 0). vm_compute. lia.
Defined.

(* ------------------------------------------------------------------ *)
(** ** extract_islands: the numbering of the islands *)

(** The inner loop changes unlabelled entries only, and only to [cur]. *)
Lemma bfs_loop_frame adj cur : cur <> (-1)%Z ->
  forall fuel ids q head ids' q' head',
  bfs_loop fuel adj cur ids q head = (ids', q', head') ->
  length ids' = length ids /\
  forall f, (nth f ids 0%Z <> (-1)%Z -> nth f ids' 0%Z = nth f ids 0%Z) /\
            (nth f ids' 0%Z = nth f ids 0%Z \/ nth f ids' 0%Z = cur).
Proof.
  intros Hc. induction fuel as [|fuel IH]; intros ids q head ids' q' head' E; simpl in E.
  - inversion E; subst. split; [reflexivity|]. intros f. auto.
  - destruct (head <? length q).
    2:{ inversion E; subst. split; [reflexivity|]. intros f. auto. }
    destruct (fold_left (visit cur) (nth (nth head q 0) adj []) (ids, q)) as [ids1 q1] eqn:V.
    apply (@visit_fold_spec cur _ Hc) in V.
    destruct V as (L & P & _ & new & _ & Hnew & Hch & _).
    apply IH in E. destruct E as (L' & Fr).
    split; [congruence|]. intros f. destruct (Fr f) as (K1 & K2). split.
    + intros Hf. rewrite K1; rewrite P; auto.
    + destruct K2 as [K2|K2]; [|now right]. rewrite K2.
      destruct (Z.eq_dec (nth f ids1 0%Z) (nth f ids 0%Z)) as [K3|K3]; [now left|].
      right. apply Hch in K3. now apply Hnew.
Qed.

Lemma island_step_numbered F adj s ids cur ids' cur' :
  s < F -> numbered F s ids cur ->
  island_step F adj (ids, cur) s = (ids', cur') ->
  numbered F (S s) ids' cur'.
Proof.
  intros HsF (N1 & N2 & N3 & N4 & N5) E. unfold island_step in E.
  destruct (Z.eqb_spec (nth s ids 0%Z) (-1)) as [Hs|Hs]; simpl in E.
  2:{ inversion E; subst ids' cur'. repeat split; try assumption; try lia.
      - intros f Hf HfF. destruct (Nat.eq_dec f s) as [->|]; [exact Hs|]. apply N3; lia.
      - intros k Hk. destruct (N5 k Hk) as (f & Hf & Hr). exists f. split; [lia|exact Hr]. }
  assert (Hc : cur <> (-1)%Z) by lia.
  destruct (bfs_loop F adj cur (upd ids s cur) [s] 0) as [[ids2 q2] head2] eqn:B.
  inversion E; subst ids' cur'; clear E.
  destruct (@bfs_loop_frame adj cur Hc _ _ _ _ _ _ _ B) as (L & Fr).
  rewrite upd_length in L.
  assert (B1 : forall f, nth f (upd ids s cur) 0%Z = if Nat.eq_dec f s then cur else nth f ids 0%Z).
  { intros f. destruct (Nat.eq_dec f s) as [->|Hne].
    - apply nth_upd_eq. lia.
    - apply nth_upd_neq. auto. }
  assert (Keep : forall f, nth f ids 0%Z <> (-1)%Z -> nth f ids2 0%Z = nth f ids 0%Z).
  { intros f Hf. destruct (Fr f) as (K & _). specialize (B1 f).
    destruct (Nat.eq_dec f s) as [->|Hne]; [contradiction|].
    rewrite K; rewrite B1; auto. }
  assert (Here : nth s ids2 0%Z = cur).
  { destruct (Fr s) as (K & _). specialize (B1 s).
    destruct (Nat.eq_dec s s); [|congruence]. rewrite K; rewrite B1; auto. }
  repeat split; try lia.
  - intros f Hf HfF. destruct (Nat.eq_dec f s) as [->|Hne]; [congruence|].
    rewrite Keep; apply N3; lia.
  - intros f HfF. destruct (Fr f) as (_ & [K|K]).
    + rewrite K, B1. destruct (Nat.eq_dec f s); [right; lia|].
      destruct (N4 f HfF); [now left|right; lia].
    + right. lia.
  - intros k Hk. destruct (Z.eq_dec k cur) as [->|Hne].
    + exists s. split; [lia|]. split; [exact HsF|]. split; [exact Here|].
      intros g Hg. assert (Hl : nth g ids 0%Z <> (-1)%Z) by (apply N3; lia).
      rewrite (Keep g Hl). destruct (N4 g ltac:(lia)); [contradiction|assumption].
    + destruct (N5 k ltac:(lia)) as (f & Hf & HfF & Ek & Hb).
      exists f. split; [lia|]. split; [exact HfF|]. split.
      * rewrite Keep; lia.
      * intros g Hg. specialize (Hb g Hg). rewrite Keep; lia.
Qed.

Lemma islands_fold_numbered F adj n : forall s ids cur ids' cur',
  s + n <= F -> numbered F s ids cur ->
  fold_left (island_step F adj) (seq s n) (ids, cur) = (ids', cur') ->
  numbered F (s + n) ids' cur'.
Proof.
  induction n as [|n IH]; intros s ids cur ids' cur' Hle N E; cbn [seq fold_left] in E.
  - inversion E; subst. now rewrite Nat.add_0_r.
  - destruct (island_step F adj (ids, cur) s) as [ids1 cur1] eqn:E1.
    pose proof (@island_step_numbered F adj s ids cur ids1 cur1 ltac:(lia) N E1) as N1.
    replace (s + S n) with (S s + n) by lia.
    apply (IH (S s) ids1 cur1); [lia|exact N1|exact E].
Qed.

(** X4.  The numbering of the islands.  There are at most as many islands as
    triangles, and none exactly when there is no triangle.  Every id
    below [num_islands] is in use, and the islands are numbered in the
    order of their lowest faces: island [k] has a face all of whose
    predecessors lie in islands below [k] (so face 0 is in island 0). *)
Theorem extract_islands_numbering {T} (mesh : Mesh T) topo seam_edges :
  let ids := fst (extract_islands mesh topo seam_edges) in
  let n := snd (extract_islands mesh topo seam_edges) in
  (0 <= n <= Z.of_nat (num_triangles mesh))%Z /\
  (n = 0%Z <-> num_triangles mesh = 0) /\
  forall k, (0 <= k < n)%Z ->
    exists f, f < num_triangles mesh /\ nth f ids 0%Z = k /\
              forall g, g < f -> (0 <= nth g ids 0 < k)%Z.
Proof.
  intros ids n. subst ids n. unfold extract_islands.
  set (F := num_triangles mesh).
  set (adj := build_adj F topo (set_of_list seam_edges)).
  destruct (fold_left (island_step F adj) (seq 0 F) (repeat (-1)%Z F, 0%Z))
    as [ids n] eqn:E. cbn [fst snd].
  apply (@islands_fold_numbered F adj F 0) in E; [|lia|].
  2:{ repeat split; try lia.
      - apply repeat_length.
      - intros f Hf. left. now apply nth_repeat_lt. }
  destruct E as (N1 & N2 & N3 & N4 & N5). cbn [Nat.add] in *.
  split; [lia|]. split.
  - split; [|lia]. intros ->. destruct F as [|F']; [reflexivity|].
    destruct (N4 0 ltac:(lia)) as [H|H]; [|lia]. elim (N3 0); [lia|lia|exact H].
  - intros k Hk. destruct (N5 k Hk) as (f & _ & HfF & Ek & Hb). exists f. auto.
Qed.

Lemma fold_left_ext_in {A B} (f g : A -> B -> A) l :
  (forall a x, In x l -> f a x = g a x) ->
  forall a, fold_left f l a = fold_left g l a.
Proof.
  induction l as [|x l IH]; intros H a; simpl; [reflexivity|].
  rewrite (H a x (or_introl eq_refl)). apply IH. intros; apply H; now right.
Qed.

(** X5.  [extract_islands] reads the seam array as a set, and only at the
    indices of edges: the order of the seams, repetitions and indices
    that are no edge make no difference. *)
Theorem extract_islands_seam_set {T} (mesh : Mesh T) topo seams1 seams2 :
  (forall e, e < num_edges topo -> (In e seams1 <-> In e seams2)) ->
  extract_islands mesh topo seams1 = extract_islands mesh topo seams2.
Proof.
  intros H. unfold extract_islands.
  replace (build_adj (num_triangles mesh) topo (set_of_list seams1))
    with (build_adj (num_triangles mesh) topo (set_of_list seams2)); [reflexivity|].
  unfold build_adj. apply fold_left_ext_in. intros adj e He.
  apply in_seq in He. unfold adj_step.
  assert (M : set_mem e (set_of_list seams2) = set_mem e (set_of_list seams1)).
  { destruct (set_mem e (set_of_list seams1)) eqn:M1.
    - apply set_mem_true. rewrite in_set_of_list. apply H; [lia|].
      rewrite <- in_set_of_list. now apply set_mem_true.
    - destruct (set_mem e (set_of_list seams2)) eqn:M2; [|reflexivity].
      apply set_mem_true in M2. rewrite in_set_of_list in M2.
      apply H in M2; [|lia]. rewrite <- in_set_of_list in M2.
      apply set_mem_true in M2. congruence. }
  now rewrite M.
Qed.

Lemma extract_islands_seam_set_witness :
  extract_islands quad_mesh (topology_of quad_mesh) [1; 9; 1]
  = extract_islands quad_mesh (topology_of quad_mesh) [1].
Proof.
  apply (@extract_islands_seam_set binary32 quad_mesh (topology_of quad_mesh) [1; 9; 1] [1]).
  vm_compute. intros e He. simpl. lia.
Defined.

(* ------------------------------------------------------------------ *)
(** ** detect_seams: the result array *)


Lemma open_target c :
  Nat.min (Nat.min (Nat.max 1 (c / 3)) 2) c =
  if c =? 0 then 0 else if c <? 6 then 1 else 2.
Proof.
  destruct (Nat.eqb_spec c 0) as [->|H0]; [reflexivity|].
  destruct (Nat.ltb_spec c 6) as [H6|H6].
  - assert (c / 3 < 2) by (apply Nat.Div0.div_lt_upper_bound; lia). lia.
  - assert (2 <= c / 3) by (apply Nat.div_le_lower_bound; lia). lia.
Qed.

(** X7.  On an open mesh (one with a boundary edge) [detect_seams] keeps no
    seam when there is no candidate, one when there are 1 to 5 and two
    when there are 6 or more; every seam is an interior edge outside the
    spanning forest. *)
Theorem detect_seams_open_count {T} sort (mesh : Mesh T) topo thr :
  sorts_by_priority sort ->
  is_closed_mesh topo = false ->
  exists seams,
    detect_seams sort (Some mesh) (Some topo) thr true = Some seams /\
    let F := num_triangles mesh in
    let c := length (non_tree_edges F topo) in
    length seams = (if c =? 0 then 0 else if c <? 6 then 1 else 2) /\
    forall e, In e seams ->
      e < num_edges topo /\ is_boundary topo e = false /\
      ~ In e (tree_edges_of F topo).
Proof.
  intros S C. eexists. split; [reflexivity|].
  set (F := num_triangles mesh).
  set (cands := non_tree_edges F topo).
  cbv zeta.
  destruct (S cands) as (P & St).
  split.
  - unfold select_seams. fold cands. rewrite C. unfold target_seams.
    rewrite (Permutation_length P). set (c := length cands).
    rewrite set_of_list_length.
    + rewrite length_map, length_firstn, (Permutation_length P). fold c.
      rewrite Nat.min_id || idtac.
      rewrite <- (open_target c). lia.
    + rewrite <- firstn_map. apply NoDup_firstn.
      eapply Permutation_NoDup; [apply Permutation_map, Permutation_sym, P|].
      apply non_tree_edges_NoDup.
  - intros e He. apply (@select_seams_candidates sort F topo e S) in He.
    rewrite non_tree_edges_fst, C in He. apply filter_In in He.
    destruct He as (He & K). apply in_seq in He. apply andb_prop in K.
    destruct K as (K1 & K2). split; [lia|]. split.
    + now apply negb_true_iff in K1.
    + intros Hin. apply set_mem_true in Hin. apply negb_true_iff in K2.
      unfold tree_edges_of in *. congruence.
Qed.

Lemma detect_seams_open_count_witness :
  exists seams,
    detect_seams insertion_sort (Some cone_mesh) (Some (topology_of cone_mesh)) (f32 30) true
      = Some seams /\
    let F := num_triangles cone_mesh in
    let c := length (non_tree_edges F (topology_of cone_mesh)) in
    length seams = (if c =? 0 then 0 else if c <? 6 then 1 else 2) /\
    forall e, In e seams ->
      e < num_edges (topology_of cone_mesh) /\ is_boundary (topology_of cone_mesh) e = false /\
      ~ In e (tree_edges_of F (topology_of cone_mesh)).
Proof.
  apply (@detect_seams_open_count binary32 insertion_sort cone_mesh
           (topology_of cone_mesh) (f32 30)).
  - exact insertion_sort_sorts.
  - vm_compute. reflexivity.
Defined.

(* ------------------------------------------------------------------ *)
(** ** detect_seams: the spanning forest and the islands *)

Lemma combine_snoc {A B} (l1 : list A) (l2 : list B) a b :
  length l1 = length l2 -> combine (l1 ++ [a]) (l2 ++ [b]) = combine l1 l2 ++ [(a, b)].
Proof.
  revert l2. induction l1 as [|x l1 IH]; intros [|y l2] L; simpl in *; try discriminate.
  - reflexivity.
  - f_equal. apply IH. lia.
Qed.

Lemma nth_push_back {A} (v : list (list A)) i x j :
  nth j (push_back v i x) [] =
  if (i =? j) && (i <? length v) then nth i v [] ++ [x] else nth j v [].
Proof. unfold push_back. apply nth_upd. Qed.

(** The neighbours of [f] in the dual graph, each with the shared edge. *)
Lemma dual_fold_spec F topo es :
  faces_in_range F topo -> (forall e, In e es -> e < num_edges topo) ->
  forall da de, length da = F -> length de = F ->
  (forall f, length (nth f da []) = length (nth f de [])) ->
  let r := fold_left (dual_step topo) es (da, de) in
  length (fst r) = F /\ length (snd r) = F /\
  (forall f, length (nth f (fst r) []) = length (nth f (snd r) [])) /\
  forall f g e,
    In (g, e) (combine (nth f (fst r) []) (nth f (snd r) [])) <->
    In (g, e) (combine (nth f da []) (nth f de [])) \/
    (In e es /\ edge_links topo [] e f g).
Proof.
  intros R. induction es as [|e0 es IH]; intros Hes da de La Le Lf; cbn [fold_left].
  - cbv zeta. cbn [fst snd]. repeat split; auto.
    intros [H|([] & _)]; exact H.
  - assert (He : e0 < num_edges topo) by (apply Hes; now left).
    assert (Hes' : forall e', In e' es -> e' < num_edges topo)
      by (intros; apply Hes; now right).
    destruct (dual_step topo (da, de) e0) as [da1 de1] eqn:D.
    assert (S1 : length da1 = F /\ length de1 = F /\
                 (forall f, length (nth f da1 []) = length (nth f de1 [])) /\
                 forall f g e, In (g, e) (combine (nth f da1 []) (nth f de1 [])) <->
                               In (g, e) (combine (nth f da []) (nth f de [])) \/
                               (e = e0 /\ edge_links topo [] e0 f g)).
    { unfold dual_step in D. unfold edge_links. specialize (R e0 He).
      destruct (faces_at topo e0) as [f0 f1].
      destruct (Z.eqb_spec f0 (-1)) as [E0|E0]; simpl in D.
      { inversion D; subst. repeat split; auto. tauto. }
      destruct (Z.eqb_spec f1 (-1)) as [E1|E1]; simpl in D.
      { inversion D; subst. repeat split; auto. tauto. }
      destruct R as ([|R0] & [|R1]); try contradiction.
      inversion D; subst da1 de1; clear D.
      assert (H0 : Z.to_nat f0 < F) by lia. assert (H1 : Z.to_nat f1 < F) by lia.
      remember (Z.to_nat f0) as a eqn:Ea. remember (Z.to_nat f1) as b eqn:Eb.
      assert (Ha : (a <? F) = true) by now apply Nat.ltb_lt.
      assert (Hb : (b <? F) = true) by now apply Nat.ltb_lt.
      assert (P : forall f,
                 nth f (push_back (push_back da a b) b a) [] =
                   (nth f da [] ++ (if a =? f then [b] else [])) ++ (if b =? f then [a] else []) /\
                 nth f (push_back (push_back de a e0) b e0) [] =
                   (nth f de [] ++ (if a =? f then [e0] else [])) ++ (if b =? f then [e0] else [])).
      { intros f. repeat (rewrite nth_push_back || rewrite push_back_length).
        rewrite La, Le, Ha, Hb, !andb_true_r.
        destruct (Nat.eqb_spec b f) as [<-|Nb].
        - destruct (Nat.eqb_spec a b) as [<-|Nab]; [auto|]. now rewrite !app_nil_r.
        - rewrite !app_nil_r. destruct (Nat.eqb_spec a f) as [<-|Na]; [auto|].
          now rewrite !app_nil_r. }
      split; [now rewrite !push_back_length|].
      split; [now rewrite !push_back_length|].
      split.
      { intros f. destruct (P f) as (-> & ->). rewrite !length_app, Lf.
        destruct (a =? f), (b =? f); reflexivity. }
      intros f g e. destruct (P f) as (-> & ->).
      assert (C : combine ((nth f da [] ++ (if a =? f then [b] else [])) ++ (if b =? f then [a] else []))
                          ((nth f de [] ++ (if a =? f then [e0] else [])) ++ (if b =? f then [e0] else []))
                  = (combine (nth f da []) (nth f de []) ++ (if a =? f then [(b, e0)] else []))
                    ++ (if b =? f then [(a, e0)] else [])).
      { specialize (Lf f).
        destruct (a =? f), (b =? f); rewrite ?app_nil_r;
          repeat (rewrite combine_snoc by (rewrite ?length_app; simpl; lia)); reflexivity. }
      rewrite C, !in_app_iff. clear C P. split.
      + intros [[H|H]|H]; [now left| |].
        * destruct (Nat.eqb_spec a f); [|destruct H]. destruct H as [H|[]].
          inversion H; subst g e. right. split; [reflexivity|].
          split; [tauto|]. split; [exact E0|]. split; [exact E1|]. left. lia.
        * destruct (Nat.eqb_spec b f); [|destruct H]. destruct H as [H|[]].
          inversion H; subst g e. right. split; [reflexivity|].
          split; [tauto|]. split; [exact E0|]. split; [exact E1|]. right. lia.
      + intros [H|(-> & _ & _ & _ & [(Hf & Hg)|(Hf & Hg)])]; [now left; left| |].
        * left; right. assert (K : a = f) by lia. rewrite <- K, Nat.eqb_refl.
          left. f_equal. lia.
        * right. assert (K : b = f) by lia. rewrite <- K, Nat.eqb_refl.
          left. f_equal. lia. }
    destruct S1 as (La1 & Le1 & Lf1 & S1).
    destruct (IH Hes' da1 de1 La1 Le1 Lf1) as (La2 & Le2 & Lf2 & S2).
    split; [exact La2|]. split; [exact Le2|]. split; [exact Lf2|].
    intros f g e. rewrite S2, S1. split.
    + intros [[H|(-> & H)]|(He' & H)]; [now left| |].
      * right. split; [now left|exact H].
      * right. split; [now right|exact H].
    + intros [H|([<-|He'] & H)]; [now left; left| |].
      * left; right. auto.
      * right. auto.
Qed.

Lemma build_dual_spec F topo :
  faces_in_range F topo ->
  forall f g e,
    In (g, e) (combine (nth f (fst (build_dual F topo)) [])
                       (nth f (snd (build_dual F topo)) [])) <->
    e < num_edges topo /\ edge_links topo [] e f g.
Proof.
  intros R f g e. unfold build_dual.
  destruct (@dual_fold_spec F topo (seq 0 (num_edges topo)) R) with
    (da := @repeat (list nat) [] F) (de := @repeat (list nat) [] F)
    as (_ & _ & _ & S).
  - intros e' He'. apply in_seq in He'. lia.
  - apply repeat_length.
  - apply repeat_length.
  - reflexivity.
  - rewrite S. rewrite in_seq. split.
    + intros [H|(He & H)]; [|split; [lia|exact H]].
      exfalso. destruct (Nat.lt_ge_cases f F).
      * rewrite nth_repeat_lt in H by assumption. destruct H.
      * rewrite nth_overflow in H by (rewrite repeat_length; lia). destruct H.
    + intros (He & H). right. split; [lia|exact H].
Qed.

Lemma face_adjacent_links topo f g :
  face_adjacent topo [] f g <-> exists e, e < num_edges topo /\ edge_links topo [] e f g.
Proof.
  unfold face_adjacent, edge_links. split; intros (e & He & H); exists e; tauto.
Qed.

Lemma tree_link_sym topo te f g : tree_link topo te f g -> tree_link topo te g f.
Proof.
  intros (e & He & Hn & H). exists e. split; [exact He|]. split; [exact Hn|].
  unfold edge_links in *. destruct (faces_at topo e) as [f0 f1]. tauto.
Qed.

Lemma tree_conn_sym topo te f g : tree_conn topo te f g -> tree_conn topo te g f.
Proof.
  induction 1 as [x y H| |x y z _ IH1 _ IH2].
  - apply rt_step. now apply tree_link_sym.
  - apply rt_refl.
  - eapply rt_trans; eauto.
Qed.

Lemma tree_conn_mono topo te te' f g :
  (forall e, In e te -> In e te') -> tree_conn topo te f g -> tree_conn topo te' f g.
Proof.
  intros H. apply clos_refl_trans_ext. intros x y (e & He & K). exists e. auto.
Qed.

(** The loop over the neighbours of the face taken from the queue. *)
Lemma tree_visit_fold_spec L : forall visited q te visited' q' te',
  fold_left tree_visit L (visited, q, te) = (visited', q', te') ->
  length visited' = length visited /\
  (forall f, nth f visited true = true -> nth f visited' true = true) /\
  (forall v e, In (v, e) L -> nth v visited' true = true) /\
  (forall e, In e te -> In e te') /\
  exists new, q' = q ++ new /\
    (forall v, In v new -> nth v visited true = false /\ exists e, In (v, e) L /\ In e te') /\
    (forall f, nth f visited' true = true -> nth f visited true = false -> In f new).
Proof.
  induction L as [|[v e] L IH]; intros visited q te visited' q' te' E; cbn [fold_left] in E.
  - inversion E; subst. split; [reflexivity|]. split; [auto|]. split; [intros v e []|].
    split; [auto|]. exists []. rewrite app_nil_r. split; [reflexivity|].
    split; [intros v []|]. intros f H1 H2. congruence.
  - unfold tree_visit at 2 in E. destruct (nth v visited true) eqn:Hv; cbn [negb] in E.
    + apply IH in E. destruct E as (Ln & Mo & Al & Te & new & Eq & Hnew & Hch).
      split; [exact Ln|]. split; [exact Mo|]. split.
      { intros w e' [H|H]; [inversion H; subst; now apply Mo|now apply (Al w e')]. }
      split; [exact Te|]. exists new. split; [exact Eq|]. split; [|exact Hch].
      intros w Hw. destruct (Hnew w Hw) as (K1 & e' & K2 & K3).
      split; [exact K1|]. exists e'. split; [now right|exact K3].
    + assert (Hlt : v < length visited).
      { destruct (Nat.lt_ge_cases v (length visited)); [assumption|].
        rewrite nth_overflow in Hv by lia. discriminate. }
      apply IH in E. destruct E as (Ln & Mo & Al & Te & new & Eq & Hnew & Hch).
      rewrite upd_length in Ln.
      assert (U : forall f, nth f (upd visited v true) true =
                            if v =? f then true else nth f visited true).
      { intros f. rewrite nth_upd. destruct (Nat.eqb_spec v f) as [<-|]; simpl; [|reflexivity].
        apply Nat.ltb_lt in Hlt. now rewrite Hlt. }
      split; [exact Ln|]. split.
      { intros f Hf. apply Mo. rewrite U. destruct (v =? f); auto. }
      split.
      { intros w e' [H|H]; [|now apply (Al w e')]. inversion H; subst w e'.
        apply Mo. rewrite U. now rewrite Nat.eqb_refl. }
      split.
      { intros e' He'. apply Te. apply in_set_insert. now right. }
      exists (v :: new). split; [rewrite Eq, <- app_assoc; reflexivity|]. split.
      * intros w [<-|Hw].
        -- split; [exact Hv|]. exists e. split; [now left|].
           apply Te. apply in_set_insert. now left.
        -- destruct (Hnew w Hw) as (K1 & e' & K2 & K3). rewrite U in K1.
           destruct (v =? w); [discriminate|]. split; [exact K1|].
           exists e'. split; [now right|exact K3].
      * intros f H1 H2. destruct (Nat.eq_dec v f) as [<-|Hne]; [now left|].
        right. apply Hch; [exact H1|]. rewrite U.
        destruct (Nat.eqb_spec v f); [contradiction|exact H2].
Qed.

Section SpanningForest.
Variable F : nat.
Variable topo : TopologyInfo.
Variables da de : list (list nat).
Hypothesis Hrange : faces_in_range F topo.
Hypothesis Hdual : forall f g e,
  In (g, e) (combine (nth f da []) (nth f de [])) <->
  e < num_edges topo /\ edge_links topo [] e f g.

Lemma tree_bfs_inv r visited0 te0 : forall fuel visited q te visited' q' te',
  tree_inv F topo r visited0 te0 visited q te ->
  tree_bfs fuel da de (visited, q, te) = (visited', q', te') ->
  tree_inv F topo r visited0 te0 visited' q' te'.
Proof.
  induction fuel as [|fuel IH]; intros visited q te visited' q' te' I E; cbn [tree_bfs] in E.
  - inversion E; subst. exact I.
  - destruct q as [|u q0]; [inversion E; subst; exact I|].
    destruct (fold_left tree_visit (combine (nth u da []) (nth u de [])) (visited, q0, te))
      as [[v1 q1] te1] eqn:V.
    apply IH in E; [exact E|]. clear E IH.
    apply tree_visit_fold_spec in V.
    destruct V as (Ln & Mo & Al & Te & new & Eq & Hnew & Hch).
    destruct I as [I1 I0 I2 I3 I4 I5 I6].
    assert (Hu : tree_conn topo te r u).
    { destruct (I4 u (or_introl eq_refl)) as (K1 & K2). now apply I5. }
    constructor.
    + congruence.
    + now apply Mo.
    + intros f Hf. apply Mo. now apply I2.
    + intros e He. apply Te. now apply I3.
    + intros w Hw. rewrite Eq in Hw. apply in_app_or in Hw. destruct Hw as [Hw|Hw].
      * destruct (I4 w (or_intror Hw)) as (K1 & K2). split; [now apply Mo|exact K2].
      * destruct (Hnew w Hw) as (K1 & e & K2 & K3). split; [now apply (Al w e)|].
        destruct (nth w visited0 true) eqn:K; [|reflexivity].
        apply I2 in K. congruence.
    + intros f H1 H0. destruct (nth f visited true) eqn:K.
      * eapply tree_conn_mono; [exact Te|]. now apply I5.
      * destruct (Hnew f (Hch f H1 K)) as (_ & e & K2 & K3).
        apply Hdual in K2. destruct K2 as (He & Hl).
        eapply rt_trans; [eapply tree_conn_mono; [exact Te|exact Hu]|].
        apply rt_step. exists e. auto.
    + intros f H1 H0. destruct (nth f visited true) eqn:K.
      * destruct (I6 f K H0) as [[<-|Hq]|Hall].
        -- right. intros g Hg. apply face_adjacent_links in Hg.
           destruct Hg as (e & He & Hl). apply (Al g e). apply Hdual. auto.
        -- left. rewrite Eq. apply in_or_app. now left.
        -- right. intros g Hg. apply Mo. now apply Hall.
      * left. rewrite Eq. apply in_or_app. right. now apply Hch.
Qed.

Lemma face_adjacent_both_range f g :
  face_adjacent topo [] f g -> f < F /\ g < F.
Proof.
  intros H. split.
  - apply face_adjacent_sym in H. eapply face_adjacent_range; eauto.
  - eapply face_adjacent_range; eauto.
Qed.

Lemma tree_start_inv s visited te :
  forest_inv F topo s visited te ->
  exists visited' te',
    tree_start F da de (visited, [], te) s = (visited', [], te') /\
    forest_inv F topo (S s) visited' te'.
Proof.
  intros [J1 J2 J3]. unfold tree_start.
  destruct (nth s visited true) eqn:Hs.
  - exists visited, te. split; [reflexivity|]. constructor; auto.
    intros f Hf. destruct (Nat.eq_dec f s) as [->|]; [exact Hs|]. apply J2. lia.
  - assert (Hlt : s < length visited).
    { destruct (Nat.lt_ge_cases s (length visited)); [assumption|].
      rewrite nth_overflow in Hs by lia. discriminate. }
    assert (U : forall f, nth f (upd visited s true) true =
                          if s =? f then true else nth f visited true).
    { intros f. rewrite nth_upd. destruct (Nat.eqb_spec s f) as [<-|]; simpl; [|reflexivity].
      apply Nat.ltb_lt in Hlt. now rewrite Hlt. }
    cbn [app].
    destruct (tree_bfs F da de (upd visited s true, [s], te)) as [[v' q'] te'] eqn:B.
    pose proof B as B'. apply tree_bfs_empties in B'.
    2:{ pose proof (unvisited_upd visited s Hs). pose proof (unvisited_le visited).
        simpl. lia. }
    destruct B' as (Lv & ->).
    assert (I0 : tree_inv F topo s visited te (upd visited s true) [s] te).
    { constructor.
      - now rewrite upd_length.
      - rewrite U. now rewrite Nat.eqb_refl.
      - intros f Hf. rewrite U. destruct (s =? f); auto.
      - auto.
      - intros v [<-|[]]. split; [|exact Hs]. rewrite U. now rewrite Nat.eqb_refl.
      - intros f H1 H0. rewrite U in H1. destruct (Nat.eqb_spec s f) as [E|E];
          [rewrite <- E; apply rt_refl|congruence].
      - intros f H1 H0. rewrite U in H1. destruct (Nat.eqb_spec s f) as [E|E];
          [left; now left|congruence]. }
    pose proof (@tree_bfs_inv s visited te F _ _ _ _ _ _ I0 B) as [I1 Ir I2 I3 I4 I5 I6].
    exists v', te'. split; [reflexivity|]. constructor.
    + exact I1.
    + intros f Hf. destruct (Nat.eq_dec f s) as [->|]; [exact Ir|].
      apply I2. apply J2. lia.
    + intros f g HfF Hf Hadj.
      destruct (face_adjacent_both_range Hadj) as (_ & HgF).
      destruct (nth f visited true) eqn:K.
      * destruct (J3 f g HfF K Hadj) as (K1 & K2).
        split; [now apply I2|]. eapply tree_conn_mono; [exact I3|exact K2].
      * destruct (I6 f Hf K) as [[]|Hall].
        assert (Hg : nth g v' true = true) by now apply Hall.
        split; [exact Hg|].
        destruct (nth g visited true) eqn:Kg.
        -- apply face_adjacent_sym in Hadj.
           destruct (J3 g f HgF Kg Hadj) as (K1 & _). congruence.
        -- eapply rt_trans; [apply tree_conn_sym; now apply I5|now apply I5].
Qed.

Lemma forest_fold_inv n : forall s visited te,
  forest_inv F topo s visited te ->
  exists visited' te',
    fold_left (tree_start F da de) (seq s n) (visited, [], te) = (visited', [], te') /\
    forest_inv F topo (s + n) visited' te'.
Proof.
  induction n as [|n IH]; intros s visited te I; cbn [seq fold_left].
  - exists visited, te. rewrite Nat.add_0_r. auto.
  - destruct (tree_start_inv I) as (v1 & te1 & E1 & I1). rewrite E1.
    destruct (IH (S s) v1 te1 I1) as (v2 & te2 & E2 & I2).
    exists v2, te2. split; [exact E2|]. now replace (s + S n) with (S s + n) by lia.
Qed.

End SpanningForest.

(** The tree edges join every two faces that share an interior edge. *)
Lemma spanning_forest_spans F topo f g :
  faces_in_range F topo ->
  face_adjacent topo [] f g -> tree_conn topo (tree_edges_of F topo) f g.
Proof.
  intros R Hadj. unfold tree_edges_of, spanning_forest.
  pose proof (build_dual_spec R) as D.
  destruct (build_dual F topo) as [da de]. cbn [fst snd] in D.
  destruct (@forest_fold_inv F topo da de R D F 0 (repeat false F) []) as (v & te & E & I).
  - constructor.
    + apply repeat_length.
    + intros x Hx. lia.
    + intros x y HxF Hx. rewrite nth_repeat_lt in Hx by exact HxF. discriminate.
  - rewrite E. cbn [snd]. destruct I as [I1 I2 I3]. cbn [Nat.add] in *.
    destruct (face_adjacent_both_range R Hadj) as (HfF & _).
    apply (I3 f g HfF); [apply I2; exact HfF|exact Hadj].
Qed.

Lemma clos_refl_trans_sub {A} (R S : A -> A -> Prop) :
  (forall x y, R x y -> clos_refl_trans A S x y) ->
  forall x y, clos_refl_trans A R x y -> clos_refl_trans A S x y.
Proof.
  intros H x y C. induction C as [x y r| |x y z _ IH1 _ IH2].
  - now apply H.
  - apply rt_refl.
  - eapply rt_trans; eauto.
Qed.

Lemma extract_islands_same_id {T} (mesh : Mesh T) topo seam_edges f g :
  faces_in_range (num_triangles mesh) topo ->
  f < num_triangles mesh -> g < num_triangles mesh ->
  (nth f (fst (extract_islands mesh topo seam_edges)) 0%Z =
   nth g (fst (extract_islands mesh topo seam_edges)) 0%Z
   <-> connected topo seam_edges f g).
Proof.
  intros R HfF HgF. unfold extract_islands.
  set (F := num_triangles mesh) in *.
  set (adj := build_adj F topo (set_of_list seam_edges)).
  destruct (fold_left (island_step F adj) (seq 0 F) (repeat (-1)%Z F, 0%Z))
    as [ids n] eqn:E.
  assert (Hb : forall x y, In y (nth x adj []) -> y < F).
  { intros x y H. apply build_adj_spec in H; [|exact R].
    eapply face_adjacent_range; eauto. }
  assert (Hs : forall x y, In y (nth x adj []) -> In x (nth y adj [])).
  { intros x y H. apply build_adj_spec; [exact R|].
    apply face_adjacent_sym. apply build_adj_spec in H; assumption. }
  destruct (@islands_components F adj Hb Hs ids n E) as (_ & _ & Cc). cbn [fst].
  rewrite (Cc f g HfF HgF). unfold connected, reach. split.
  - apply clos_refl_trans_ext. intros x y H. apply build_adj_spec in H; assumption.
  - apply clos_refl_trans_ext. intros x y H. apply build_adj_spec; assumption.
Qed.

(** X8.  Cutting the seams that [detect_seams] selects splits nothing: every
    seam lies outside the spanning forest, whose edges still join any two
    triangles that were joined before.  So [extract_islands], given these
    seams, puts two triangles in one island exactly when a path of
    interior edges, seams or not, joins them. *)
Theorem detect_seams_keeps_components {T} sort (mesh : Mesh T) topo thr seams :
  sorts_by_priority sort ->
  faces_in_range (num_triangles mesh) topo ->
  detect_seams sort (Some mesh) (Some topo) thr true = Some seams ->
  forall f g, f < num_triangles mesh -> g < num_triangles mesh ->
    (nth f (fst (extract_islands mesh topo seams)) 0%Z =
     nth g (fst (extract_islands mesh topo seams)) 0%Z
     <-> connected topo [] f g).
Proof.
  intros S R E f g HfF HgF. simpl in E. inversion E; subst seams; clear E.
  set (F := num_triangles mesh) in *.
  rewrite (extract_islands_same_id _ _ R HfF HgF). unfold connected. split.
  - apply clos_refl_trans_ext. intros x y (e & He & _ & H). exists e. auto.
  - apply clos_refl_trans_sub. intros x y H.
    apply (spanning_forest_spans R) in H.
    revert H. apply clos_refl_trans_ext. clear x y.
    intros x y (e & He & Hn & Hl).
    exists e. split; [exact Hn|]. split.
    + intros Hs. apply (@select_seams_candidates sort F topo e S) in Hs.
      rewrite non_tree_edges_fst in Hs. apply filter_In in Hs.
      destruct Hs as (_ & K). apply set_mem_true in He. unfold tree_edges_of in *.
      destruct (is_closed_mesh topo).
      * rewrite He in K. discriminate.
      * rewrite He, andb_false_r in K. discriminate.
    + unfold edge_links in Hl. exact (proj2 Hl).
Qed.

Lemma detect_seams_keeps_components_witness :
  detect_seams insertion_sort (Some cone_mesh) (Some (topology_of cone_mesh)) (f32 30) true
    = Some [2] /\
  (nth 1 (fst (extract_islands cone_mesh (topology_of cone_mesh) [2])) 0%Z =
   nth 2 (fst (extract_islands cone_mesh (topology_of cone_mesh) [2])) 0%Z
   <-> connected (topology_of cone_mesh) [] 1 2).
Proof.
  split; [vm_compute; reflexivity|].
  apply (@detect_seams_keeps_components binary32 insertion_sort cone_mesh
           (topology_of cone_mesh) (f32 30) [2]).
  - exact insertion_sort_sorts.
  - apply build_topology_faces_in_range.
  - vm_compute. reflexivity.
  - vm_compute. lia.
  - vm_compute. lia.
Defined.


(* ------------------------------------------------------------------ *)
(** ** lscm.cpp: local indices, boundary vertices, pinned vertices *)

(** X10.  [global_to_local] and [local_to_global] are inverse to each other:
    a vertex of the island has a local index below [n] at which
    [local_to_global] holds the vertex again, every local index below [n]
    is the index of the vertex stored there, and a vertex outside the
    island has no entry in [global_to_local]. *)
Theorem local_vertex_map_inverse {T} (mesh : Mesh T) faces :
  let g2l := fst (local_vertex_map mesh faces) in
  let l2g := snd (local_vertex_map mesh faces) in
  (forall v, In v l2g ->
     local_index g2l v < length l2g /\ nth (local_index g2l v) l2g 0 = v) /\
  (forall k, k < length l2g -> local_index g2l (nth k l2g 0) = k) /\
  (forall v, ~ (exists f, In f faces /\ In v (face_verts mesh f)) ->
     int_map_find v g2l = None).
Proof.
  cbv zeta. destruct (local_vertex_map_spec mesh faces) as (I & C).
  set (g2l := fst (local_vertex_map mesh faces)) in *.
  set (l2g := snd (local_vertex_map mesh faces)) in *.
  split; [|split].
  - intros v Hv. now apply local_index_spec.
  - intros k Hk.
    assert (Hin : In (nth k l2g 0) l2g) by now apply nth_In.
    destruct (@local_index_spec g2l l2g _ I Hin) as (L & E).
    destruct I as [ND _ _].
    apply (proj1 (NoDup_nth l2g 0) ND); assumption.
  - intros v Hv. destruct I as [_ Dom _].
    destruct (int_map_find v g2l) eqn:E; [|reflexivity].
    exfalso. apply Hv. apply C. apply Dom. congruence.
Qed.

Lemma count_in_app done k ab :
  count_in (done ++ [ab]) k =
  count_in done k + (if Edge_eqb (mk_Edge (fst ab) (snd ab)) k then 1 else 0).
Proof.
  unfold count_in. rewrite filter_app, length_app. simpl.
  destruct (Edge_eqb _ k); reflexivity.
Qed.

Lemma count_edge_counted done m ab :
  (forall k, map_find k m = match count_in done k with 0 => None | n => Some n end) ->
  forall k, map_find k (count_edge m ab) =
            match count_in (done ++ [ab]) k with 0 => None | n => Some n end.
Proof.
  intros I k. unfold count_edge. rewrite count_in_app.
  set (e := mk_Edge (fst ab) (snd ab)).
  pose proof (I e) as Ie.
  assert (Sym : Edge_eqb e k = Edge_eqb k e).
  { destruct (Edge_eqb e k) eqn:E1, (Edge_eqb k e) eqn:E2; try reflexivity.
    - apply Edge_eqb_true in E1. subst k.
      rewrite (proj2 (Edge_eqb_true e e) eq_refl) in E2. discriminate.
    - apply Edge_eqb_true in E2. subst k.
      rewrite (proj2 (Edge_eqb_true e e) eq_refl) in E1. discriminate. }
  destruct (map_find e m) as [c|] eqn:Fe; rewrite map_find_set, Sym;
    destruct (Edge_eqb k e) eqn:E.
  - apply Edge_eqb_true in E. subst k.
    destruct (count_in done e) as [|n]; [discriminate|]. inversion Ie; subst c.
    rewrite Nat.add_1_r. reflexivity.
  - rewrite Nat.add_0_r. apply I.
  - apply Edge_eqb_true in E. subst k.
    destruct (count_in done e) as [|n]; [reflexivity|discriminate].
  - rewrite Nat.add_0_r. apply I.
Qed.

Lemma count_edge_sorted m ab :
  StronglySorted (fun a b : Edge * nat => Edge_less (fst a) (fst b)) m ->
  StronglySorted (fun a b : Edge * nat => Edge_less (fst a) (fst b)) (count_edge m ab).
Proof.
  intros S. unfold count_edge. destruct (map_find _ m); now apply map_set_sorted.
Qed.

Lemma count_fold_spec l : forall done m,
  StronglySorted (fun a b : Edge * nat => Edge_less (fst a) (fst b)) m ->
  (forall k, map_find k m = match count_in done k with 0 => None | n => Some n end) ->
  StronglySorted (fun a b : Edge * nat => Edge_less (fst a) (fst b)) (fold_left count_edge l m) /\
  forall k, map_find k (fold_left count_edge l m) =
            match count_in (done ++ l) k with 0 => None | n => Some n end.
Proof.
  induction l as [|ab l IH]; intros done m S I; simpl.
  - rewrite app_nil_r. auto.
  - change (done ++ ab :: l) with (done ++ [ab] ++ l). rewrite app_assoc.
    apply IH; [now apply count_edge_sorted|now apply count_edge_counted].
Qed.

Lemma edge_counts_sides {T} (mesh : Mesh T) faces :
  edge_counts mesh faces = fold_left count_edge (island_sides mesh faces) [].
Proof.
  unfold edge_counts, island_sides. generalize (@nil (Edge * nat)).
  induction faces as [|f faces IH]; intros m; simpl; [reflexivity|].
  now rewrite fold_left_app, IH.
Qed.

Lemma edge_counts_spec {T} (mesh : Mesh T) faces k c :
  In (k, c) (edge_counts mesh faces) <-> (c = side_count mesh faces k /\ c <> 0).
Proof.
  rewrite edge_counts_sides.
  destruct (@count_fold_spec (island_sides mesh faces) [] []) as (S & Rec);
    [constructor|reflexivity|].
  cbn [app] in Rec. unfold side_count. split.
  - intros H. apply (@sorted_map_find _ _ k c S) in H. rewrite Rec in H.
    destruct (count_in _ k); [discriminate|]. inversion H. split; [reflexivity|discriminate].
  - intros (-> & H). apply map_find_some_in. rewrite Rec.
    destruct (count_in _ k); [now elim H|reflexivity].
Qed.

Lemma boundary_fold_in items : forall s v,
  In v (fold_left boundary_step items s) <->
  In v s \/ exists item, In item items /\ snd item = 1 /\
                         (v = fst (fst item) \/ v = snd (fst item)).
Proof.
  induction items as [|it items IH]; intros s v; simpl.
  - split; [auto|]. intros [H|(item & [] & _)]. exact H.
  - rewrite IH. unfold boundary_step at 1. split.
    + intros [H|(item & Hi & K)].
      * destruct (Nat.eqb_spec (snd it) 1) as [E|E]; [|now left].
        apply in_set_insert in H. destruct H as [->|H]; [right; exists it; auto|].
        apply in_set_insert in H. destruct H as [->|H]; [right; exists it; auto|now left].
      * right. exists item. auto.
    + intros [H|(item & [<-|Hi] & E & K)].
      * left. destruct (snd it =? 1); [|exact H].
        apply in_set_insert. right. apply in_set_insert. now right.
      * left. rewrite E. simpl. apply in_set_insert.
        destruct K as [->| ->]; [right; apply in_set_insert; now left|now left].
      * right. exists item. auto.
Qed.

(** X11.  The boundary vertices of an island are the endpoints of the edges
    that exactly one triangle side of the island joins, in strictly
    increasing order. *)
Theorem find_boundary_vertices_exact {T} (mesh : Mesh T) faces :
  StronglySorted lt (find_boundary_vertices mesh faces) /\
  forall v, In v (find_boundary_vertices mesh faces) <->
            exists k, side_count mesh faces k = 1 /\ (v = fst k \/ v = snd k).
Proof.
  split; [apply find_boundary_vertices_spec|]. intros v.
  unfold find_boundary_vertices. destruct faces as [|f0 fs].
  - split; [intros []|]. intros (k & H & _). discriminate.
  - set (faces := f0 :: fs). rewrite boundary_fold_in. split.
    + intros [[]|([k c] & Hi & E & K)]. simpl in *. subst c.
      apply edge_counts_spec in Hi. exists k. split; [now symmetry|exact K].
    + intros (k & E & K). right. exists (k, 1). split; [|auto].
      apply edge_counts_spec. split; [now symmetry|discriminate].
Qed.

Section PinsValid.
Context {T : Type} {ST : Scalar T}.
Variable vec3_dist : T * T * T -> T * T * T -> T.

(** X12.  For an island of at least 3 vertices the two pinned vertices are two
    different local indices below [n], whatever the distances are (NaN
    included) and however many boundary vertices there are. *)
Theorem select_pins_valid (mesh : Mesh T) faces :
  let g2l := fst (local_vertex_map mesh faces) in
  let l2g := snd (local_vertex_map mesh faces) in
  3 <= length l2g ->
  fst (select_pins vec3_dist mesh faces g2l l2g) <> snd (select_pins vec3_dist mesh faces g2l l2g) /\
  fst (select_pins vec3_dist mesh faces g2l l2g) < length l2g /\
  snd (select_pins vec3_dist mesh faces g2l l2g) < length l2g.
Proof. apply select_pins_distinct. Qed.

End PinsValid.

Lemma select_pins_valid_witness :
  let g2l := fst (local_vertex_map tri_mesh [0]) in
  let l2g := snd (local_vertex_map tri_mesh [0]) in
  fst (select_pins vec3_dist32 tri_mesh [0] g2l l2g) <> snd (select_pins vec3_dist32 tri_mesh [0] g2l l2g) /\
  fst (select_pins vec3_dist32 tri_mesh [0] g2l l2g) < length l2g /\
  snd (select_pins vec3_dist32 tri_mesh [0] g2l l2g) < length l2g.
Proof.
  apply (@select_pins_valid binary32 _ vec3_dist32 tri_mesh [0]). vm_compute. lia.
Defined.

(* ------------------------------------------------------------------ *)
(** ** lscm.cpp: the elimination of the pinned unknowns *)

Section LSCMElimination.
Local Open Scope R_scope.

Lemma coef_cons it A r c :
  coef (it :: A) r c =
  (if (t_row it =? r)%nat && (t_col it =? c)%nat then t_val it else 0) + coef A r c.
Proof.
  unfold coef. cbn [fold_right].
  destruct ((t_row it =? r)%nat && (t_col it =? c)%nat); lra.
Qed.

Lemma move_column_at A idx v : forall b r,
  r <> idx -> (r < length b)%nat ->
  nth r (move_column A b (idx, v)) 0 = nth r b 0 - coef A r idx * v.
Proof.
  unfold move_column. cbn [fst snd].
  induction A as [|it A IH]; intros b r Hne Hr.
  - cbn [filter fold_left]. unfold coef. cbn [fold_right]. lra.
  - cbn [filter]. rewrite coef_cons.
    destruct (Nat.eqb_spec (t_col it) idx) as [Ec|Ec].
    + cbn [fold_left].
      destruct (Nat.eqb_spec (t_row it) idx) as [Er|Er]; cbn [negb].
      * rewrite (IH b r Hne Hr).
        replace (t_row it =? r)%nat with false by (symmetry; apply Nat.eqb_neq; congruence).
        cbn [andb]. lra.
      * rewrite IH; [|exact Hne|now rewrite upd_length].
        rewrite nth_upd. cbn [s_sub s_mul s_zero Scalar_R].
        destruct (Nat.eqb_spec (t_row it) r) as [E|E]; cbn [andb].
        -- subst r. apply Nat.ltb_lt in Hr. rewrite Hr. lra.
        -- lra.
    + rewrite (IH b r Hne Hr). rewrite andb_false_r. lra.
Qed.

Lemma move_columns_length A kvs : forall b,
  length (fold_left (move_column A) kvs b) = length b.
Proof.
  induction kvs as [|iv kvs IH]; intros b; simpl; [reflexivity|].
  now rewrite IH, move_column_length.
Qed.

Lemma move_columns_at A kvs : forall b r,
  ~ In r (map fst kvs) -> (r < length b)%nat ->
  nth r (fold_left (move_column A) kvs b) 0 = nth r b 0 - pinned_sum A r kvs.
Proof.
  induction kvs as [|[i v] kvs IH]; intros b r Hn Hr; cbn [fold_left pinned_sum fold_right].
  - lra.
  - simpl in Hn. rewrite IH; [|tauto|now rewrite move_column_length].
    rewrite move_column_at; [|intros ->; tauto|exact Hr].
    cbn [fst snd]. fold (pinned_sum A r kvs). lra.
Qed.

Lemma rhs_fold_other (kvs : list (nat * R)) r : forall b,
  ~ In r (map fst kvs) ->
  nth r (fold_left (fun b iv => upd b (fst iv) (snd iv)) kvs b) 0 = nth r b 0.
Proof.
  induction kvs as [|[i v] kvs IH]; intros b Hn; simpl; [reflexivity|].
  simpl in Hn. rewrite IH by tauto. cbn [fst snd].
  apply nth_upd_neq. intros ->. tauto.
Qed.

Lemma pinned_sum_cons it A r kvs :
  pinned_sum (it :: A) r kvs =
  pinned_sum A r kvs +
  (if (t_row it =? r)%nat then t_val it * pinned_value kvs (t_col it) else 0).
Proof.
  induction kvs as [|[i v] kvs IH]; cbn [pinned_sum pinned_value fold_right].
  - destruct (t_row it =? r)%nat; lra.
  - fold (pinned_sum (it :: A) r kvs). fold (pinned_sum A r kvs).
    fold (pinned_value kvs (t_col it)). rewrite IH, coef_cons. cbn [fst snd].
    rewrite (Nat.eqb_sym i (t_col it)).
    destruct (t_row it =? r)%nat, (t_col it =? i)%nat; cbn [andb]; lra.
Qed.

Lemma pinned_value_in kvs c x :
  NoDup (map fst kvs) -> (forall i v, In (i, v) kvs -> nth i x 0 = v) ->
  pinned_value kvs c = if is_pinned (map fst kvs) c then nth c x 0 else 0.
Proof.
  unfold is_pinned.
  induction kvs as [|[i v] kvs IH]; intros ND Hx; cbn [pinned_value fold_right map existsb].
  - reflexivity.
  - fold (pinned_value kvs c). inversion ND as [|? ? Hn ND']; subst.
    rewrite IH; [|exact ND'|intros; apply Hx; now right]. cbn [fst snd].
    destruct (Nat.eqb_spec i c) as [->|Hne]; cbn [orb].
    + assert (E : existsb (fun p => (p =? c)%nat) (map fst kvs) = false).
      { apply not_true_is_false. intros H. apply existsb_exists in H.
        destruct H as (p & Hp & E). apply Nat.eqb_eq in E. subst p. contradiction. }
      rewrite E, (Hx c v (or_introl eq_refl)). lra.
    + lra.
Qed.

Lemma pinned_sum_nil r kvs : pinned_sum [] r kvs = 0.
Proof.
  induction kvs as [|iv kvs IH]; cbn [pinned_sum fold_right]; [reflexivity|].
  fold (pinned_sum [] r kvs). rewrite IH. unfold coef. cbn [fold_right]. lra.
Qed.

(** Row [r] of [A] splits into its free and its pinned columns. *)
Lemma matvec_split A x r kvs :
  NoDup (map fst kvs) -> (forall i v, In (i, v) kvs -> nth i x 0 = v) ->
  matvec A x r =
  matvec (filter (fun it => negb (is_pinned (map fst kvs) (t_col it))) A) x r
  + pinned_sum A r kvs.
Proof.
  intros ND Hx. induction A as [|it A IH].
  - cbn [filter]. rewrite !matvec_nil, pinned_sum_nil. lra.
  - rewrite matvec_cons, pinned_sum_cons, IH, (@pinned_value_in kvs (t_col it) x ND Hx).
    cbn [filter].
    destruct (is_pinned (map fst kvs) (t_col it)); cbn [negb];
      [|rewrite matvec_cons]; destruct (t_row it =? r)%nat; lra.
Qed.

(** A free row of [A_triplets] keeps the free columns of that row of [A]. *)
Lemma constrained_free_row pv (A : list (triplet R)) x r :
  ~ In r pv ->
  matvec (flat_map (constrain_entry pv) A) x r =
  matvec (filter (fun it => negb (is_pinned pv (t_col it))) A) x r.
Proof.
  intros Hr. assert (Hp : is_pinned pv r = false).
  { apply not_true_is_false. intros H. apply is_pinned_true in H. contradiction. }
  induction A as [|it A IH]; [reflexivity|].
  cbn [flat_map filter]. rewrite matvec_app, IH. unfold constrain_entry.
  destruct (is_pinned pv (t_row it)) eqn:Pr; cbn [orb].
  - assert (Ne : (t_row it =? r)%nat = false).
    { apply Nat.eqb_neq. intros E. rewrite E in Pr. congruence. }
    assert (Z : matvec (if (t_row it =? t_col it)%nat
                        then [(t_row it, t_col it, s_one)] else []) x r = 0).
    { destruct (t_row it =? t_col it)%nat; [|apply matvec_nil].
      rewrite matvec_cons, matvec_nil. unfold t_row at 1. cbn [fst snd]. now rewrite Ne. }
    rewrite Z. destruct (is_pinned pv (t_col it)); cbn [negb]; [lra|].
    rewrite matvec_cons, Ne. lra.
  - destruct (is_pinned pv (t_col it)) eqn:Pc; cbn [negb].
    + destruct (Nat.eqb_spec (t_row it) (t_col it)) as [E|E].
      * rewrite E in Pr. congruence.
      * rewrite matvec_nil. lra.
    + rewrite !matvec_cons, matvec_nil. unfold t_row, t_col, t_val. cbn [fst snd].
      destruct (fst (fst it) =? r)%nat; lra.
Qed.

(** X13.  The constrained system [A_final x = b] says exactly that [x] has the
    pinned values (0, 0) and (1, 0) and satisfies the equations
    [A x = 0] of all free unknowns: the elimination of the pinned columns
    loses nothing.  ([A] stores its diagonal at the pinned unknowns, as
    [M^T * M] does there unless the column of [M] is empty.) *)
Theorem constrain_system_equiv n (A : list (triplet R)) p1 p2 x :
  compressed A -> p1 <> p2 -> (p1 < n)%nat -> (p2 < n)%nat ->
  (forall p, In p (pinned_vars p1 p2) -> has_diagonal A p = true) ->
  ((forall r, (r < 2 * n)%nat ->
      matvec (fst (constrain_system n A p1 p2)) x r =
      nth r (snd (constrain_system n A p1 p2)) 0)
   <->
   (nth (p1 * 2) x 0 = 0 /\ nth (p1 * 2 + 1) x 0 = 0 /\
    nth (p2 * 2) x 0 = 1 /\ nth (p2 * 2 + 1) x 0 = 0 /\
    forall r, (r < 2 * n)%nat -> ~ In r (pinned_vars p1 p2) -> matvec A x r = 0)).
Proof.
  intros C Hne H1 H2 Hd.
  pose proof (@constrain_system_rhs n A p1 p2 Hne H1 H2) as B. cbv zeta in B.
  destruct B as (B1 & B2 & B3 & B4).
  set (kvs := combine (pinned_vars p1 p2) (@pinned_vals R _)).
  assert (Keys : map fst kvs = pinned_vars p1 p2) by reflexivity.
  assert (ND : NoDup (map fst kvs)).
  { rewrite Keys. unfold pinned_vars. repeat constructor; simpl; intuition lia. }
  assert (Pin : forall p, In p (pinned_vars p1 p2) ->
            matvec (fst (constrain_system n A p1 p2)) x p = nth p x 0).
  { intros p Hp. unfold constrain_system. cbn [fst].
    rewrite matvec_setFromTriplets, (@constrained_row (pinned_vars p1 p2) A x p Hp C).
    now rewrite (Hd p Hp). }
  assert (Free : forall r, (r < 2 * n)%nat -> ~ In r (pinned_vars p1 p2) ->
            matvec (fst (constrain_system n A p1 p2)) x r
            - nth r (snd (constrain_system n A p1 p2)) 0 =
            matvec (filter (fun it => negb (is_pinned (map fst kvs) (t_col it))) A) x r
            + pinned_sum A r kvs).
  { intros r Hr Hn. unfold constrain_system. cbn [fst snd].
    rewrite matvec_setFromTriplets, (@constrained_free_row (pinned_vars p1 p2) A x r Hn).
    fold kvs. rewrite rhs_fold_other by (rewrite Keys; exact Hn).
    rewrite move_columns_at; [|rewrite Keys; exact Hn|now rewrite repeat_length].
    rewrite Keys. rewrite nth_repeat_lt by exact Hr. cbn [s_zero Scalar_R]. lra. }
  assert (In1 : In (p1 * 2)%nat (pinned_vars p1 p2)) by (simpl; auto).
  assert (In2 : In (p1 * 2 + 1)%nat (pinned_vars p1 p2)) by (simpl; auto).
  assert (In3 : In (p2 * 2)%nat (pinned_vars p1 p2)) by (simpl; auto).
  assert (In4 : In (p2 * 2 + 1)%nat (pinned_vars p1 p2)) by (simpl; auto).
  assert (Agree : nth (p1 * 2) x 0 = 0 -> nth (p1 * 2 + 1) x 0 = 0 ->
                  nth (p2 * 2) x 0 = 1 -> nth (p2 * 2 + 1) x 0 = 0 ->
                  forall i v, In (i, v) kvs -> nth i x 0 = v).
  { intros X1 X2 X3 X4 i v H. unfold kvs, pinned_vars, pinned_vals in H. simpl in H.
    destruct H as [H|[H|[H|[H|[]]]]]; inversion H; subst; assumption. }
  split.
  - intros Sol.
    assert (X1 : nth (p1 * 2) x 0 = 0) by (rewrite <- (Pin _ In1), Sol; [exact B1|lia]).
    assert (X2 : nth (p1 * 2 + 1) x 0 = 0) by (rewrite <- (Pin _ In2), Sol; [exact B2|lia]).
    assert (X3 : nth (p2 * 2) x 0 = 1) by (rewrite <- (Pin _ In3), Sol; [exact B3|lia]).
    assert (X4 : nth (p2 * 2 + 1) x 0 = 0) by (rewrite <- (Pin _ In4), Sol; [exact B4|lia]).
    repeat (split; [assumption|]).
    intros r Hr Hn.
    rewrite (@matvec_split A x r kvs ND (Agree X1 X2 X3 X4)), <- (Free r Hr Hn), (Sol r Hr). lra.
  - intros (X1 & X2 & X3 & X4 & Eq) r Hr.
    destruct (in_dec Nat.eq_dec r (pinned_vars p1 p2)) as [Hp|Hn].
    + rewrite (Pin r Hp). simpl in Hp.
      destruct Hp as [<-|[<-|[<-|[<-|[]]]]]; congruence.
    + pose proof (Free r Hr Hn) as Fr.
      rewrite <- (@matvec_split A x r kvs ND (Agree X1 X2 X3 X4)), (Eq r Hr Hn) in Fr. lra.
Qed.

Lemma constrain_system_equiv_witness :
  let x := [1 / 2; 1 / 2; 0; 0; 1; 0] in
  (forall r, (r < 2 * 3)%nat ->
      matvec (fst (constrain_system 3 tri_A 1 2)) x r =
      nth r (snd (constrain_system 3 tri_A 1 2)) 0)
  <->
  (nth (1 * 2) x 0 = 0 /\ nth (1 * 2 + 1) x 0 = 0 /\
   nth (2 * 2) x 0 = 1 /\ nth (2 * 2 + 1) x 0 = 0 /\
   forall r, (r < 2 * 3)%nat -> ~ In r (pinned_vars 1 2) -> matvec tri_A x r = 0).
Proof.
  apply (@constrain_system_equiv 3 tri_A 1 2 [1 / 2; 1 / 2; 0; 0; 1; 0]).
  - exact tri_A_compressed.
  - lia.
  - lia.
  - lia.
  - intros p Hp. simpl in Hp. destruct Hp as [<-|[<-|[<-|[<-|[]]]]]; reflexivity.
Defined.

End LSCMElimination.

(* ------------------------------------------------------------------ *)
(** ** unwrap.cpp: from the islands to the UV array *)

Lemma number_vertex_fold vs :
  forall g l, length g = length l ->
    fold_left number_vertex vs g = fst (fold_left map_vertex vs (g, l)) /\
    length (fst (fold_left map_vertex vs (g, l))) =
    length (snd (fold_left map_vertex vs (g, l))).
Proof.
  induction vs as [|v vs IH]; intros g l H; cbn [fold_left]; [auto|].
  unfold number_vertex at 2. unfold map_vertex at 2 4 6.
  destruct (int_map_find v g); [now apply IH|].
  rewrite H. apply IH. simpl. rewrite length_app. simpl. lia.
Qed.

Lemma island_global_to_local_eq {T} (mesh : Mesh T) faces :
  island_global_to_local mesh faces = fst (local_vertex_map mesh faces).
Proof.
  unfold island_global_to_local, local_vertex_map.
  assert (G : forall fs g l, length g = length l ->
            fold_left (fun m f => fold_left number_vertex (face_verts mesh f) m) fs g =
            fst (fold_left (fun st f => fold_left map_vertex (face_verts mesh f) st)
                           fs (g, l))).
  { induction fs as [|f fs IH]; intros g l H; cbn [fold_left]; [reflexivity|].
    destruct (number_vertex_fold (face_verts mesh f) g l H) as (E & L).
    rewrite E.
    destruct (fold_left map_vertex (face_verts mesh f) (g, l)) as [g' l'].
    cbn [fst snd] in *. now apply IH. }
  now apply G.
Qed.

Lemma fold_left_flat_map {A B C} (g : A -> C -> A) (h : B -> list C) l :
  forall a, fold_left (fun a x => fold_left g (h x) a) l a = fold_left g (flat_map h l) a.
Proof.
  induction l as [|x l IH]; intros a; cbn [fold_left flat_map]; [reflexivity|].
  now rewrite fold_left_app, IH.
Qed.

Section UnwrapFacts.
Context {T : Type} {ST : Scalar T}.

Lemma copy_vertices_spec (island_uvs : list (T * T)) g2l vs :
  forall uv,
    length (fold_left (copy_vertex island_uvs g2l) vs uv) = length uv /\
    forall x,
      uv_at (fold_left (copy_vertex island_uvs g2l) vs uv) x =
      if existsb (Nat.eqb x) vs && (x <? length uv) then
        match int_map_find x g2l with
        | Some k => uv_at island_uvs k
        | None => uv_at uv x
        end
      else uv_at uv x.
Proof.
  induction vs as [|a vs IH]; intros uv; cbn [fold_left existsb]; [split; reflexivity|].
  destruct (IH (copy_vertex island_uvs g2l uv a)) as (L & V).
  assert (L1 : length (copy_vertex island_uvs g2l uv a) = length uv).
  { unfold copy_vertex. destruct (int_map_find a g2l); [apply upd_length|reflexivity]. }
  split; [now rewrite L|].
  intros x. rewrite V, L1. unfold copy_vertex, uv_at.
  destruct (Nat.eqb_spec x a) as [->|Hne]; cbn [orb andb].
  - destruct (int_map_find a g2l) as [k|] eqn:F.
    + rewrite nth_upd, Nat.eqb_refl. cbn [andb].
      destruct (a <? length uv); [|now rewrite Bool.andb_false_r].
      now destruct (existsb (Nat.eqb a) vs).
    + destruct (existsb (Nat.eqb a) vs && (a <? length uv));
        now destruct (a <? length uv).
  - destruct (int_map_find a g2l) as [k|] eqn:F; [|reflexivity].
    rewrite nth_upd_neq by auto. reflexivity.
Qed.

Lemma copy_island_uvs_spec tris (uv island_uvs : list (T * T)) faces g2l :
  let corners := flat_map (fun f => tri_verts (nth f tris (0, 0, 0))) faces in
  let uv' := copy_island_uvs tris uv island_uvs faces g2l in
  length uv' = length uv /\
  forall x,
    uv_at uv' x =
    if existsb (Nat.eqb x) corners && (x <? length uv) then
      match int_map_find x g2l with
      | Some k => uv_at island_uvs k
      | None => uv_at uv x
      end
    else uv_at uv x.
Proof.
  cbv zeta. unfold copy_island_uvs.
  rewrite (fold_left_flat_map (copy_vertex island_uvs g2l)
             (fun f => tri_verts (nth f tris (0, 0, 0))) faces uv).
  apply copy_vertices_spec.
Qed.

Lemma corners_spec (mesh : Mesh T) faces x :
  existsb (Nat.eqb x) (flat_map (fun f => tri_verts (nth f (triangles mesh) (0, 0, 0))) faces)
    = true <->
  exists f, In f faces /\ In x (face_verts mesh f).
Proof.
  rewrite existsb_exists. split.
  - intros (y & Hy & E). apply Nat.eqb_eq in E. subst y.
    apply in_flat_map in Hy. exact Hy.
  - intros H. exists x. split; [|apply Nat.eqb_refl].
    apply in_flat_map. exact H.
Qed.

(** X20.  [copy_island_uvs] and the numbering of [lscm_parameterize].  The map
    [island_global_to_local] that [unwrap_mesh] builds is the
    [global_to_local] of [lscm_parameterize]; with it, when every corner
    of the island's faces is an index of the UV array, the copy stores
    entry [k] of the island's UVs at vertex [local_to_global[k]], for
    every local index [k], keeps the length of the array, and leaves
    every vertex that is no corner of a face of the island as it was. *)
Theorem copy_island_uvs_round_trip (mesh : Mesh T) faces (uv island_uvs : list (T * T)) :
  (forall f v, In f faces -> In v (face_verts mesh f) -> v < length uv) ->
  let g2l := island_global_to_local mesh faces in
  let l2g := snd (local_vertex_map mesh faces) in
  let uv' := copy_island_uvs (triangles mesh) uv island_uvs faces g2l in
  g2l = fst (local_vertex_map mesh faces) /\
  length uv' = length uv /\
  (forall k, k < length l2g -> uv_at uv' (nth k l2g 0) = uv_at island_uvs k) /\
  (forall v, ~ (exists f, In f faces /\ In v (face_verts mesh f)) ->
     uv_at uv' v = uv_at uv v).
Proof.
  intros Hr. cbv zeta.
  destruct (copy_island_uvs_spec (triangles mesh) uv island_uvs faces
              (island_global_to_local mesh faces)) as (L & V).
  cbv zeta in L, V.
  split; [apply island_global_to_local_eq|]. split; [exact L|]. split.
  - intros k Hk. rewrite V.
    destruct (local_vertex_map_spec mesh faces) as (I & C).
    set (l2g := snd (local_vertex_map mesh faces)) in *.
    assert (Hin : In (nth k l2g 0) l2g) by now apply nth_In.
    pose proof (proj1 (C _) Hin) as (f & Hf & Hv).
    replace (existsb _ _) with true
      by (symmetry; apply corners_spec; eauto).
    replace (nth k l2g 0 <? length uv) with true
      by (symmetry; apply Nat.ltb_lt; eapply Hr; eauto).
    cbn [andb]. rewrite island_global_to_local_eq.
    destruct I as [ND Dom Inv].
    destruct (int_map_find (nth k l2g 0) (fst (local_vertex_map mesh faces))) as [k'|] eqn:F.
    + destruct (Inv _ _ F) as (Hk' & E).
      fold l2g in Hk', E.
      assert (k' = k) by (apply (proj1 (NoDup_nth l2g 0) ND); auto).
      now subst.
    + apply Dom in Hin. congruence.
  - intros v Hv. rewrite V.
    destruct (existsb _ _) eqn:E; [|reflexivity].
    apply corners_spec in E. contradiction.
Qed.

End UnwrapFacts.

Lemma copy_island_uvs_round_trip_witness :
  let faces := [0] in
  let uv := repeat (0, 0)%R 6 in
  let island_uvs := [(1, 2); (3, 4); (5, 6)]%R in
  let g2l := island_global_to_local bowtie_mesh faces in
  let l2g := snd (local_vertex_map bowtie_mesh faces) in
  let uv' := copy_island_uvs (triangles bowtie_mesh) uv island_uvs faces g2l in
  g2l = fst (local_vertex_map bowtie_mesh faces) /\
  length uv' = length uv /\
  (forall k, k < length l2g -> uv_at uv' (nth k l2g 0) = uv_at island_uvs k) /\
  (forall v, ~ (exists f, In f faces /\ In v (face_verts bowtie_mesh f)) ->
     uv_at uv' v = uv_at uv v).
Proof.
  apply (@copy_island_uvs_round_trip R _ bowtie_mesh [0] (repeat (0, 0)%R 6)
           [(1, 2); (3, 4); (5, 6)]%R).
  intros f v [<-|[]] Hv. simpl in Hv.
  destruct Hv as [<-|[<-|[<-|[]]]]; simpl; lia.
Defined.

Lemma island_faces_of_lt F ids i f : In f (island_faces_of F ids i) -> f < F.
Proof.
  unfold island_faces_of. intros H. apply filter_In in H. destruct H as (H & _).
  apply in_seq in H. lia.
Qed.

Lemma island_faces_of_length F ids i : length (island_faces_of F ids i) <= F.
Proof.
  unfold island_faces_of.
  assert (G : forall l, length (filter (fun f => (nth f ids 0 =? Z.of_nat i)%Z) l) <= length l).
  { induction l as [|a l IH]; simpl; [lia|].
    destruct (nth a ids 0 =? Z.of_nat i)%Z; simpl; lia. }
  specialize (G (seq 0 F)). now rewrite length_seq in G.
Qed.

Lemma corners_in_range_spec {T} (mesh : Mesh T) f v :
  corners_in_range mesh = true -> f < num_triangles mesh ->
  In v (face_verts mesh f) -> v < num_vertices mesh.
Proof.
  unfold corners_in_range, face_verts, num_triangles. intros H Hf Hv.
  rewrite forallb_forall in H.
  specialize (H (nth f (triangles mesh) (0, 0, 0)) (nth_In _ _ Hf)).
  rewrite forallb_forall in H. apply Nat.ltb_lt. now apply H.
Qed.

Section UnwrapLoop.
Context {T : Type} {ST : Scalar T} {D : Type} {SD : Scalar D}.
Variable vec3_dist : T * T * T -> T * T * T -> T.
Variable assemble : Mesh T -> list nat -> list (nat * nat) -> list (triplet D).
Variable Factor : Type.
Variable lu_compute : list (triplet D) -> option Factor.
Variable lu_solve : Factor -> list D -> option (list D).
Variable d2f : D -> T.
Variable size_bits : Z.
Variables mesh result : Mesh T.
Variable ids : list Z.
Variable min_faces : Z.

Local Abbreviation step :=
  (unwrap_island vec3_dist assemble lu_compute lu_solve d2f
                 size_bits mesh result ids min_faces).
Local Abbreviation computed :=
  (island_uvs_of vec3_dist assemble lu_compute lu_solve d2f
                 size_bits mesh ids min_faces).
Local Abbreviation faces_of := (island_faces_of (num_triangles mesh) ids).

Lemma unwrap_island_spec uv i :
  triangles result = triangles mesh ->
  corners_in_range mesh = true ->
  length uv = num_vertices mesh ->
  length (step uv i) = num_vertices mesh /\
  (forall x, computed i = None \/ ~ touches mesh ids i x ->
     uv_at (step uv i) x = uv_at uv x) /\
  (forall iuv x, computed i = Some iuv -> touches mesh ids i x ->
     uv_at (step uv i) x =
     uv_at iuv (local_index (fst (local_vertex_map mesh (faces_of i))) x)).
Proof.
  intros Htri Hrange Hlen.
  unfold unwrap_island, island_uvs_of. cbv zeta.
  set (faces := island_faces_of (num_triangles mesh) ids i).
  destruct (too_small size_bits (length faces) min_faces).
  { split; [exact Hlen|]. split; [reflexivity|discriminate]. }
  destruct (lscm_parameterize vec3_dist assemble lu_compute lu_solve d2f
              (Some mesh) (Some faces)) as [island_uvs|].
  2: { split; [exact Hlen|]. split; [reflexivity|discriminate]. }
  rewrite Htri.
  destruct (copy_island_uvs_spec (triangles mesh) uv island_uvs faces
              (island_global_to_local mesh faces)) as (L & V).
  cbv zeta in L, V.
  split; [now rewrite L|]. split.
  - intros x [H|H]; [discriminate|]. rewrite V.
    destruct (existsb _ _) eqn:E; [|reflexivity].
    apply corners_spec in E. contradiction.
  - intros iuv x E Hx. inversion E; subst iuv. rewrite V.
    replace (existsb _ _) with true by (symmetry; now apply corners_spec).
    destruct Hx as (f & Hf & Hv).
    replace (x <? length uv) with true.
    2: { symmetry. apply Nat.ltb_lt. rewrite Hlen.
         eapply corners_in_range_spec; eauto.
         eapply island_faces_of_lt; eauto. }
    cbn [andb]. rewrite island_global_to_local_eq. unfold local_index.
    destruct (local_vertex_map_spec mesh faces) as ([ND Dom Inv] & C).
    destruct (int_map_find x (fst (local_vertex_map mesh faces))) eqn:F; [reflexivity|].
    exfalso. assert (Hin : In x (snd (local_vertex_map mesh faces))) by (apply C; eauto).
    apply Dom in Hin. congruence.
Qed.

(** X21.  The UV array after the loop over the islands, when the copy has
    the triangles of the mesh and every corner is a vertex.  A vertex
    that no parameterized island touches is at (0, 0).  A vertex of a
    parameterized island carries the UV that [lscm_parameterize] has for
    it, unless an island with a larger id that is parameterized too
    touches the vertex: of the islands that share a vertex, the last
    one parameterized decides. *)
Theorem unwrap_islands_shared_vertices n :
  triangles result = triangles mesh ->
  corners_in_range mesh = true ->
  let uv := unwrap_islands vec3_dist assemble lu_compute lu_solve d2f
                           size_bits mesh result ids n min_faces in
  length uv = num_vertices mesh /\
  (forall x, (forall i, i < n -> touches mesh ids i x -> computed i = None) ->
     uv_at uv x = (s_zero, s_zero)) /\
  (forall i island_uvs x,
     i < n -> computed i = Some island_uvs -> touches mesh ids i x ->
     (forall j, i < j < n -> touches mesh ids j x -> computed j = None) ->
     uv_at uv x =
     uv_at island_uvs (local_index (fst (local_vertex_map mesh (faces_of i))) x)).
Proof.
  intros Htri Hrange. cbv zeta. unfold unwrap_islands.
  induction n as [|m IH].
  - cbn [seq fold_left]. split; [apply repeat_length|]. split.
    + intros x _. unfold uv_at. apply nth_repeat.
    + intros i iuv x Hi. lia.
  - rewrite seq_S, fold_left_app. cbn [fold_left Nat.add].
    destruct IH as (L & Z0 & W).
    set (uv := fold_left step (seq 0 m) (repeat (s_zero, s_zero) (num_vertices mesh))) in *.
    destruct (unwrap_island_spec uv m Htri Hrange L) as (L' & Same & New).
    split; [exact L'|]. split.
    + intros x Hx. destruct (computed m) as [iuv|] eqn:Cm.
      * rewrite Same.
        -- apply Z0. intros i Hi. apply Hx. lia.
        -- right. intros Ht. specialize (Hx m ltac:(lia) Ht). congruence.
      * rewrite Same by now left. apply Z0. intros i Hi. apply Hx. lia.
    + intros i iuv x Hi Ci Ti Later.
      destruct (Nat.eq_dec i m) as [->|Hne]; [now apply New|].
      rewrite Same.
      * apply W; auto; [lia|]. intros j Hj. apply Later. lia.
      * destruct (computed m) as [iuv'|] eqn:Cm; [|now left].
        right. intros Ht. specialize (Later m ltac:(lia) Ht). congruence.
Qed.

(** X22.  A negative [min_island_faces] skips every island.  The comparison
    of line 201 converts the [int] to [size_t], so a negative minimum
    is a number no island reaches, and the UV array after the loop is
    all zero, whatever the islands are. *)
Theorem unwrap_islands_negative_min n :
  (32 <= size_bits)%Z ->
  (- 2 ^ 31 <= min_faces < 0)%Z ->
  (Z.of_nat (num_triangles mesh) < 2 ^ 31)%Z ->
  unwrap_islands vec3_dist assemble lu_compute lu_solve d2f
                 size_bits mesh result ids n min_faces
  = repeat (s_zero, s_zero) (num_vertices mesh).
Proof.
  intros Hb Hm HF. unfold unwrap_islands.
  assert (S : forall uv i,
            unwrap_island vec3_dist assemble lu_compute lu_solve d2f
                          size_bits mesh result ids min_faces uv i = uv).
  { intros uv i. unfold unwrap_island. cbv zeta.
    replace (too_small _ _ _) with true; [reflexivity|].
    symmetry. unfold too_small, to_size_t. apply Z.ltb_lt.
    pose proof (island_faces_of_length (num_triangles mesh) ids i) as Le.
    assert (P : (2 ^ 32 <= 2 ^ size_bits)%Z) by (apply Z.pow_le_mono_r; lia).
    change (2 ^ 32)%Z with 4294967296%Z in P.
    change (2 ^ 31)%Z with 2147483648%Z in Hm, HF.
    rewrite <- (Z_mod_plus_full min_faces 1 (2 ^ size_bits)).
    rewrite Z.mod_small by lia. lia. }
  generalize (repeat (@s_zero T ST, @s_zero T ST) (num_vertices mesh)).
  induction (seq 0 n) as [|i l IH]; intros uv; cbn [fold_left]; [reflexivity|].
  rewrite S. apply IH.
Qed.

End UnwrapLoop.

Lemma unwrap_islands_shared_vertices_witness :
  let computed := island_uvs_of flat_dist empty_assemble trivial_compute trivial_solve
                                cut_to_unit 64 bowtie_mesh [0; 1]%Z 1 in
  let uv := unwrap_islands flat_dist empty_assemble trivial_compute trivial_solve
                           cut_to_unit 64 bowtie_mesh bowtie_mesh [0; 1]%Z 2 1 in
  length uv = num_vertices bowtie_mesh /\
  (forall x, (forall i, i < 2 -> touches bowtie_mesh [0; 1]%Z i x -> computed i = None) ->
     uv_at uv x = (0, 0)%R) /\
  (forall i island_uvs x,
     i < 2 -> computed i = Some island_uvs -> touches bowtie_mesh [0; 1]%Z i x ->
     (forall j, i < j < 2 -> touches bowtie_mesh [0; 1]%Z j x -> computed j = None) ->
     uv_at uv x =
     uv_at island_uvs
           (local_index
              (fst (local_vertex_map bowtie_mesh
                      (island_faces_of (num_triangles bowtie_mesh) [0; 1]%Z i))) x)).
Proof.
  exact (@unwrap_islands_shared_vertices R _ R _ flat_dist empty_assemble unit
           trivial_compute trivial_solve cut_to_unit 64 bowtie_mesh bowtie_mesh
           [0; 1]%Z 1 2 eq_refl eq_refl).
Defined.

Lemma unwrap_islands_negative_min_witness :
  unwrap_islands flat_dist empty_assemble trivial_compute trivial_solve cut_to_unit
                 64 bowtie_mesh bowtie_mesh [0; 1]%Z 2 (-1)
  = repeat (0, 0)%R (num_vertices bowtie_mesh).
Proof.
  refine (@unwrap_islands_negative_min R _ R _ flat_dist empty_assemble unit
            trivial_compute trivial_solve cut_to_unit 64 bowtie_mesh bowtie_mesh
            [0; 1]%Z (-1) 2 _ _ _).
  - lia.
  - lia.
  - simpl. lia.
Defined.

(* ------------------------------------------------------------------ *)
(** ** unwrap_mesh: the result *)

Section UnwrapResult.
Context {T : Type} {ST : Scalar T} {D : Type} {SD : Scalar D}.
Variable vec3_dist : T * T * T -> T * T * T -> T.
Variable assemble : Mesh T -> list nat -> list (nat * nat) -> list (triplet D).
Variable Factor : Type.
Variable lu_compute : list (triplet D) -> option Factor.
Variable lu_solve : Factor -> list D -> option (list D).
Variable d2f : D -> T.
Variable seam_sort : list (nat * nat) -> list (nat * nat).
Variable island_sort : list (@Island T) -> list (@Island T).
Variable allocate_mesh_copy : Mesh T -> Mesh T.




End UnwrapResult.

